(** * ProjectBookmark: peer catalog synchronisation

    A shallow embedding of the node-linking core of
    [RoamingLibrary_wNodeLinking_v2.ino]: the ESP-NOW receive callback
    [onDataReceived], the send-outcome callback registered by
    [initializeESPNow], the dissemination scheduler [broadcastFiles] and the
    periodic [updateNodeLinking], with the properties of the specification
    stated over them.

    Target platform is the ESP8266 (ILP32, little endian): [unsigned long],
    [size_t] and [int] are 32 bits wide.  Serial logging, the LED and [delay]
    leave no trace in the state modelled here. *)

From Stdlib Require Import ZArith Strings.Byte Strings.Ascii Strings.String.
From Stdlib Require Import DecimalString DecimalN DecimalZ.
From stdpp Require Import gmap strings list fin_maps.
From Equations Require Import Equations.

Local Open Scope Z_scope.

(** ** Machine integers *)

Module Word.

Definition modulus : Z := 2 ^ 32.

(** [unsigned long] / [size_t]: arithmetic is modulo [2^32]. *)
Definition u32 (z : Z) : Z := z mod modulus.

(** [a - b] on [unsigned long]. *)
Definition usub (a b : Z) : Z := u32 (a - b).

(** [int]: two's complement on 32 bits. *)
Definition s32 (z : Z) : Z := (z + 2 ^ 31) mod modulus - 2 ^ 31.

End Word.

(** ** The C library functions the core uses, on the bytes of the memory *)

Module CLib.

Definition byteZ (b : byte) : Z := Z.of_N (Byte.to_N b).

Definition is_nul (b : byte) : bool := byteZ b =? 0.

(** The characters of the C string at a pointer: everything before the first
    NUL of [s], the memory from the pointer on.  The string does not end with
    the array the pointer is in: the arrays of [SharedFile] need not hold a
    terminator (they come off the wire, or out of a [strncpy] of 31 bytes into
    an uninitialised array), and the read then goes on through whatever
    follows the array.  Where the firmware reads a C string, [s] is therefore
    the array, the rest of the object, and what the memory holds behind the
    object (see [filename_memory] and [memory_behind] below); of an array
    alone, [c_str] gives the characters the array holds. *)
Fixpoint c_str (s : list byte) : list byte :=
  match s with
  | [] => []
  | c :: s' => if is_nul c then [] else c :: c_str s'
  end.

(** [strcmp] on the memory from the two pointers on: the difference of the
    first pair of differing characters, 0 when both strings end together. *)
Fixpoint strcmp (a b : list byte) : Z :=
  match a, b with
  | [], [] => 0
  | [], y :: _ => - byteZ y
  | x :: _, [] => byteZ x
  | x :: a', y :: b' =>
      if byteZ x =? byteZ y
      then (if is_nul x then 0 else strcmp a' b')
      else byteZ x - byteZ y
  end.

(** [memcmp a b n] over the first [n] bytes of two arrays holding at least
    [n] bytes. *)
Fixpoint memcmp (a b : list byte) (n : nat) : Z :=
  match n with
  | O => 0
  | S n' =>
      match a, b with
      | x :: a', y :: b' =>
          if byteZ x =? byteZ y then memcmp a' b' n' else byteZ x - byteZ y
      | _, _ => 0
      end
  end.

(** [strncpy dst src n]: the characters of [src], NUL padded or cut to exactly
    [n] bytes, overwrite the first [n] bytes of [dst]; the rest of [dst] is
    left as it was. *)
Definition strncpy (dst src : list byte) (n : nat) : list byte :=
  take n (c_str src ++ replicate n x00) ++ drop n dst.

(** [memcpy] out of a buffer: [n] bytes from offset [off]. *)
Definition slice (off n : nat) (buf : list byte) : list byte :=
  take n (drop off buf).

(** A little-endian unsigned integer. *)
Fixpoint le_uint (bs : list byte) : Z :=
  match bs with
  | [] => 0
  | b :: bs' => byteZ b + 256 * le_uint bs'
  end.

End CLib.

Import CLib.

(** ** Data model *)

(** [uint8_t mac[6]]: a link-layer address. *)
Record MacAddr : Type := Mac { m0 : byte; m1 : byte; m2 : byte; m3 : byte; m4 : byte; m5 : byte }.

Definition mac_bytes (m : MacAddr) : list byte :=
  [m0 m; m1 m; m2 m; m3 m; m4 m; m5 m].

Definition mac_of_bytes (bs : list byte) : MacAddr :=
  Mac (nth 0 bs x00) (nth 1 bs x00) (nth 2 bs x00) (nth 3 bs x00) (nth 4 bs x00) (nth 5 bs x00).

Definition broadcastMac : MacAddr := Mac xff xff xff xff xff xff.

(** [struct SharedFile]: the record that travels on the wire. *)
Record SharedFile : Type := mkSharedFile {
  filename : list byte;      (* char filename[32] *)
  filesize : Z;              (* size_t *)
  sourceNode : MacAddr;      (* uint8_t sourceNode[6] *)
  nodeSSID : list byte       (* char nodeSSID[32] *)
}.

(** [struct PeerInfo]. *)
Record PeerInfo : Type := mkPeerInfo {
  mac : MacAddr;
  lastSeen : Z;              (* unsigned long *)
  ssid : string
}.

(** [struct SendStatus]. *)
Record SendStatus : Type := mkSendStatus {
  success : bool;
  retryCount : Z;            (* int *)
  lastTry : Z                (* unsigned long *)
}.

(** Constants for node linking. *)
Definition MAX_PEERS : Z := 20.
Definition BROADCAST_INTERVAL : Z := 2000.
Definition PEER_TIMEOUT : Z := 10000.
Definition MAX_RETRY : Z := 3.

(** [sizeof(SharedFile)] on the target: 32 + 4 + 6 + 32 bytes and two bytes of
    tail padding for the 4-byte alignment of [filesize]. *)
Definition sizeof_SharedFile : Z := 76.

(** [memcpy(&receivedFile, data, sizeof(SharedFile))]: the fields at their
    offsets in the struct. *)
Definition decode_SharedFile (data : list byte) : SharedFile :=
  {| filename := slice 0 32 data;
     filesize := le_uint (slice 32 4 data);
     sourceNode := mac_of_bytes (slice 36 6 data);
     nodeSSID := slice 42 32 data |}.

(** The four bytes of a [size_t], least significant first. *)
Definition le_bytes4 (z : Z) : list byte :=
  map (fun i => default x00 (Byte.of_N (Z.to_N ((z / 256 ^ Z.of_nat i) mod 256)))) (seq 0 4).

(** A datagram that carries a given record (its two padding bytes zero), for
    writing concrete inputs. *)
Definition encode_SharedFile (f : SharedFile) : list byte :=
  take 32 (filename f ++ replicate 32 x00) ++ le_bytes4 (filesize f)
  ++ mac_bytes (sourceNode f) ++ take 32 (nodeSSID f ++ replicate 32 x00) ++ [x00; x00].

(** The 32 bytes of a [char[32]] member (a list of another length, which no
    object holds, is cut or NUL-padded to the size of the array). *)
Definition char32 (a : list byte) : list byte := take 32 (a ++ replicate 32 x00).

(** The memory from [f.filename] on, and from [f.nodeSSID] on: the array, the
    members that follow it in the object, and then [behind]: the two bytes of
    tail padding and what the memory holds after the object. *)
Definition filename_memory (f : SharedFile) (behind : list byte) : list byte :=
  char32 (filename f) ++ le_bytes4 (filesize f) ++ mac_bytes (sourceNode f)
  ++ char32 (nodeSSID f) ++ behind.

Definition nodeSSID_memory (f : SharedFile) (behind : list byte) : list byte :=
  char32 (nodeSSID f) ++ behind.

(** [String(const char* )], on the memory from the pointer on. *)
Definition String_of_chars (mem : list byte) : string :=
  string_of_list_byte (c_str mem).

(** The places where the firmware reads a member of a [SharedFile] as a C
    string: the label and the name of the local [receivedFile] of
    [onDataReceived] (the name once in each turn of the loop over
    [remoteFiles]), and the name and the label of the [i]-th element of
    [remoteFiles]. *)
Inductive CStringRead : Type :=
| received_label
| received_name (i : nat)
| stored_name (i : nat)
| stored_label (i : nat).

(** ** [getMacString]: ["%02X:%02X:%02X:%02X:%02X:%02X"] *)

Definition hex_digit (n : N) : ascii :=
  match n with
  | 0 => "0" | 1 => "1" | 2 => "2" | 3 => "3" | 4 => "4" | 5 => "5" | 6 => "6" | 7 => "7"
  | 8 => "8" | 9 => "9" | 10 => "A" | 11 => "B" | 12 => "C" | 13 => "D" | 14 => "E"
  | _ => "F"
  end%N%char.

Definition hex02X (b : byte) (rest : string) : string :=
  String (hex_digit (Byte.to_N b / 16)) (String (hex_digit (Byte.to_N b mod 16)) rest).

Definition getMacString (m : MacAddr) : string :=
  hex02X (m0 m) (String ":" (hex02X (m1 m) (String ":" (hex02X (m2 m) (String ":"
  (hex02X (m3 m) (String ":" (hex02X (m4 m) (String ":" (hex02X (m5 m) EmptyString)))))))))).

(** ** The node's state

    The globals [peers], [remoteFiles] and [sendStatuses], the function-local
    statics [failedTransmissions] (of [broadcastFiles]) and [lastBroadcast] (of
    [updateNodeLinking]), and two ghost components that record the dialogue
    with the platform: how many times [millis()] has been read, and every
    record handed to [esp_now_send]. *)
Record State : Type := mkState {
  peers : list PeerInfo;
  remoteFiles : list SharedFile;
  sendStatuses : gmap string SendStatus;
  failedTransmissions : list SharedFile;
  lastBroadcast : Z;
  clock_reads : nat;
  tx_log : list SharedFile
}.

Definition init_state : State :=
  {| peers := []; remoteFiles := []; sendStatuses := ∅; failedTransmissions := [];
     lastBroadcast := 0; clock_reads := 0; tx_log := [] |}.

Definition set_peers (f : list PeerInfo -> list PeerInfo) (s : State) : State :=
  mkState (f (peers s)) (remoteFiles s) (sendStatuses s) (failedTransmissions s)
          (lastBroadcast s) (clock_reads s) (tx_log s).
Definition set_remoteFiles (f : list SharedFile -> list SharedFile) (s : State) : State :=
  mkState (peers s) (f (remoteFiles s)) (sendStatuses s) (failedTransmissions s)
          (lastBroadcast s) (clock_reads s) (tx_log s).
Definition set_sendStatuses (f : gmap string SendStatus -> gmap string SendStatus) (s : State) : State :=
  mkState (peers s) (remoteFiles s) (f (sendStatuses s)) (failedTransmissions s)
          (lastBroadcast s) (clock_reads s) (tx_log s).
Definition set_failedTransmissions (f : list SharedFile -> list SharedFile) (s : State) : State :=
  mkState (peers s) (remoteFiles s) (sendStatuses s) (f (failedTransmissions s))
          (lastBroadcast s) (clock_reads s) (tx_log s).
Definition set_lastBroadcast (t : Z) (s : State) : State :=
  mkState (peers s) (remoteFiles s) (sendStatuses s) (failedTransmissions s)
          t (clock_reads s) (tx_log s).

(** ** The platform

    What the firmware reads from its surroundings: the station address
    ([WiFi.macAddress]), the access-point name chosen in [setup], the successive
    readings of [millis()], the successive return codes of [esp_now_send], and
    the memory a C-string read runs into when it leaves an object:
    [memory_behind n r] is what lies behind the object of the read [r], as far
    as the first NUL, once the clock has been read [n] times (behind the local
    [receivedFile] that is the stack after its two padding bytes, which come
    with the datagram; behind an element of [remoteFiles] it is the padding of
    the list node and the heap after it). *)
Record Env : Type := mkEnv {
  WiFi_macAddress : MacAddr;
  AP_SSID : string;
  millis_at : nat -> Z;
  esp_now_send_rc : nat -> Z;
  memory_behind : nat -> CStringRead -> list byte
}.

(** ** A state monad for the callbacks *)

Definition M (A : Type) : Type := State -> A * State.

Definition ret {A} (a : A) : M A := fun s => (a, s).
Definition bind {A B} (c : M A) (k : A -> M B) : M B :=
  fun s => let (a, s') := c s in k a s'.
Definition gets {A} (f : State -> A) : M A := fun s => (f s, s).
Definition modify (f : State -> State) : M unit := fun s => (tt, f s).
Definition exec {A} (c : M A) (s : State) : State := snd (c s).

Notation "'do' x <- c ; k" := (bind c (fun x => k))
  (at level 10, x name, c at level 100, k at level 200).
Notation "c ;; k" := (bind c (fun _ => k))
  (at level 100, k at level 200, right associativity).

(** ** [isAllowedFile] *)

Definition lower_char (c : ascii) : ascii :=
  let n := nat_of_ascii c in
  if ((65 <=? n) && (n <=? 90))%nat then ascii_of_nat (n + 32) else c.

Fixpoint toLowerCase (s : string) : string :=
  match s with
  | EmptyString => EmptyString
  | String c s' => String (lower_char c) (toLowerCase s')
  end.

Definition endsWith (s suffix : string) : bool :=
  let n := String.length s in
  let k := String.length suffix in
  if (n <? k)%nat then false else String.eqb (substring (n - k) k s) suffix.

Definition isAllowedFile (fileName : string) : bool :=
  let lowerFilename := toLowerCase fileName in
  endsWith lowerFilename ".pdf" || endsWith lowerFilename ".epub"
  || endsWith lowerFilename ".doc" || endsWith lowerFilename ".rtf"
  || endsWith lowerFilename ".txt".

(** What [root.openNextFile()] yields: [file.name()] and [file.size()]. *)
Record DirEntry : Type := mkDirEntry {
  file_name : string;
  file_size : Z
}.

(** A pass over the root directory.  [broadcastFiles] declares its local
    [sharedFile] without an initialiser and [strncpy] writes 31 of the 32 bytes
    of each char array, so every directory entry comes with the indeterminate
    contents the local starts from. [None] stands for a failed [SD.open]. *)
Definition RootDir : Type := option (list (DirEntry * SharedFile)).

Section Firmware.

Variable env : Env.

(** [millis()]: the next reading of the millisecond clock, an [unsigned long]. *)
Definition millis : M Z :=
  fun s => (Word.u32 (millis_at env (clock_reads s)),
            mkState (peers s) (remoteFiles s) (sendStatuses s) (failedTransmissions s)
                    (lastBroadcast s) (S (clock_reads s)) (tx_log s)).

(** [esp_now_send(broadcastMac, &f, sizeof(SharedFile))]: the record is logged
    and the platform answers with a return code, 0 for accepted. *)
Definition esp_now_send (f : SharedFile) : M Z :=
  fun s => (esp_now_send_rc env (length (tx_log s)),
            mkState (peers s) (remoteFiles s) (sendStatuses s) (failedTransmissions s)
                    (lastBroadcast s) (clock_reads s) (tx_log s ++ [f])).

(** *** [onDataReceived] *)

(** The loop over [peers]: the first entry whose address equals [mac] gets a
    new [lastSeen] and [ssid], and the loop stops there. *)
Fixpoint update_peer (addr : MacAddr) (now : Z) (name : string) (ps : list PeerInfo)
  : list PeerInfo * bool :=
  match ps with
  | [] => ([], false)
  | peer :: ps' =>
      if memcmp (mac_bytes (mac peer)) (mac_bytes addr) 6 =? 0
      then ({| mac := mac peer; lastSeen := now; ssid := name |} :: ps', true)
      else let (ps'', peerFound) := update_peer addr now name ps' in
           (peer :: ps'', peerFound)
  end.

(** The test of the loop over [remoteFiles]: [strcmp] reads both names as C
    strings, each through its object and into what lies behind it. *)
Definition same_file (file : SharedFile) (behind_file : list byte)
    (receivedFile : SharedFile) (behind_received : list byte) : bool :=
  (strcmp (filename_memory file behind_file)
          (filename_memory receivedFile behind_received) =? 0)
  && (memcmp (mac_bytes (sourceNode file)) (mac_bytes (sourceNode receivedFile)) 6 =? 0).

(** The loop over [remoteFiles], from its [i]-th element on: the first entry
    that passes the test is overwritten by the received record, and the loop
    stops.  [padding] holds the two padding bytes of [receivedFile]. *)
Fixpoint update_file (behind : CStringRead -> list byte) (padding : list byte)
    (receivedFile : SharedFile) (i : nat) (fs : list SharedFile)
  : list SharedFile * bool :=
  match fs with
  | [] => ([], false)
  | file :: fs' =>
      if same_file file (behind (stored_name i))
                   receivedFile (padding ++ behind (received_name i))
      then (receivedFile :: fs', true)
      else let (fs'', fileFound) := update_file behind padding receivedFile (S i) fs' in
           (file :: fs'', fileFound)
  end.

(** [memcpy] fills the 76 bytes of [receivedFile]: its members and its two
    padding bytes.  The clock is read once on either path, in the matching
    iteration or when the new peer is built. *)
Definition onDataReceived (addr : MacAddr) (data : list byte) (len : Z) : M unit :=
  if len =? sizeof_SharedFile then
    let receivedFile := decode_SharedFile data in
    let padding := slice 74 2 data in
    do behind <- gets (fun s => memory_behind env (clock_reads s));
    do now <- millis;
    let name := String_of_chars (nodeSSID_memory receivedFile (padding ++ behind received_label)) in
    do ps <- gets peers;
    let (ps', peerFound) := update_peer addr now name ps in
    modify (set_peers (fun _ =>
      if peerFound then ps'
      else ps' ++ [{| mac := addr; lastSeen := now; ssid := name |}])) ;;
    do fs <- gets remoteFiles;
    let (fs', fileFound) := update_file behind padding receivedFile 0 fs in
    modify (set_remoteFiles (fun _ => if fileFound then fs' else fs' ++ [receivedFile]))
  else ret tt.

(** *** The send callback registered by [initializeESPNow] *)

Definition onDataSent (mac_addr : MacAddr) (sendStatus : Z) : M unit :=
  if negb (sendStatus =? 0) then
    let macString := getMacString mac_addr in
    do m <- gets sendStatuses;
    match m !! macString with
    | Some st =>
        modify (set_sendStatuses
          (insert macString {| success := false;
                               retryCount := Word.s32 (retryCount st + 1);
                               lastTry := lastTry st |}))
    | None => ret tt
    end
  else ret tt.

(** *** [broadcastFiles] *)

(** [sendStatuses[key]]: [operator[]] value-initialises a missing entry. *)
Definition default_status : SendStatus :=
  {| success := false; retryCount := 0; lastTry := 0 |}.

Definition status_at (key : string) : M SendStatus :=
  do m <- gets sendStatuses;
  match m !! key with
  | Some st => ret st
  | None => modify (set_sendStatuses (insert key default_status)) ;; ret default_status
  end.

Definition set_lastTry (key : string) (t : Z) : M unit :=
  do st <- status_at key;
  modify (set_sendStatuses
    (insert key {| success := success st; retryCount := retryCount st; lastTry := t |})).

(** The loop over [failedTransmissions]; the result is what is left in the
    vector: [erase] drops a ticket, [++it] keeps it. *)
Fixpoint retry_loop (tickets : list SharedFile) : M (list SharedFile) :=
  match tickets with
  | [] => ret []
  | it :: rest =>
      let macStr := getMacString (sourceNode it) in
      do st <- status_at macStr;
      if retryCount st <? MAX_RETRY then
        do now <- millis;
        do st' <- status_at macStr;
        if 100 <=? Word.usub now (lastTry st') then
          do rc <- esp_now_send it;
          if rc =? 0 then
            do now' <- millis;
            set_lastTry macStr now' ;;
            retry_loop rest
          else
            do kept <- retry_loop rest; ret (it :: kept)
        else
          do kept <- retry_loop rest; ret (it :: kept)
      else
        retry_loop rest
  end.

Definition retry_phase : M unit :=
  do tickets <- gets failedTransmissions;
  do kept <- retry_loop tickets;
  modify (set_failedTransmissions (fun _ => kept)).

(** The record built for a local file. *)
Definition local_record (file : DirEntry) (uninit : SharedFile) : SharedFile :=
  {| filename := strncpy (filename uninit) (list_byte_of_string (file_name file)) 31;
     filesize := Word.u32 (file_size file);
     sourceNode := WiFi_macAddress env;
     nodeSSID := strncpy (nodeSSID uninit) (list_byte_of_string (AP_SSID env)) 31 |}.

(** The loop over the root directory. *)
Fixpoint fresh_loop (files : list (DirEntry * SharedFile)) : M unit :=
  match files with
  | [] => ret tt
  | (file, uninit) :: rest =>
      (if isAllowedFile (file_name file) then
         let sharedFile := local_record file uninit in
         do rc <- esp_now_send sharedFile;
         if negb (rc =? 0) then
           modify (set_failedTransmissions (fun v => v ++ [sharedFile])) ;;
           let macStr := getMacString (sourceNode sharedFile) in
           do now <- millis;
           modify (set_sendStatuses
             (insert macStr {| success := false; retryCount := 0; lastTry := now |}))
         else ret tt
       else ret tt) ;;
      fresh_loop rest
  end.

Definition fresh_phase (root : RootDir) : M unit :=
  match root with
  | None => ret tt
  | Some files => fresh_loop files
  end.

Definition broadcastFiles (root : RootDir) : M unit :=
  retry_phase ;; fresh_phase root.

(** *** [updateNodeLinking] *)

(** The predicate handed to [peers.remove_if]. *)
Definition removing (currentTime : Z) (peer : PeerInfo) : bool :=
  PEER_TIMEOUT <? Word.usub currentTime (lastSeen peer).

Definition remove_inactive (currentTime : Z) (ps : list PeerInfo) : list PeerInfo :=
  List.filter (fun peer => negb (removing currentTime peer)) ps.

Definition updateNodeLinking (root : RootDir) : M unit :=
  do currentTime <- millis;
  modify (set_peers (remove_inactive currentTime)) ;;
  do last <- gets lastBroadcast;
  if BROADCAST_INTERVAL <=? Word.usub currentTime last then
    broadcastFiles root ;;
    modify (set_lastBroadcast currentTime)
  else ret tt.

(** *** Runs of the node

    The firmware is single threaded: the two callbacks and the pass of
    [loop()] over [updateNodeLinking] run one at a time. *)
Inductive Event : Type :=
| Received (addr : MacAddr) (data : list byte) (len : Z)
| SendOutcome (mac_addr : MacAddr) (sendStatus : Z)
| LoopPass (root : RootDir).

Definition handle (ev : Event) : M unit :=
  match ev with
  | Received addr data len => onDataReceived addr data len
  | SendOutcome mac_addr sendStatus => onDataSent mac_addr sendStatus
  | LoopPass root => updateNodeLinking root
  end.

Definition step (s : State) (ev : Event) : State := exec (handle ev) s.

Definition run (evs : list Event) (s : State) : State := fold_left step evs s.

End Firmware.

Arguments millis env : simpl never.
Arguments esp_now_send env f : simpl never.

(** A [char[32]] member holds a terminator. *)
Definition terminated (a : list byte) : Prop := existsb is_nul (char32 a) = true.

(** The identity key of a catalog entry: the characters its filename array
    holds (all 32 bytes when it holds no terminator) and its source node. *)
Definition file_key (f : SharedFile) : list byte * MacAddr :=
  (c_str (char32 (filename f)), sourceNode f).

(** Two entries have the same identity key. *)
Definition same_key (f g : SharedFile) : bool :=
  (strcmp (char32 (filename f)) (char32 (filename g)) =? 0)
  && (memcmp (mac_bytes (sourceNode f)) (mac_bytes (sourceNode g)) 6 =? 0).

(** Looking an address up in the registry, with the comparison of
    [onDataReceived], and a key up in the catalog. *)
Definition find_peer (addr : MacAddr) (ps : list PeerInfo) : option PeerInfo :=
  List.find (fun peer => memcmp (mac_bytes (mac peer)) (mac_bytes addr) 6 =? 0) ps.

Definition find_file (key : SharedFile) (fs : list SharedFile) : option SharedFile :=
  List.find (fun file => same_key file key) fs.

(** What [onDataReceived] leaves in the registry. *)
Definition upsert_peer (addr : MacAddr) (now : Z) (name : string) (ps : list PeerInfo)
  : list PeerInfo :=
  let (ps', peerFound) := update_peer addr now name ps in
  if peerFound then ps' else ps' ++ [{| mac := addr; lastSeen := now; ssid := name |}].

(** The upsert of the Catalog Store, as the specification has it: the first
    entry with the key of [r] is replaced by [r] where it stands; [r] is added
    at the end when no entry has its key. *)
Fixpoint replace_by_key (r : SharedFile) (fs : list SharedFile) : list SharedFile * bool :=
  match fs with
  | [] => ([], false)
  | file :: fs' =>
      if same_key file r
      then (r :: fs', true)
      else let (fs'', found) := replace_by_key r fs' in (file :: fs'', found)
  end.

Definition upsert_file (r : SharedFile) (fs : list SharedFile) : list SharedFile :=
  let (fs', found) := replace_by_key r fs in
  if found then fs' else fs' ++ [r].

(** What [onDataReceived] reads as the name of the sender and what it leaves
    in the catalog, with [behind] the memory behind the objects it reads. *)
Definition label_read (behind : CStringRead -> list byte) (data : list byte) : string :=
  String_of_chars
    (nodeSSID_memory (decode_SharedFile data) (slice 74 2 data ++ behind received_label)).

Definition merge_file (behind : CStringRead -> list byte) (data : list byte)
    (fs : list SharedFile) : list SharedFile :=
  let (fs', fileFound) :=
    update_file behind (slice 74 2 data) (decode_SharedFile data) 0 fs in
  if fileFound then fs' else fs' ++ [decode_SharedFile data].

(** The value of a hexadecimal digit. *)
Definition hex_value (c : ascii) : N :=
  match c with
  | "0" => 0 | "1" => 1 | "2" => 2 | "3" => 3 | "4" => 4 | "5" => 5 | "6" => 6 | "7" => 7
  | "8" => 8 | "9" => 9 | "A" => 10 | "B" => 11 | "C" => 12 | "D" => 13 | "E" => 14
  | _ => 15
  end%N%char.

(** A relation between the state before and after a computation that every
    run of the computation establishes. *)
Definition preserves (R : State -> State -> Prop) {A} (c : M A) : Prop :=
  forall s, R s (c s).2.

(** What the scheduler leaves alone. *)
Definition catalog_frame (s s' : State) : Prop :=
  peers s' = peers s /\ remoteFiles s' = remoteFiles s /\ lastBroadcast s' = lastBroadcast s.


(** A Hoare triple for the state monad. *)
Definition hoare {A} (P : State -> Prop) (c : M A) (Q : A -> State -> Prop) : Prop :=
  forall s, P s -> Q (c s).1 (c s).2.

(** The key under which [broadcastFiles] files the status of a ticket. *)
Definition ticket_key (t : SharedFile) : string := getMacString (sourceNode t).

(** Every queued ticket carries this node's own address as its source. *)
Definition tickets_local (env : Env) (s : State) : Prop :=
  forall t, t ∈ failedTransmissions s -> sourceNode t = WiFi_macAddress env.

(** Every record of [sendStatuses] satisfies [phi]. *)
Definition all_status (phi : string -> SendStatus -> Prop) (s : State) : Prop :=
  forall key st, sendStatuses s !! key = Some st -> phi key st.


(** No send failure has been counted. *)
Definition nothing_counted : State -> Prop :=
  all_status (fun _ st => retryCount st = 0).

(** The queue holds local tickets and every status record satisfies [phi]. *)
Definition queue_inv (env : Env) (phi : string -> SendStatus -> Prop) (s : State) : Prop :=
  tickets_local env s /\ all_status phi s.

(** The status filed under [key] has used up the retry budget. *)
Definition exhausted (s : State) (key : string) : Prop :=
  exists st, sendStatuses s !! key = Some st /\ MAX_RETRY <= retryCount st.


(** ** Concrete inputs used in the examples *)

Definition node_self : MacAddr := Mac x5c xcf x7f x12 x34 x56.
Definition node_A : MacAddr := Mac xaa xbb xcc xdd xee xff.
Definition node_B : MacAddr := Mac x02 x00 x00 x00 x00 x0b.

(** A platform whose clock reads 2000, 3000, 4000, ... and whose radio refuses
    every send. *)
Definition radio_down : Env :=
  {| WiFi_macAddress := node_self;
     AP_SSID := "PR0J3K7_B00KM4RK_42";
     millis_at := fun n => 2000 + 1000 * Z.of_nat n;
     esp_now_send_rc := fun _ => 1;
     memory_behind := fun _ _ => [] |}.

(** The record of scenario A, as advertised by [node_A], and its datagram. *)
Definition notes_record : SharedFile :=
  {| filename := list_byte_of_string "notes.txt";
     filesize := 1024;
     sourceNode := node_A;
     nodeSSID := list_byte_of_string "NODE_07" |}.

Definition notes_datagram : list byte := encode_SharedFile notes_record.

(** The same file advertised again with another size (scenario B). *)
Definition notes_grown : list byte :=
  encode_SharedFile
    {| filename := list_byte_of_string "notes.txt"; filesize := 2048;
       sourceNode := node_A; nodeSSID := list_byte_of_string "NODE_07" |}.

(** Twenty-one distinct sender addresses. *)
Definition crowd : list MacAddr :=
  map (fun n => Mac x02 x00 x00 x00 x00 (default x00 (Byte.of_N (N.of_nat n)))) (seq 1 21).

(** [node_A] is heard once and then stays silent over ten passes of the main
    loop, the last of them 10000 ms after its datagram. *)
Definition silent_peer_run : list Event :=
  Received node_A notes_datagram 76 :: replicate 10 (LoopPass None).

Definition peer_A : PeerInfo := {| mac := node_A; lastSeen := 2000; ssid := "NODE_07" |}.

(** A platform whose clock advances by 10 ms from one reading to the next. *)
Definition busy_air : Env :=
  {| WiFi_macAddress := node_self;
     AP_SSID := "PR0J3K7_B00KM4RK_42";
     millis_at := fun n => 2000 + 10 * Z.of_nat n;
     esp_now_send_rc := fun _ => 0;
     memory_behind := fun _ _ => [] |}.

(** One datagram from each address of the crowd, then a pass of the main loop
    with its sweep. *)
Definition crowd_run : list Event :=
  map (fun a => Received a notes_datagram 76) crowd ++ [LoopPass None].

(** What is on the stack where [broadcastFiles] puts its local record. *)
Definition stack_garbage : SharedFile :=
  {| filename := replicate 32 x55; filesize := 0; sourceNode := broadcastMac;
     nodeSSID := replicate 32 x55 |}.

(** A root directory with one book, and an empty one. *)
Definition one_book : RootDir := Some [({| file_name := "notes.txt"; file_size := 1024 |}, stack_garbage)].
Definition no_books : RootDir := Some [].

(** The record [broadcastFiles] builds for the book on [radio_down]. *)
Definition book_record : SharedFile :=
  local_record radio_down {| file_name := "notes.txt"; file_size := 1024 |} stack_garbage.

(** The book cannot be sent; the radio then reports three failures for this
    node's own address. *)
Definition budget_used_up : list Event :=
  LoopPass one_book :: replicate 3 (SendOutcome node_self 1).


(** Five more scheduler ticks with the radio still down, each followed by the
    failure callback for the broadcast address. *)
Definition five_failed_retries : list Event :=
  concat (replicate 5 [LoopPass no_books; SendOutcome broadcastMac 1]).

(** ** What a scheduler tick puts on the air *)

(** The records the directory loop of [broadcastFiles] builds: one for each
    entry with an allowed name, in directory order. *)
Definition advertised (env : Env) (files : list (DirEntry * SharedFile)) : list SharedFile :=
  map (fun e => local_record env e.1 e.2)
      (List.filter (fun e => isAllowedFile (file_name e.1)) files).

(** Of the records handed to [esp_now_send] from its [n]-th call on, those the
    radio refuses. *)
Fixpoint refused (env : Env) (n : nat) (recs : list SharedFile) : list SharedFile :=
  match recs with
  | [] => []
  | r :: recs' =>
      if esp_now_send_rc env n =? 0 then refused env (S n) recs'
      else r :: refused env (S n) recs'
  end.

(** A radio that accepts every send. *)
Definition radio_up (env : Env) : Prop := forall n, esp_now_send_rc env n = 0.

(** The shelf of [one_book]. *)
Definition book_shelf : list (DirEntry * SharedFile) :=
  [({| file_name := "notes.txt"; file_size := 1024 |}, stack_garbage)].

(** ** Records on the wire *)

(** A record as the structure holds it: both char arrays of 32 bytes, the
    size a [size_t]. *)
Definition record_wf (f : SharedFile) : Prop :=
  length (filename f) = 32%nat /\ length (nodeSSID f) = 32%nat
  /\ 0 <= filesize f < Word.modulus.

(** A [String] without a NUL character inside. *)
Definition no_nul (str : string) : Prop :=
  Forall (fun b => is_nul b = false) (list_byte_of_string str).

(** ** The name of the access point *)

(** [String(n)] for a number: its decimal digits, with a sign when negative. *)
Definition String_of_int (n : Z) : string := NilZero.string_of_int (Z.to_int n).

Definition AP_SSID_BASE : string := "PR0J3K7_B00KM4RK_".

(** The name [setup] (and [setupWiFiAP]) gives the access point, from the
    number [random(0, 100)] returns. *)
Definition generate_SSID (randomNum : Z) : string :=
  AP_SSID_BASE ++ (if randomNum <? 10 then "0" else "") ++ String_of_int randomNum.

(** The extensions [isAllowedFile] lets through, in lower case. *)
Definition allowed_extensions : list string :=
  [".pdf"; ".epub"; ".doc"; ".rtf"; ".txt"]%string.

(** * The web side and start-up *)

(** ** [isIp], [toStringIp], [captivePortal] *)

(** [String(n)] for an unsigned number. *)
Definition String_of_uint (n : Z) : string :=
  NilZero.string_of_uint (N.to_uint (Z.to_N n)).

Fixpoint isIp (str : string) : bool :=
  match str with
  | EmptyString => true
  | String c rest =>
      if negb (Ascii.eqb c ".") && ((nat_of_ascii c <? 48)%nat || (57 <? nat_of_ascii c)%nat)
      then false
      else isIp rest
  end.

(** The 32-bit value of an [IPAddress]: the first octet is the low byte. *)
Definition IPAddress (a b c d : Z) : Z := a + 256 * b + 65536 * c + 16777216 * d.

Definition apIP : Z := IPAddress 192 168 4 1.

Definition toStringIp (ip : Z) : string :=
  let res :=
    fold_left (fun res i =>
                 String.append res
                   (String.append (String_of_uint (Z.land (Z.shiftr ip (8 * i)) 255)) "."))
              [0; 1; 2] EmptyString in
  String.append res (String_of_uint (Z.land (Z.shiftr ip (8 * 3)) 255)).

(** What a handler asks of the web server. *)
Inductive ServerCall : Type :=
| sendHeader (name value : string) (first : bool)
| send (code : Z) (content_type content : string)
| streamFile (content : list byte) (contentType : string).

(** [captivePortal]: the calls it makes and the value it returns, from the
    [Host] header of the request. *)
Definition captivePortal (hostHeader : string) : list ServerCall * bool :=
  if negb (isIp hostHeader) then
    ([sendHeader "Location" (String.append "http://" (toStringIp apIP)) true;
      send 302 "text/plain" ""], true)
  else ([], false).

(** ** [formatTimestamp] *)

Definition formatTimestamp (env : Env) (timestamp : Z) : M string :=
  do now <- millis env;
  let timeDiff := Word.usub now timestamp in
  ret (if timeDiff <? 60000 then String.append (String_of_uint (timeDiff / 1000)) "s ago"
       else if timeDiff <? 3600000 then String.append (String_of_uint (timeDiff / 60000)) "m ago"
       else if timeDiff <? 86400000 then String.append (String_of_uint (timeDiff / 3600000)) "h ago"
       else String.append (String_of_uint (timeDiff / 86400000)) "d ago").

(** ** The forum clean-up timer *)

Definition CLEANUP_INTERVAL : Z := 3600000.

(** [checkAndCleanupForum], from the clock reading of the pass and
    [lastCleanupTime]: whether [cleanupForum] is called, and [lastCleanupTime]
    afterwards.  What [cleanupForum] does to the card is not modelled. *)
Definition checkAndCleanupForum (currentTime lastCleanupTime : Z) : bool * Z :=
  if (CLEANUP_INTERVAL <=? Word.usub currentTime lastCleanupTime)
     || (currentTime <? lastCleanupTime)
  then (true, currentTime)
  else (false, lastCleanupTime).

(** The passes of [loop()] over [checkAndCleanupForum], from the clock readings
    of the passes: the readings at which the forum was cleaned. *)
Fixpoint cleanup_passes (readings : list Z) (lastCleanupTime : Z) : list Z :=
  match readings with
  | [] => []
  | currentTime :: rest =>
      let (cleaned, last) := checkAndCleanupForum currentTime lastCleanupTime in
      if cleaned then currentTime :: cleanup_passes rest last
      else cleanup_passes rest last
  end.

(** The countdown of [handleForum]: [minutesLeft], [secondsLeft] and the text
    put on the page for them. *)
Definition forum_countdown (now lastCleanupTime : Z) : Z * Z * string :=
  let timeLeft := Word.usub CLEANUP_INTERVAL (Word.usub now lastCleanupTime) in
  let minutesLeft := (timeLeft mod 3600000) / 60000 in
  let secondsLeft := (timeLeft mod 3600000) / 600000 in
  (minutesLeft, secondsLeft,
   String.append (String_of_int minutesLeft)
     (String.append "m " (String.append (String_of_int secondsLeft) "s ]"))).

(** ** [handleFileDownload] *)

(** The content type chosen from the name, by its extension as written. *)
Definition download_contentType (fileName : string) : string :=
  if endsWith fileName ".pdf" then "application/pdf"
  else if endsWith fileName ".epub" then "application/epub+zip"
  else if endsWith fileName ".doc" then "application/msword"
  else if endsWith fileName ".rtf" then "application/rtf"
  else if endsWith fileName ".txt" then "text/plain"
  else "application/octet-stream".

(** [handleFileDownload], from the [file] argument of the request (if any),
    the answer of [SD.exists] and the file [SD.open] returns ([None] for a
    file that cannot be opened). *)
Definition handleFileDownload (file_arg : option string) (sd_exists : bool)
    (sd_open : option (list byte)) : list ServerCall :=
  match file_arg with
  | None => [send 400 "text/plain" "File parameter missing"]
  | Some fileName =>
      if negb (isAllowedFile fileName) then
        [send 400 "text/plain"
              "Invalid file type. Only PDF, EPUB, DOC, RTF, and TXT files are allowed."]
      else if negb sd_exists then [send 404 "text/plain" "File not found"]
      else match sd_open with
           | None => [send 500 "text/plain" "Failed to open file"]
           | Some file =>
               [sendHeader "Content-Disposition"
                           (String.append "attachment; filename=" fileName) false;
                sendHeader "Connection" "close" false;
                streamFile file (download_contentType fileName)]
           end
  end.

(** ** [handleFileUpload] *)

Inductive HTTPUploadStatus : Type :=
| UPLOAD_FILE_START | UPLOAD_FILE_WRITE | UPLOAD_FILE_END | UPLOAD_FILE_ABORTED.

Record HTTPUpload : Type := mkUpload {
  upload_status : HTTPUploadStatus;
  upload_filename : string;
  upload_buf : list byte;
  upload_currentSize : nat
}.

(** What the handler asks of the card. *)
Inductive SdCall : Type :=
| sd_open_write (path : string) (opened : bool)
| sd_write (path : string) (data : list byte)
| sd_close (path : string).

(** The global [uploadFile] (the path of the file it has open, if any; a
    [File] that failed to open or has been closed tests false) and the calls
    made to the card so far. *)
Record UploadState : Type := mkUploadState {
  uploadFile : option string;
  sd_calls : list SdCall
}.

(** [handleFileUpload], from the URI of the request, the upload record of the
    server and the outcome of [SD.open] should it be called. *)
Definition handleFileUpload (uri : string) (upload : HTTPUpload) (open_ok : bool)
    (st : UploadState) : UploadState :=
  if negb (String.eqb uri "/upload") then st
  else match upload_status upload with
       | UPLOAD_FILE_START =>
           let filename := upload_filename upload in
           if negb (isAllowedFile filename) then st
           else {| uploadFile := if open_ok then Some filename else None;
                   sd_calls := sd_calls st ++ [sd_open_write filename open_ok] |}
       | UPLOAD_FILE_WRITE =>
           match uploadFile st with
           | Some path =>
               {| uploadFile := Some path;
                  sd_calls := sd_calls st
                              ++ [sd_write path (take (upload_currentSize upload)
                                                      (upload_buf upload))] |}
           | None => st
           end
       | UPLOAD_FILE_END =>
           match uploadFile st with
           | Some path => {| uploadFile := None; sd_calls := sd_calls st ++ [sd_close path] |}
           | None => st
           end
       | UPLOAD_FILE_ABORTED => st
       end.

(** A run of the handler over the calls the server makes to it. *)
Definition uploads (reqs : list (string * HTTPUpload * bool)) (st : UploadState)
  : UploadState :=
  fold_left (fun st req => handleFileUpload req.1.1 req.1.2 req.2 st) reqs st.

(** ** [initializeESPNow] *)

(** The loop around [esp_now_init()]: [rc] gives the return code of each call,
    [calls] counts the calls made.  The result tells whether a call returned 0
    and how many calls were made. *)
Unset Equations With Funext.

Equations esp_now_init_loop (rc : nat -> Z) (initRetry calls : nat) : bool * nat
  by wf (5 - initRetry)%nat lt :=
  esp_now_init_loop rc initRetry calls with (rc calls =? 0) := {
    | true => (true, S calls)
    | false with le_lt_dec 5 (S initRetry) := {
        | left _ => (false, S calls)
        | right _ => esp_now_init_loop rc (S initRetry) (S calls) } }.
Next Obligation. change (5 - S initRetry < 5 - initRetry)%nat. lia. Qed.

(** What [initializeESPNow] has set up when it returns. *)
Record EspNowSetup : Type := mkEspNowSetup {
  init_calls : nat;
  self_role_set : bool;
  recv_cb_registered : bool;
  send_cb_registered : bool;
  esp_peers : list MacAddr
}.

(** [addPeer], from the peer list of ESP-NOW and the return code of
    [esp_now_add_peer] should it be called. *)
Definition addPeer (addr : MacAddr) (add_rc : Z) (known : list MacAddr)
  : bool * list MacAddr :=
  if existsb (fun k => memcmp (mac_bytes k) (mac_bytes addr) 6 =? 0) known then (true, known)
  else if negb (add_rc =? 0) then (false, known)
  else (true, known ++ [addr]).

Definition initializeESPNow (rc : nat -> Z) (add_rc : Z) : EspNowSetup :=
  let (ok, calls) := esp_now_init_loop rc 0 0 in
  if ok then
    {| init_calls := calls; self_role_set := true;
       recv_cb_registered := true; send_cb_registered := true;
       esp_peers := (addPeer broadcastMac add_rc []).2 |}
  else
    {| init_calls := calls; self_role_set := false;
       recv_cb_registered := false; send_cb_registered := false; esp_peers := [] |}.

(** ** The file list of [handleNodeFiles] *)

Definition toupper (c : ascii) : ascii :=
  let n := nat_of_ascii c in
  if ((97 <=? n) && (n <=? 122))%nat then ascii_of_nat (n - 32) else c.

(** [str.charAt(0)]: NUL for the empty string. *)
Definition charAt0 (str : string) : ascii :=
  match str with
  | String c _ => c
  | EmptyString => zero
  end.

(** [files[firstLetter].push_back({fileName, size})]. *)
Definition file_bucket_push (firstLetter : ascii) (entry : string * Z)
    (files : gmap ascii (list (string * Z))) : gmap ascii (list (string * Z)) :=
  <[firstLetter := default [] (files !! firstLetter) ++ [entry]]> files.

(** [String(remoteFile.nodeSSID)] and [String(remoteFile.filename)] for the
    element [e.2] at position [e.1] of [remoteFiles]. *)
Definition stored_label_read (behind : CStringRead -> list byte) (e : nat * SharedFile)
  : string :=
  String_of_chars (nodeSSID_memory e.2 (behind (stored_label e.1))).

Definition stored_name_read (behind : CStringRead -> list byte) (e : nat * SharedFile)
  : string :=
  String_of_chars (filename_memory e.2 (behind (stored_name e.1))).

(** The map [files] that [handleNodeFiles] builds: from the root directory of
    the card for this node's own name, from the catalog for any other, where
    [behind] is the memory behind the elements of [remoteFiles]. *)
Definition handleNodeFiles_files (env : Env) (behind : CStringRead -> list byte)
    (node_arg : string) (root : option (list DirEntry)) (catalog : list SharedFile)
  : gmap ascii (list (string * Z)) :=
  if String.eqb node_arg (AP_SSID env) then
    match root with
    | Some dir =>
        fold_left (fun files file =>
                     let fileName := file_name file in
                     if isAllowedFile fileName
                     then file_bucket_push (toupper (charAt0 fileName))
                                           (fileName, Word.u32 (file_size file)) files
                     else files)
                  dir ∅
    | None => ∅
    end
  else
    fold_left (fun files remoteFile =>
                 if String.eqb (stored_label_read behind remoteFile) node_arg then
                   let fileName := stored_name_read behind remoteFile in
                   if isAllowedFile fileName
                   then file_bucket_push (toupper (charAt0 fileName))
                                         (fileName, filesize remoteFile.2) files
                   else files
                 else files)
              (imap pair catalog) ∅.

(** ** Vocabulary of the statements about the web side *)

(** The characters [isIp] lets through. *)
Definition ip_char (c : ascii) : Prop :=
  c = "."%char \/ (48 <= nat_of_ascii c <= 57)%nat.

(** Successive cleaning times, each at least [CLEANUP_INTERVAL] after the one
    before, the first after [last]. *)
Fixpoint spaced (last : Z) (times : list Z) : Prop :=
  match times with
  | [] => True
  | t :: rest => last + CLEANUP_INTERVAL <= t /\ spaced t rest
  end.

(** Clock readings that never go back. *)
Fixpoint ascending (last : Z) (readings : list Z) : Prop :=
  match readings with
  | [] => True
  | t :: rest => last <= t /\ ascending t rest
  end.

(** No upload in progress, nothing asked of the card yet. *)
Definition upload_idle : UploadState := {| uploadFile := None; sd_calls := [] |}.

Definition sd_path (call : SdCall) : string :=
  match call with
  | sd_open_write path _ => path
  | sd_write path _ => path
  | sd_close path => path
  end.

Definition upload_start (filename : string) : HTTPUpload :=
  {| upload_status := UPLOAD_FILE_START; upload_filename := filename;
     upload_buf := []; upload_currentSize := 0 |}.

Definition upload_write (filename : string) (chunk : list byte) : HTTPUpload :=
  {| upload_status := UPLOAD_FILE_WRITE; upload_filename := filename;
     upload_buf := chunk; upload_currentSize := length chunk |}.

Definition upload_end (filename : string) : HTTPUpload :=
  {| upload_status := UPLOAD_FILE_END; upload_filename := filename;
     upload_buf := []; upload_currentSize := 0 |}.

Definition upload_aborted (filename : string) : HTTPUpload :=
  {| upload_status := UPLOAD_FILE_ABORTED; upload_filename := filename;
     upload_buf := []; upload_currentSize := 0 |}.

(** The calls the server makes for one complete upload of [chunks] under
    [filename]. *)
Definition whole_upload (filename : string) (chunks : list (list byte)) (open_ok : bool)
  : list (string * HTTPUpload * bool) :=
  [("/upload"%string, upload_start filename, open_ok)]
  ++ List.map (fun chunk => ("/upload"%string, upload_write filename chunk, open_ok)) chunks
  ++ [("/upload"%string, upload_end filename, open_ok)].

Definition time_units : list (string * Z * Z) :=
  [("s ago"%string, 1000, 60); ("m ago"%string, 60000, 60);
   ("h ago"%string, 3600000, 24); ("d ago"%string, 86400000, 50)].

(** The content type [handleFileDownload] has for each extension. *)
Definition content_types : list (string * string) :=
  [(".pdf", "application/pdf"); (".epub", "application/epub+zip");
   (".doc", "application/msword"); (".rtf", "application/rtf");
   (".txt", "text/plain")]%string.

(** What holds of the upload state whatever the server has sent so far. *)
Definition upload_inv (st : UploadState) : Prop :=
  (forall path, uploadFile st = Some path ->
     exists j, sd_calls st !! j = Some (sd_open_write path true))
  /\ (forall (i : nat) call, sd_calls st !! i = Some call ->
        isAllowedFile (sd_path call) = true
        /\ match call with
           | sd_open_write _ _ => True
           | sd_write path _ | sd_close path =>
               exists j, (j < i)%nat /\ sd_calls st !! j = Some (sd_open_write path true)
           end).


(** No letter is filed with an empty list. *)
Definition buckets_inhabited (files : gmap ascii (list (string * Z))) : Prop :=
  forall L l, files !! L = Some l -> l <> [].


(** A second node, with another address and another access-point name, whose
    radio accepts every send. *)
Definition reading_room : Env :=
  {| WiFi_macAddress := node_B;
     AP_SSID := "PR0J3K7_B00KM4RK_07";
     millis_at := fun n => 2000 + 10 * Z.of_nat n;
     esp_now_send_rc := fun _ => 0;
     memory_behind := fun _ _ => [] |}.

(** A radio that refuses every send. *)
Definition radio_refuses (env : Env) : Prop := forall n, esp_now_send_rc env n <> 0.

(** ** Records without a terminator *)

(** A file name of 41 characters. *)
Definition long_name : string := "twenty_thousand_leagues_under_the_sea.txt".

(** The datagram [radio_down] sends for that file when it is [size] bytes
    long: [strncpy] has written the first 31 characters of the name and left
    the 32nd byte of the array as the stack had it. *)
Definition long_name_datagram (size : Z) : list byte :=
  encode_SharedFile
    (local_record radio_down {| file_name := long_name; file_size := size |} stack_garbage).

(** A datagram whose label fills its array with 32 letters, followed by two
    more letters in the padding bytes. *)
Definition loud_label_datagram : list byte :=
  take 74 (encode_SharedFile
             {| filename := list_byte_of_string "notes.txt"; filesize := 1024;
                sourceNode := node_A; nodeSSID := replicate 32 x53 |})
  ++ [x58; x59].



(** A datagram whose filename array holds 32 letters, whose size has the four
    bytes of [.txt] and whose source address starts with a zero byte: read as a
    C string, its name is the 32 letters followed by [.txt]. *)
Definition run_on_name_datagram : list byte :=
  encode_SharedFile
    {| filename := replicate 32 x41; filesize := 1954051118;
       sourceNode := Mac x00 x1a x2b x3c x4d x5e;
       nodeSSID := list_byte_of_string "PR0J3K7_B00KM4RK_42" |}.


(** Every datagram of the size of the record among the events carries a
    terminated filename. *)
Definition names_terminated (evs : list Event) : Prop :=
  forall addr data,
    Received addr data sizeof_SharedFile ∈ evs ->
    terminated (filename (decode_SharedFile data)).

(** * Properties *)

(** ** Machine integers *)

Module WordFacts.

Import Word.

Lemma u32_range z : 0 <= u32 z < modulus.
Proof. unfold u32, modulus. apply Z.mod_pos_bound. lia. Qed.

Lemma u32_small z : 0 <= z < modulus -> u32 z = z.
Proof. intros H. unfold u32. apply Z.mod_small. exact H. Qed.

Lemma usub_exact now t : 0 <= t <= now -> now < modulus -> usub now t = now - t.
Proof. intros H1 H2. unfold usub. apply u32_small. lia. Qed.

Lemma s32_small z : - 2 ^ 31 <= z < 2 ^ 31 -> s32 z = z.
Proof.
  intros H. unfold s32, modulus. rewrite Z.mod_small; lia.
Qed.

End WordFacts.

(** ** C strings and byte arrays *)

Lemma byteZ_inj a b : byteZ a = byteZ b -> a = b.
Proof.
  unfold byteZ. intros H. apply N2Z.inj in H.
  assert (E : Byte.of_N (Byte.to_N a) = Byte.of_N (Byte.to_N b)) by (rewrite H; reflexivity).
  rewrite !Byte.of_to_N in E. congruence.
Qed.

Lemma byteZ_eqb_iff a b : (byteZ a =? byteZ b) = true <-> a = b.
Proof.
  rewrite Z.eqb_eq. split; [apply byteZ_inj | intros ->; reflexivity].
Qed.

Lemma strcmp_refl a : strcmp a a = 0.
Proof.
  induction a as [|x a IH]; simpl; [reflexivity|].
  rewrite Z.eqb_refl. destruct (is_nul x); [reflexivity | exact IH].
Qed.

Lemma strcmp_zero_iff a b : strcmp a b = 0 <-> c_str a = c_str b.
Proof.
  revert b. induction a as [|x a IH]; intros [|y b]; simpl.
  - tauto.
  - unfold is_nul. destruct (byteZ y =? 0) eqn:E.
    + apply Z.eqb_eq in E. split; [reflexivity | lia].
    + apply Z.eqb_neq in E. split; [lia | discriminate].
  - unfold is_nul. destruct (byteZ x =? 0) eqn:E.
    + apply Z.eqb_eq in E. split; [reflexivity | lia].
    + apply Z.eqb_neq in E. split; [lia | discriminate].
  - destruct (byteZ x =? byteZ y) eqn:E.
    + apply byteZ_eqb_iff in E. subst y.
      destruct (is_nul x); [tauto|].
      rewrite IH. split; [intros ->; reflexivity | intros H; injection H; auto].
    + apply Z.eqb_neq in E. split; [lia|].
      unfold is_nul. intros H.
      destruct (byteZ x =? 0) eqn:Ex, (byteZ y =? 0) eqn:Ey; try discriminate.
      * apply Z.eqb_eq in Ex, Ey. lia.
      * injection H. intros _ ->. lia.
Qed.

(** ** Facts about keys *)

Lemma memcmp_mac_iff (a b : MacAddr) :
  memcmp (mac_bytes a) (mac_bytes b) 6 = 0 <-> a = b.
Proof.
  destruct a as [a0 a1 a2 a3 a4 a5], b as [b0 b1 b2 b3 b4 b5].
  unfold mac_bytes; simpl. split.
  - repeat match goal with
           | |- context [byteZ ?x =? byteZ ?y] =>
               let E := fresh "E" in
               destruct (byteZ x =? byteZ y) eqn:E;
               [apply byteZ_eqb_iff in E; subst | apply Z.eqb_neq in E; intros; lia]
           end.
    reflexivity.
  - intros [= -> -> -> -> -> ->]. rewrite !Z.eqb_refl. reflexivity.
Qed.

Lemma memcmp_mac_eqb (a b : MacAddr) :
  (memcmp (mac_bytes a) (mac_bytes b) 6 =? 0) = true <-> a = b.
Proof. rewrite Z.eqb_eq. apply memcmp_mac_iff. Qed.

Arguments memcmp : simpl never.
Arguments strcmp : simpl never.

Lemma same_key_iff f g : same_key f g = true <-> file_key f = file_key g.
Proof.
  unfold same_key, file_key. rewrite andb_true_iff, Z.eqb_eq, memcmp_mac_eqb, strcmp_zero_iff.
  split; [intros [-> ->]; reflexivity | intros [= -> ->]; split; reflexivity].
Qed.

Lemma same_key_refl f : same_key f f = true.
Proof. apply same_key_iff. reflexivity. Qed.

Lemma same_key_false f g : same_key f g = false <-> file_key f <> file_key g.
Proof.
  rewrite <- same_key_iff. destruct (same_key f g); split; congruence.
Qed.

(** *** The two update loops *)

Lemma update_peer_found addr now name ps :
  (update_peer addr now name ps).2 = true <-> is_Some (find_peer addr ps).
Proof.
  unfold find_peer. induction ps as [|p ps IH]; simpl.
  - split; [discriminate | intros [? [=]]].
  - destruct (memcmp _ _ 6 =? 0); simpl; [split; eauto|].
    destruct (update_peer addr now name ps) as [ps' b]. exact IH.
Qed.

Lemma update_peer_length addr now name ps :
  length (update_peer addr now name ps).1 = length ps.
Proof.
  unfold find_peer. induction ps as [|p ps IH]; simpl; [reflexivity|].
  destruct (memcmp _ _ 6 =? 0); simpl; [reflexivity|].
  destruct (update_peer addr now name ps) as [ps' b]. simpl in *. congruence.
Qed.

Lemma update_peer_miss addr now name ps :
  find_peer addr ps = None -> (update_peer addr now name ps).1 = ps.
Proof.
  unfold find_peer. induction ps as [|p ps IH]; simpl; [reflexivity|].
  destruct (memcmp _ _ 6 =? 0); [discriminate|].
  intros H. destruct (update_peer addr now name ps) as [ps' b]. simpl in *.
  rewrite IH by exact H. reflexivity.
Qed.

Lemma update_peer_hit addr now name ps :
  is_Some (find_peer addr ps) ->
  find_peer addr (update_peer addr now name ps).1
  = Some {| mac := addr; lastSeen := now; ssid := name |}.
Proof.
  unfold find_peer. induction ps as [|p ps IH]; simpl; [intros [? [=]]|].
  destruct (memcmp _ _ 6 =? 0) eqn:E.
  - intros _. simpl. rewrite E. apply memcmp_mac_eqb in E. rewrite E. reflexivity.
  - intros H. destruct (update_peer addr now name ps) as [ps' b]. simpl in *.
    rewrite E. auto.
Qed.

Lemma update_peer_other addr now name ps a :
  a <> addr -> find_peer a (update_peer addr now name ps).1 = find_peer a ps.
Proof.
  unfold find_peer. intros Hne. induction ps as [|p ps IH]; simpl; [reflexivity|].
  destruct (memcmp (mac_bytes (mac p)) (mac_bytes addr) 6 =? 0) eqn:E; simpl.
  - apply memcmp_mac_eqb in E.
    destruct (memcmp (mac_bytes (mac p)) (mac_bytes a) 6 =? 0) eqn:E'; [|reflexivity].
    apply memcmp_mac_eqb in E'. congruence.
  - destruct (update_peer addr now name ps) as [ps' b]. simpl in *.
    rewrite IH. reflexivity.
Qed.

Lemma find_peer_app_miss a ps p :
  find_peer a ps = None -> find_peer a (ps ++ [p]) = find_peer a [p].
Proof.
  unfold find_peer. induction ps as [|q ps IH]; simpl; [reflexivity|].
  destruct (memcmp _ _ 6 =? 0); [discriminate | exact IH].
Qed.

Lemma find_peer_app_other a ps p :
  a <> mac p -> find_peer a (ps ++ [p]) = find_peer a ps.
Proof.
  unfold find_peer. intros Hne. induction ps as [|q ps IH]; simpl.
  - destruct (memcmp _ _ 6 =? 0) eqn:E; [|reflexivity].
    apply memcmp_mac_eqb in E. congruence.
  - destruct (memcmp _ _ 6 =? 0); [reflexivity | exact IH].
Qed.

Lemma replace_by_key_found r fs :
  (replace_by_key r fs).2 = true <-> file_key r ∈ map file_key fs.
Proof.
  induction fs as [|f fs IH]; simpl.
  - split; [discriminate | intros H; inversion H].
  - destruct (same_key f r) eqn:E; simpl.
    + apply same_key_iff in E. rewrite E. split; [intros _; left | reflexivity].
    + apply same_key_false in E.
      destruct (replace_by_key r fs) as [fs' b]. simpl in *. rewrite IH.
      rewrite elem_of_cons. split; [auto | intros [H|H]; congruence].
Qed.

Lemma replace_by_key_miss r fs :
  (replace_by_key r fs).2 = false -> (replace_by_key r fs).1 = fs.
Proof.
  induction fs as [|f fs IH]; simpl; [reflexivity|].
  destruct (same_key f r); simpl; [discriminate|].
  destruct (replace_by_key r fs) as [fs' b]. simpl in *. intros H. rewrite IH by exact H.
  reflexivity.
Qed.

Lemma replace_by_key_length r fs : length (replace_by_key r fs).1 = length fs.
Proof.
  induction fs as [|f fs IH]; simpl; [reflexivity|].
  destruct (same_key f r); simpl; [reflexivity|].
  destruct (replace_by_key r fs) as [fs' b]. simpl in *. congruence.
Qed.

Lemma replace_by_key_keys r fs :
  (replace_by_key r fs).2 = true -> map file_key (replace_by_key r fs).1 = map file_key fs.
Proof.
  induction fs as [|f fs IH]; simpl; [discriminate|].
  destruct (same_key f r) eqn:E; simpl.
  - apply same_key_iff in E. rewrite E. reflexivity.
  - destruct (replace_by_key r fs) as [fs' b]. simpl in *. intros H. rewrite IH by exact H.
    reflexivity.
Qed.

(** The entry overwritten is the first one with the key of the record. *)
Lemma replace_by_key_at r fs i f :
  fs !! i = Some f -> same_key f r = true ->
  (forall j g, (j < i)%nat -> fs !! j = Some g -> same_key g r = false) ->
  replace_by_key r fs = (<[i:=r]> fs, true).
Proof.
  revert i. induction fs as [|h fs IH]; intros i Hi Hf Hfirst; [discriminate|].
  destruct i as [|i]; simpl in *.
  - injection Hi as ->. rewrite Hf. reflexivity.
  - rewrite (Hfirst 0%nat h) by (reflexivity || lia).
    rewrite (IH i Hi Hf); [reflexivity|].
    intros j g Hj Hg. apply (Hfirst (S j) g); [lia | exact Hg].
Qed.

(** *** C strings that leave their array *)

Lemma char32_length a : length (char32 a) = 32%nat.
Proof.
  unfold char32. rewrite length_take, length_app, length_replicate. lia.
Qed.

Lemma c_str_app a rest :
  c_str (a ++ rest) = if existsb is_nul a then c_str a else a ++ c_str rest.
Proof.
  induction a as [|x a IH]; cbn [app c_str existsb]; [reflexivity|].
  destruct (is_nul x); cbn [orb]; [reflexivity|].
  rewrite IH. destruct (existsb is_nul a); reflexivity.
Qed.

Lemma c_str_nul_shorter a : existsb is_nul a = true -> (length (c_str a) < length a)%nat.
Proof.
  induction a as [|x a IH]; cbn [c_str existsb length]; [discriminate|].
  destruct (is_nul x); cbn [orb length]; [lia|]. intros H. specialize (IH H). lia.
Qed.

Lemma c_str_no_nul_all a : existsb is_nul a = false -> c_str a = a.
Proof.
  induction a as [|x a IH]; cbn [c_str existsb]; [reflexivity|].
  destruct (is_nul x); cbn [orb]; [discriminate|]. intros H. rewrite IH by exact H. reflexivity.
Qed.

Lemma c_str_padded a : forall n m rest,
  existsb is_nul (take n (a ++ replicate m x00)) = true ->
  c_str (take n (a ++ replicate m x00) ++ rest) = c_str a.
Proof.
  induction a as [|x a IH]; intros n m rest.
  - destruct n as [|n], m as [|m]; cbn [app replicate take existsb c_str];
      try discriminate.
    change (is_nul x00) with true. reflexivity.
  - destruct n as [|n]; cbn [app take existsb c_str]; [discriminate|].
    destruct (is_nul x); cbn [orb]; [reflexivity|].
    intros H. rewrite (IH n m rest H). reflexivity.
Qed.

(** The characters of a terminated array are those of the C string read at
    it, whatever follows the array. *)
Lemma c_str_terminated a rest : terminated a -> c_str (char32 a ++ rest) = c_str a.
Proof. unfold terminated, char32. apply c_str_padded. Qed.

Lemma existsb_nul_padded a : forall n m,
  (length (c_str a) < n)%nat -> (0 < m)%nat ->
  existsb is_nul (take n (a ++ replicate m x00)) = true.
Proof.
  induction a as [|x a IH]; intros n m Hn Hm.
  - destruct n as [|n], m as [|m]; try lia. reflexivity.
  - cbn [c_str] in Hn. destruct n as [|n]; [lia|]. cbn [app take existsb].
    destruct (is_nul x); cbn [orb]; [reflexivity|].
    cbn [length] in Hn. apply IH; lia.
Qed.

(** An array whose characters stop before its end is terminated. *)
Lemma terminated_short a : (length (c_str a) < 32)%nat -> terminated a.
Proof. intros H. unfold terminated, char32. apply existsb_nul_padded; lia. Qed.

(** The string read at an array that holds no terminator starts with the 32
    bytes of the array. *)
Lemma c_str_run_on a rest :
  existsb is_nul (char32 a) = false -> c_str (char32 a ++ rest) = char32 a ++ c_str rest.
Proof. intros H. rewrite c_str_app, H. reflexivity. Qed.

(** Names that [strcmp] finds equal have the same 32 bytes up to the first
    terminator. *)
Lemma strcmp_memory_key a b rest_a rest_b :
  strcmp (char32 a ++ rest_a) (char32 b ++ rest_b) = 0 ->
  c_str (char32 a) = c_str (char32 b).
Proof.
  rewrite strcmp_zero_iff, !c_str_app. intros H.
  pose proof (char32_length a) as La. pose proof (char32_length b) as Lb.
  destruct (existsb is_nul (char32 a)) eqn:Ea, (existsb is_nul (char32 b)) eqn:Eb.
  - exact H.
  - exfalso. apply c_str_nul_shorter in Ea. apply (f_equal length) in H.
    rewrite length_app in H. lia.
  - exfalso. apply c_str_nul_shorter in Eb. apply (f_equal length) in H.
    rewrite length_app in H. lia.
  - rewrite (c_str_no_nul_all _ Ea), (c_str_no_nul_all _ Eb).
    apply (f_equal (take 32)) in H.
    rewrite !take_app_length' in H by (symmetry; assumption). exact H.
Qed.

(** Against a received name that is terminated, the test of the loop is the
    comparison of keys. *)
Lemma strcmp_memory_terminated a b rest_a rest_b :
  terminated b ->
  (strcmp (char32 a ++ rest_a) (char32 b ++ rest_b) =? 0)
  = (strcmp (char32 a) (char32 b) =? 0).
Proof.
  intros Hb. unfold terminated in Hb.
  destruct (strcmp (char32 a) (char32 b) =? 0) eqn:E.
  - apply Z.eqb_eq in E. apply Z.eqb_eq. apply strcmp_zero_iff in E. apply strcmp_zero_iff.
    rewrite !c_str_app, Hb.
    destruct (existsb is_nul (char32 a)) eqn:Ea; [exact E|].
    exfalso. rewrite (c_str_no_nul_all _ Ea) in E. apply c_str_nul_shorter in Hb.
    apply (f_equal length) in E. rewrite char32_length in *. lia.
  - apply Z.eqb_neq in E. apply Z.eqb_neq. intros H. apply E.
    apply strcmp_zero_iff. exact (strcmp_memory_key a b rest_a rest_b H).
Qed.

Lemma same_file_terminated file behind_file r behind_r :
  terminated (filename r) -> same_file file behind_file r behind_r = same_key file r.
Proof.
  intros Hr. unfold same_file, same_key, filename_memory.
  rewrite strcmp_memory_terminated by exact Hr. reflexivity.
Qed.

Lemma same_file_key file behind_file r behind_r :
  same_file file behind_file r behind_r = true -> file_key file = file_key r.
Proof.
  unfold same_file, file_key, filename_memory. rewrite andb_true_iff, !Z.eqb_eq.
  intros [Hn Hm]. apply memcmp_mac_iff in Hm. apply strcmp_memory_key in Hn.
  rewrite Hn, Hm. reflexivity.
Qed.

Lemma update_file_terminated behind padding r fs : forall i,
  terminated (filename r) -> update_file behind padding r i fs = replace_by_key r fs.
Proof.
  induction fs as [|file fs IH]; intros i Hr; cbn [update_file replace_by_key]; [reflexivity|].
  rewrite same_file_terminated by exact Hr. rewrite IH by exact Hr. reflexivity.
Qed.

Lemma merge_file_terminated behind data fs :
  terminated (filename (decode_SharedFile data)) ->
  merge_file behind data fs = upsert_file (decode_SharedFile data) fs.
Proof.
  intros Hr. unfold merge_file, upsert_file. rewrite update_file_terminated by exact Hr.
  reflexivity.
Qed.

Lemma label_read_terminated behind data :
  terminated (nodeSSID (decode_SharedFile data)) ->
  label_read behind data = String_of_chars (nodeSSID (decode_SharedFile data)).
Proof.
  intros Hr. unfold label_read, String_of_chars, nodeSSID_memory.
  rewrite c_str_terminated by exact Hr. reflexivity.
Qed.

(** Whatever the memory holds, the loop overwrites only an entry with the key
    of the record, and nothing is removed. *)
Lemma update_file_keys behind padding r fs : forall i,
  (update_file behind padding r i fs).2 = true ->
  map file_key (update_file behind padding r i fs).1 = map file_key fs.
Proof.
  induction fs as [|f fs IH]; intros i; cbn [update_file]; [discriminate|].
  destruct (same_file f _ r _) eqn:E; cbn [fst snd map].
  - apply same_file_key in E. rewrite E. reflexivity.
  - specialize (IH (S i)). destruct (update_file behind padding r (S i) fs) as [fs' b].
    cbn [fst snd map] in *. intros H. rewrite IH by exact H. reflexivity.
Qed.

Lemma update_file_miss behind padding r fs : forall i,
  (update_file behind padding r i fs).2 = false ->
  (update_file behind padding r i fs).1 = fs.
Proof.
  induction fs as [|f fs IH]; intros i; cbn [update_file]; [reflexivity|].
  destruct (same_file f _ r _); cbn [fst snd]; [discriminate|].
  specialize (IH (S i)). destruct (update_file behind padding r (S i) fs) as [fs' b].
  cbn [fst snd] in *. intros H. rewrite IH by exact H. reflexivity.
Qed.

Lemma update_file_length behind padding r fs : forall i,
  length (update_file behind padding r i fs).1 = length fs.
Proof.
  induction fs as [|f fs IH]; intros i; cbn [update_file]; [reflexivity|].
  destruct (same_file f _ r _); cbn [fst snd length]; [reflexivity|].
  specialize (IH (S i)). destruct (update_file behind padding r (S i) fs) as [fs' b].
  cbn [fst snd length] in *. congruence.
Qed.

Lemma merge_file_keeps_keys behind data fs k :
  k ∈ map file_key fs -> k ∈ map file_key (merge_file behind data fs).
Proof.
  intros Hk. unfold merge_file.
  pose proof (update_file_keys behind (slice 74 2 data) (decode_SharedFile data) fs 0) as Hf.
  pose proof (update_file_miss behind (slice 74 2 data) (decode_SharedFile data) fs 0) as Hm.
  destruct (update_file behind (slice 74 2 data) (decode_SharedFile data) 0 fs) as [fs' b].
  cbn [fst snd] in *. destruct b.
  - rewrite Hf by reflexivity. exact Hk.
  - rewrite Hm by reflexivity. rewrite map_app. apply elem_of_app. left. exact Hk.
Qed.

Lemma merge_file_grows behind data fs : (length fs <= length (merge_file behind data fs))%nat.
Proof.
  unfold merge_file.
  pose proof (update_file_length behind (slice 74 2 data) (decode_SharedFile data) fs 0) as Hl.
  destruct (update_file behind (slice 74 2 data) (decode_SharedFile data) 0 fs) as [fs' b].
  cbn [fst snd] in *. destruct b; [lia|]. rewrite length_app. cbn [length]. lia.
Qed.

Lemma onDataReceived_exec env addr data s :
  exec (onDataReceived env addr data sizeof_SharedFile) s
  = {| peers := upsert_peer addr (Word.u32 (millis_at env (clock_reads s)))
                  (label_read (memory_behind env (clock_reads s)) data) (peers s);
       remoteFiles := merge_file (memory_behind env (clock_reads s)) data (remoteFiles s);
       sendStatuses := sendStatuses s;
       failedTransmissions := failedTransmissions s;
       lastBroadcast := lastBroadcast s;
       clock_reads := S (clock_reads s);
       tx_log := tx_log s |}.
Proof.
  unfold onDataReceived, upsert_peer, merge_file, label_read, exec, bind, gets, modify, millis.
  simpl.
  destruct (update_peer _ _ _ (peers s)) as [ps' pf]. simpl.
  destruct (update_file _ _ _ _ (remoteFiles s)) as [fs' ff]. reflexivity.
Qed.

(** What a datagram with terminated strings does: the upserts of the
    specification. *)
Lemma onDataReceived_terminated env addr data s :
  terminated (filename (decode_SharedFile data)) ->
  terminated (nodeSSID (decode_SharedFile data)) ->
  exec (onDataReceived env addr data sizeof_SharedFile) s
  = {| peers := upsert_peer addr (Word.u32 (millis_at env (clock_reads s)))
                  (String_of_chars (nodeSSID (decode_SharedFile data))) (peers s);
       remoteFiles := upsert_file (decode_SharedFile data) (remoteFiles s);
       sendStatuses := sendStatuses s;
       failedTransmissions := failedTransmissions s;
       lastBroadcast := lastBroadcast s;
       clock_reads := S (clock_reads s);
       tx_log := tx_log s |}.
Proof.
  intros Hn Hl. rewrite onDataReceived_exec, merge_file_terminated, label_read_terminated
    by assumption. reflexivity.
Qed.

Lemma onDataReceived_drop env addr data len s :
  len <> sizeof_SharedFile -> exec (onDataReceived env addr data len) s = s.
Proof.
  intros H. unfold onDataReceived. apply Z.eqb_neq in H. rewrite H. reflexivity.
Qed.

Lemma upsert_file_keys_nodup r fs :
  NoDup (map file_key fs) -> NoDup (map file_key (upsert_file r fs)).
Proof.
  intros Hnd. unfold upsert_file.
  destruct (replace_by_key r fs) as [fs' b] eqn:E.
  assert (E1 : (replace_by_key r fs).1 = fs') by (rewrite E; reflexivity).
  assert (E2 : (replace_by_key r fs).2 = b) by (rewrite E; reflexivity).
  destruct b.
  - rewrite <- E1, replace_by_key_keys by exact E2. exact Hnd.
  - rewrite <- E1, replace_by_key_miss by exact E2.
    rewrite map_app. simpl. apply NoDup_app. split; [exact Hnd|]. split.
    + intros k Hk Hk'. apply list_elem_of_singleton in Hk'. subst k.
      apply replace_by_key_found in Hk. congruence.
    + apply NoDup_singleton.
Qed.

Lemma upsert_file_find r fs : find_file r (upsert_file r fs) = Some r.
Proof.
  unfold upsert_file, find_file. induction fs as [|f fs IH]; simpl.
  - rewrite same_key_refl. reflexivity.
  - destruct (same_key f r) eqn:E; simpl.
    + rewrite same_key_refl. reflexivity.
    + destruct (replace_by_key r fs) as [fs' b]. destruct b; simpl in *; rewrite E; exact IH.
Qed.


(** *** [getMacString] is one to one *)

Lemma hex_value_digits b :
  (16 * hex_value (hex_digit (Byte.to_N b / 16)) + hex_value (hex_digit (Byte.to_N b mod 16)))%N
  = Byte.to_N b.
Proof. destruct b; reflexivity. Qed.

Lemma hex02X_inj a b r r' : hex02X a r = hex02X b r' -> a = b /\ r = r'.
Proof.
  unfold hex02X. intros [= H1 H2 H3]. split; [|exact H3].
  pose proof (hex_value_digits a) as Ha. pose proof (hex_value_digits b) as Hb.
  rewrite H1, H2 in Ha. rewrite Ha in Hb.
  assert (E : Byte.of_N (Byte.to_N a) = Byte.of_N (Byte.to_N b)) by (rewrite Hb; reflexivity).
  rewrite !Byte.of_to_N in E. congruence.
Qed.

Lemma String_tail_inj c c' r r' : String c r = String c' r' -> r = r'.
Proof. intros H. congruence. Qed.

Lemma getMacString_inj a b : getMacString a = getMacString b -> a = b.
Proof.
  destruct a as [a0 a1 a2 a3 a4 a5], b as [b0 b1 b2 b3 b4 b5].
  unfold getMacString. cbn [m0 m1 m2 m3 m4 m5]. intros H.
  repeat match goal with
         | H : hex02X _ _ = hex02X _ _ |- _ => apply hex02X_inj in H; destruct H as [-> H]
         | H : String _ _ = String _ _ |- _ => apply String_tail_inj in H
         end.
  reflexivity.
Qed.

(** ** Reasoning about the scheduler

  A relation between the state before and after a computation that is
  reflexive and transitive passes through [bind]; the two loops of
  [broadcastFiles] keep every such relation that their primitive steps
  keep. *)
Section Preserves.

Variable R : State -> State -> Prop.
Hypothesis R_refl : forall s, R s s.
Hypothesis R_trans : forall a b c, R a b -> R b c -> R a c.

Lemma preserves_ret {A} (a : A) : preserves R (ret a).
Proof. intros s. apply R_refl. Qed.

Lemma preserves_gets {A} (f : State -> A) : preserves R (gets f).
Proof. intros s. apply R_refl. Qed.

Lemma preserves_bind {A B} (c : M A) (k : A -> M B) :
  preserves R c -> (forall a, preserves R (k a)) -> preserves R (bind c k).
Proof.
  intros Hc Hk s. unfold bind. specialize (Hc s).
  destruct (c s) as [a s']. simpl in Hc. eapply R_trans; [exact Hc | apply Hk].
Qed.

Variable env : Env.
Hypothesis R_millis : preserves R (millis env).
Hypothesis R_send : forall f, preserves R (esp_now_send env f).

Lemma retry_loop_preserves tickets :
  (forall t, t ∈ tickets ->
     preserves R (status_at (getMacString (sourceNode t)))
     /\ forall now, preserves R (set_lastTry (getMacString (sourceNode t)) now)) ->
  preserves R (retry_loop env tickets).
Proof.
  induction tickets as [|it rest IH]; intros Hst; simpl.
  - apply preserves_ret.
  - assert (IH' : preserves R (retry_loop env rest)).
    { apply IH. intros t Ht. apply Hst. right. exact Ht. }
    destruct (Hst it) as [Hat Hset]; [left|].
    apply preserves_bind; [exact Hat|]. intros st.
    destruct (retryCount st <? MAX_RETRY); [|exact IH'].
    apply preserves_bind; [exact R_millis|]. intros now.
    apply preserves_bind; [exact Hat|]. intros st'.
    destruct (100 <=? Word.usub now (lastTry st')).
    + apply preserves_bind; [apply R_send|]. intros rc.
      destruct (rc =? 0).
      * apply preserves_bind; [exact R_millis|]. intros now'.
        apply preserves_bind; [apply Hset|]. intros _. exact IH'.
      * apply preserves_bind; [exact IH'|]. intros kept. apply preserves_ret.
    + apply preserves_bind; [exact IH'|]. intros kept. apply preserves_ret.
Qed.

Hypothesis R_push : forall file uninit,
  preserves R (modify (set_failedTransmissions (fun v => v ++ [local_record env file uninit]))).
Hypothesis R_fresh_status : forall now,
  preserves R (modify (set_sendStatuses
    (insert (getMacString (WiFi_macAddress env))
            {| success := false; retryCount := 0; lastTry := now |}))).

Lemma fresh_loop_preserves files : preserves R (fresh_loop env files).
Proof.
  induction files as [|[file uninit] rest IH]; simpl.
  - apply preserves_ret.
  - apply preserves_bind; [|intros _; exact IH].
    destruct (isAllowedFile (file_name file)); [|apply preserves_ret].
    apply preserves_bind; [apply R_send|]. intros rc.
    destruct (negb (rc =? 0)); [|apply preserves_ret].
    apply preserves_bind; [apply R_push|]. intros _.
    apply preserves_bind; [exact R_millis|]. intros now. apply R_fresh_status.
Qed.

Lemma fresh_phase_preserves root : preserves R (fresh_phase env root).
Proof.
  destruct root as [files|]; simpl; [apply fresh_loop_preserves | apply preserves_ret].
Qed.

End Preserves.

(** *** The scheduler does not touch the registry or the catalog *)

Lemma catalog_frame_refl s : catalog_frame s s.
Proof. repeat split. Qed.

Lemma catalog_frame_trans a b c : catalog_frame a b -> catalog_frame b c -> catalog_frame a c.
Proof. unfold catalog_frame. intros (?&?&?) (?&?&?). repeat split; congruence. Qed.

Lemma status_at_frame key : preserves catalog_frame (status_at key).
Proof.
  intros s. unfold status_at, bind, gets, modify. simpl.
  destruct (sendStatuses s !! key); repeat split.
Qed.

Lemma set_lastTry_frame key t : preserves catalog_frame (set_lastTry key t).
Proof.
  unfold set_lastTry. apply preserves_bind.
  - apply catalog_frame_trans.
  - apply status_at_frame.
  - intros st s. repeat split.
Qed.

Lemma retry_phase_frame env : preserves catalog_frame (retry_phase env).
Proof.
  unfold retry_phase.
  apply preserves_bind; [apply catalog_frame_trans | intros s; apply catalog_frame_refl |].
  intros tickets. apply preserves_bind; [apply catalog_frame_trans | | ].
  - apply retry_loop_preserves.
    + apply catalog_frame_refl.
    + apply catalog_frame_trans.
    + intros s. repeat split.
    + intros f s. repeat split.
    + intros t _. split; [apply status_at_frame | intros now; apply set_lastTry_frame].
  - intros kept s. repeat split.
Qed.

Lemma broadcastFiles_frame env root : preserves catalog_frame (broadcastFiles env root).
Proof.
  unfold broadcastFiles.
  apply preserves_bind; [apply catalog_frame_trans | apply retry_phase_frame |].
  intros _. apply fresh_phase_preserves.
  - apply catalog_frame_refl.
  - apply catalog_frame_trans.
  - intros s. repeat split.
  - intros f s. repeat split.
  - intros file uninit s. repeat split.
  - intros now s. repeat split.
Qed.

Lemma updateNodeLinking_peers env root s :
  peers (exec (updateNodeLinking env root) s)
  = remove_inactive (Word.u32 (millis_at env (clock_reads s))) (peers s).
Proof.
  unfold updateNodeLinking, exec, bind, gets, modify, millis. simpl.
  match goal with |- context [if ?c then _ else _] => destruct c end; [|reflexivity].
  match goal with |- context [broadcastFiles env root ?s0] =>
    destruct (broadcastFiles_frame env root s0) as (Hp & _ & _);
    destruct (broadcastFiles env root s0) as [u s1] end.
  simpl in *. exact Hp.
Qed.

Lemma updateNodeLinking_remoteFiles env root s :
  remoteFiles (exec (updateNodeLinking env root) s) = remoteFiles s.
Proof.
  unfold updateNodeLinking, exec, bind, gets, modify, millis. simpl.
  match goal with |- context [if ?c then _ else _] => destruct c end; [|reflexivity].
  match goal with |- context [broadcastFiles env root ?s0] =>
    destruct (broadcastFiles_frame env root s0) as (_ & Hf & _);
    destruct (broadcastFiles env root s0) as [u s1] end.
  simpl in *. exact Hf.
Qed.

Lemma onDataSent_catalog mac_addr sendStatus s :
  let s' := exec (onDataSent mac_addr sendStatus) s in
  peers s' = peers s /\ remoteFiles s' = remoteFiles s.
Proof.
  unfold onDataSent, exec, bind, gets, modify. simpl.
  destruct (negb (sendStatus =? 0)); [|split; reflexivity].
  simpl. destruct (sendStatuses s !! getMacString mac_addr); split; reflexivity.
Qed.

(** ** The receive merger *)

Lemma find_file_upsert_other r g fs :
  same_key g r = false -> find_file g (upsert_file r fs) = find_file g fs.
Proof.
  intros Hg. apply same_key_false in Hg.
  assert (Hr : same_key r g = false) by (apply same_key_false; congruence).
  unfold upsert_file, find_file. induction fs as [|f fs IH]; simpl.
  - rewrite Hr. reflexivity.
  - destruct (same_key f r) eqn:E; simpl.
    + rewrite Hr. apply same_key_iff in E.
      assert (Hf : same_key f g = false) by (apply same_key_false; congruence).
      rewrite Hf. reflexivity.
    + destruct (replace_by_key r fs) as [fs' b].
      destruct b; simpl in *; rewrite IH; reflexivity.
Qed.

Lemma find_file_found r fs :
  (replace_by_key r fs).2 = true <-> is_Some (find_file r fs).
Proof.
  unfold find_file. induction fs as [|f fs IH]; simpl.
  - split; [discriminate | intros [? [=]]].
  - destruct (same_key f r); simpl; [split; eauto|].
    destruct (replace_by_key r fs) as [fs' b]. exact IH.
Qed.

Lemma upsert_peer_length addr now name ps :
  length (upsert_peer addr now name ps)
  = match find_peer addr ps with Some _ => length ps | None => S (length ps) end.
Proof.
  unfold upsert_peer.
  pose proof (update_peer_found addr now name ps) as Hf.
  pose proof (update_peer_length addr now name ps) as Hl.
  destruct (update_peer addr now name ps) as [ps' b]. simpl in *.
  destruct b.
  - destruct (find_peer addr ps); [exact Hl|]. destruct Hf as [Hf _].
    destruct Hf as [? [=]]. reflexivity.
  - destruct (find_peer addr ps) as [p|].
    + destruct Hf as [_ Hf]. discriminate Hf. eauto.
    + rewrite length_app. simpl. lia.
Qed.

Lemma upsert_file_length r fs :
  length (upsert_file r fs)
  = match find_file r fs with Some _ => length fs | None => S (length fs) end.
Proof.
  unfold upsert_file.
  pose proof (find_file_found r fs) as Hf.
  pose proof (replace_by_key_length r fs) as Hl.
  destruct (replace_by_key r fs) as [fs' b]. simpl in *.
  destruct b.
  - destruct (find_file r fs); [exact Hl|]. destruct Hf as [Hf _].
    destruct Hf as [? [=]]. reflexivity.
  - destruct (find_file r fs) as [p|].
    + destruct Hf as [_ Hf]. discriminate Hf. eauto.
    + rewrite length_app. simpl. lia.
Qed.

Lemma upsert_peer_find addr now name ps :
  find_peer addr (upsert_peer addr now name ps)
  = Some {| mac := addr; lastSeen := now; ssid := name |}.
Proof.
  unfold upsert_peer.
  pose proof (update_peer_found addr now name ps) as Hf.
  pose proof (update_peer_hit addr now name ps) as Hh.
  pose proof (update_peer_miss addr now name ps) as Hm.
  destruct (update_peer addr now name ps) as [ps' b]. simpl in *.
  destruct b.
  - apply Hh, Hf. reflexivity.
  - destruct (find_peer addr ps) eqn:E.
    + destruct Hf as [_ Hf]. discriminate Hf. eauto.
    + rewrite Hm by reflexivity. rewrite find_peer_app_miss by exact E.
      unfold find_peer. simpl.
      replace (memcmp (mac_bytes addr) (mac_bytes addr) 6 =? 0) with true; [reflexivity|].
      symmetry. apply memcmp_mac_eqb. reflexivity.
Qed.

Lemma upsert_peer_other addr now name ps a :
  a <> addr -> find_peer a (upsert_peer addr now name ps) = find_peer a ps.
Proof.
  intros Hne. unfold upsert_peer.
  pose proof (update_peer_other addr now name ps a Hne) as Ho.
  destruct (update_peer addr now name ps) as [ps' b]. simpl in *.
  destruct b; [exact Ho|].
  rewrite find_peer_app_other by exact Hne. exact Ho.
Qed.

Lemma step_received env s addr data :
  step env s (Received addr data sizeof_SharedFile)
  = exec (onDataReceived env addr data sizeof_SharedFile) s.
Proof. reflexivity. Qed.

(** What one event does to the catalog. *)
Lemma step_remoteFiles env s ev :
  remoteFiles (step env s ev)
  = match ev with
    | Received _ data len =>
        if len =? sizeof_SharedFile
        then merge_file (memory_behind env (clock_reads s)) data (remoteFiles s)
        else remoteFiles s
    | _ => remoteFiles s
    end.
Proof.
  destruct ev as [addr data len|mac_addr sendStatus|root]; unfold step, handle.
  - destruct (len =? sizeof_SharedFile) eqn:E.
    + apply Z.eqb_eq in E. subst len. rewrite onDataReceived_exec. reflexivity.
    + apply Z.eqb_neq in E. rewrite onDataReceived_drop by exact E. reflexivity.
  - apply onDataSent_catalog.
  - apply updateNodeLinking_remoteFiles.
Qed.

Lemma run_snoc env evs ev s : run env (evs ++ [ev]) s = step env (run env evs s) ev.
Proof. unfold run. rewrite fold_left_app. reflexivity. Qed.

(** An invariant of every step holds in every state the node can reach. *)
Lemma run_invariant env (I : State -> Prop) :
  (forall s ev, I s -> I (step env s ev)) ->
  forall evs s, I s -> I (run env evs s).
Proof.
  intros Hstep evs. induction evs as [|ev evs IH]; intros s Hs; simpl; [exact Hs|].
  apply IH, Hstep, Hs.
Qed.

Lemma run_invariant_on env (I : State -> Prop) evs :
  (forall s ev, ev ∈ evs -> I s -> I (step env s ev)) ->
  forall s, I s -> I (run env evs s).
Proof.
  induction evs as [|ev evs IH]; intros Hstep s Hs; simpl; [exact Hs|].
  apply IH.
  - intros s' ev' Hin. apply Hstep. right. exact Hin.
  - apply Hstep; [left | exact Hs].
Qed.

(** C3. A datagram whose length is not the size of the record changes nothing:
    the registry, the catalog and the rest of the state are left as they
    were. *)
Theorem malformed_datagram_dropped env addr data len s :
  len <> sizeof_SharedFile ->
  step env s (Received addr data len) = s
  /\ peers (step env s (Received addr data len)) = peers s
  /\ remoteFiles (step env s (Received addr data len)) = remoteFiles s.
Proof.
  intros H. unfold step, handle. rewrite onDataReceived_drop by exact H. repeat split.
Qed.

Lemma malformed_datagram_dropped_witness :
  step radio_down init_state (Received node_A (take 75 notes_datagram) 75) = init_state
  /\ peers (step radio_down init_state (Received node_A (take 75 notes_datagram) 75)) = []
  /\ remoteFiles (step radio_down init_state (Received node_A (take 75 notes_datagram) 75)) = [].
Proof.
  apply (malformed_datagram_dropped radio_down node_A (take 75 notes_datagram) 75 init_state).
  unfold sizeof_SharedFile. lia.
Defined.

(** C1, as amended. A datagram of the size of the record whose filename and
    origin label are terminated inside their arrays upserts the registry under
    the sender's address (name from the payload's label, [lastSeen] advanced to
    the reading of the clock) and the catalog under the payload's filename and
    source node, leaving every other peer and every other key alone.  A sender
    absent from the registry adds one peer; a key absent from the catalog adds
    one entry; a key already there is overwritten and the catalog keeps its
    length.  This holds whatever the memory holds behind the objects. *)
Theorem receive_upserts env addr data len s :
  len = sizeof_SharedFile ->
  terminated (filename (decode_SharedFile data)) ->
  terminated (nodeSSID (decode_SharedFile data)) ->
  let r := decode_SharedFile data in
  let now := Word.u32 (millis_at env (clock_reads s)) in
  let s' := step env s (Received addr data len) in
  find_peer addr (peers s')
    = Some {| mac := addr; lastSeen := now; ssid := String_of_chars (nodeSSID r) |}
  /\ (forall a, a <> addr -> find_peer a (peers s') = find_peer a (peers s))
  /\ find_file r (remoteFiles s') = Some r
  /\ (forall g, same_key g r = false ->
        find_file g (remoteFiles s') = find_file g (remoteFiles s))
  /\ length (peers s')
     = match find_peer addr (peers s) with
       | Some _ => length (peers s)
       | None => S (length (peers s))
       end
  /\ length (remoteFiles s')
     = match find_file r (remoteFiles s) with
       | Some _ => length (remoteFiles s)
       | None => S (length (remoteFiles s))
       end.
Proof.
  intros -> Hname Hlabel r now s'. subst s'.
  rewrite step_received, onDataReceived_terminated by assumption. simpl.
  split; [apply upsert_peer_find|].
  split; [intros a Ha; apply upsert_peer_other, Ha|].
  split; [apply upsert_file_find|].
  split; [intros g Hg; apply find_file_upsert_other, Hg|].
  split; [apply upsert_peer_length | apply upsert_file_length].
Qed.

Lemma receive_upserts_witness :
  76 = sizeof_SharedFile
  /\ terminated (filename (decode_SharedFile notes_datagram))
  /\ terminated (nodeSSID (decode_SharedFile notes_datagram))
  /\ let s' := step radio_down init_state (Received node_A notes_datagram 76) in
     find_peer node_A (peers s')
       = Some {| mac := node_A; lastSeen := 2000; ssid := "NODE_07" |}
     /\ find_file (decode_SharedFile notes_datagram) (remoteFiles s')
        = Some (decode_SharedFile notes_datagram)
     /\ filesize (decode_SharedFile notes_datagram) = 1024
     /\ length (peers s') = 1%nat
     /\ length (remoteFiles s') = 1%nat.
Proof.
  assert (Hn : terminated (filename (decode_SharedFile notes_datagram))) by reflexivity.
  assert (Hl : terminated (nodeSSID (decode_SharedFile notes_datagram))) by reflexivity.
  split; [reflexivity|]. split; [exact Hn|]. split; [exact Hl|].
  destruct (receive_upserts radio_down node_A notes_datagram 76 init_state eq_refl Hn Hl)
    as (Hp & _ & Hf & _ & Hlp & Hlf).
  split; [exact Hp|]. split; [exact Hf|]. split; [reflexivity|].
  split; [exact Hlp | exact Hlf].
Defined.

(** A record from an address the node has never heard from adds the peer but
    no catalog entry when its key is already stored.  Here [node_B] first
    relays the record that [node_A] advertises, then [node_A] sends it
    itself. *)
Lemma unseen_sender_relay :
  ~ (forall env evs addr data,
       (forall a d l, Received a d l ∈ evs -> a <> addr) ->
       let s := run env evs init_state in
       let s' := step env s (Received addr data sizeof_SharedFile) in
       length (peers s') = S (length (peers s))
       /\ length (remoteFiles s') = S (length (remoteFiles s))).
Proof.
  intros H.
  specialize (H radio_down [Received node_B notes_datagram 76] node_A notes_datagram).
  destruct H as [_ H].
  - intros a d l Hin. apply list_elem_of_singleton in Hin.
    injection Hin as -> _ _. discriminate.
  - vm_compute in H. discriminate H.
Qed.

(** A name of 31 characters or more leaves the sender without a terminator
    ([strncpy] writes 31 bytes, the 32nd keeps what the stack held), and
    [strcmp] then reads on into [filesize].  The same file advertised with
    1025 and then with 1026 bytes is stored twice: two entries with the same
    32 bytes of filename and the same source node. *)
Lemma long_name_two_entries :
  let s := run reading_room [Received node_self (long_name_datagram 1025) 76] init_state in
  let s' := step reading_room s (Received node_self (long_name_datagram 1026) 76) in
  ~ terminated (filename (decode_SharedFile (long_name_datagram 1026)))
  /\ file_key (decode_SharedFile (long_name_datagram 1026)) ∈ map file_key (remoteFiles s)
  /\ filename <$> remoteFiles s'
     = [filename (decode_SharedFile (long_name_datagram 1025));
        filename (decode_SharedFile (long_name_datagram 1025))]
  /\ sourceNode <$> remoteFiles s' = [node_self; node_self]
  /\ filesize <$> remoteFiles s' = [1025; 1026]
  /\ length (remoteFiles s') = S (length (remoteFiles s)).
Proof.
  intros s s'. split.
  - unfold terminated. replace (existsb is_nul _) with false by (vm_compute; reflexivity).
    discriminate.
  - split; [vm_compute; left|]. repeat split; vm_compute; reflexivity.
Qed.

(** A label without a terminator is read on through the two padding bytes of
    the datagram and into the stack: the name the registry gets is not the
    label of the payload. *)
Lemma label_runs_on :
  let s' := step reading_room init_state (Received node_A loud_label_datagram 76) in
  ~ terminated (nodeSSID (decode_SharedFile loud_label_datagram))
  /\ String_of_chars (nodeSSID (decode_SharedFile loud_label_datagram))
     = "SSSSSSSSSSSSSSSSSSSSSSSSSSSSSSSS"%string
  /\ ssid <$> peers s' = ["SSSSSSSSSSSSSSSSSSSSSSSSSSSSSSSSXY"%string].
Proof.
  intros s'. split.
  - unfold terminated. replace (existsb is_nul _) with false by (vm_compute; reflexivity).
    discriminate.
  - split; vm_compute; reflexivity.
Qed.

(** C1, as stated, fails in three ways.  A record from an unseen address adds
    no catalog entry when its key is stored already ([node_B] relays what
    [node_A] advertises, then [node_A] sends it itself).  A record whose
    filename has no terminator is not filed under its key: the long-named
    file of a node, advertised with two sizes, is stored twice under one
    filename and source node.  And a label without a terminator does not give
    the name of the peer: the registry gets the label followed by the padding
    bytes of the datagram. *)
Lemma receive_upserts_as_stated_fails :
  ~ (forall env evs addr data,
       (forall a d l, Received a d l ∈ evs -> a <> addr) ->
       let s := run env evs init_state in
       let s' := step env s (Received addr data sizeof_SharedFile) in
       length (peers s') = S (length (peers s))
       /\ length (remoteFiles s') = S (length (remoteFiles s)))
  /\ ~ (forall env addr data s,
          let r := decode_SharedFile data in
          let s' := step env s (Received addr data sizeof_SharedFile) in
          file_key r ∈ map file_key (remoteFiles s) ->
          length (remoteFiles s') = length (remoteFiles s))
  /\ ~ (forall env addr data s p,
          let s' := step env s (Received addr data sizeof_SharedFile) in
          find_peer addr (peers s') = Some p ->
          ssid p = String_of_chars (nodeSSID (decode_SharedFile data))).
Proof.
  split; [exact unseen_sender_relay|]. split.
  - intros H.
    pose proof long_name_two_entries as L. cbv zeta in L.
    destruct L as (_ & Hk & _ & _ & _ & Hlen).
    pose proof (H reading_room node_self (long_name_datagram 1026) _ Hk) as E.
    cbv zeta in E.
    set (s := run reading_room [Received node_self (long_name_datagram 1025) 76] init_state)
      in *.
    assert (Hc : S (length (remoteFiles s)) = length (remoteFiles s))
      by (etransitivity; [symmetry; exact Hlen | exact E]).
    lia.
  - intros H.
    specialize (H reading_room node_A loud_label_datagram init_state
                  {| mac := node_A; lastSeen := 2000; ssid := "SSSSSSSSSSSSSSSSSSSSSSSSSSSSSSSSXY" |}).
    cbv zeta in H. assert (E := H ltac:(vm_compute; reflexivity)).
    vm_compute in E. discriminate E.
Qed.




(** C2 fails on the code.  [reading_room] hears the long-named file of
    [node_self] twice, 1025 and then 1026 bytes long, in the records the
    sender's [broadcastFiles] builds.  The second record is not written over
    the first: the catalog ends with two entries that have the same 32 bytes
    of filename and the same source node. *)
Theorem long_name_stored_twice :
  let sent size :=
    encode_SharedFile (local_record radio_down
                         {| file_name := long_name; file_size := size |} stack_garbage) in
  let s := run reading_room [Received node_self (sent 1025) 76] init_state in
  let s' := step reading_room s (Received node_self (sent 1026) 76) in
  filename <$> remoteFiles s'
    = [filename (decode_SharedFile (sent 1025)); filename (decode_SharedFile (sent 1025))]
  /\ sourceNode <$> remoteFiles s' = [node_self; node_self]
  /\ filesize <$> remoteFiles s' = [1025; 1026]
  /\ ~ NoDup (map file_key (remoteFiles s'))
  /\ remoteFiles s' <> <[0%nat := decode_SharedFile (sent 1026)]> (remoteFiles s).
Proof.
  intros sent s s'.
  pose proof long_name_two_entries as L. cbv zeta in L.
  destruct L as (_ & _ & Hf & Hs & Hz & Hlen).
  split; [exact Hf|]. split; [exact Hs|]. split; [exact Hz|]. split.
  - intros Hnd.
    assert (Hkeys : map file_key (remoteFiles s')
                    = [file_key (decode_SharedFile (sent 1025));
                       file_key (decode_SharedFile (sent 1025))])
      by (vm_compute; reflexivity).
    rewrite Hkeys in Hnd. inversion Hnd as [|? ? Hnin _]. apply Hnin. left.
  - intros E. apply (f_equal length) in E. rewrite length_insert in E.
    assert (Hc : S (length (remoteFiles s)) = length (remoteFiles s))
      by (etransitivity; [symmetry; exact Hlen | exact E]).
    lia.
Qed.

(** ** The liveness sweep *)

Lemma remove_inactive_In now ps P :
  In P (remove_inactive now ps) <-> In P ps /\ removing now P = false.
Proof.
  unfold remove_inactive. rewrite filter_In, negb_true_iff. reflexivity.
Qed.

Lemma find_peer_None addr ps : find_peer addr ps = None <-> addr ∉ map mac ps.
Proof.
  unfold find_peer. induction ps as [|p ps IH]; simpl.
  - split; [intros _ H; inversion H | reflexivity].
  - rewrite not_elem_of_cons. destruct (memcmp _ _ 6 =? 0) eqn:E.
    + apply memcmp_mac_eqb in E. split; [discriminate | intros [H _]; congruence].
    + rewrite IH. split; [|tauto]. intros H. split; [|exact H].
      intros ->. rewrite (proj2 (memcmp_mac_eqb _ _) eq_refl) in E. discriminate.
Qed.

Lemma find_peer_Some addr ps p : find_peer addr ps = Some p -> In p ps /\ mac p = addr.
Proof.
  unfold find_peer. intros H. apply find_some in H. destruct H as [Hin H].
  split; [exact Hin | apply memcmp_mac_eqb, H].
Qed.

Lemma update_peer_macs addr now name ps :
  map mac (update_peer addr now name ps).1 = map mac ps.
Proof.
  induction ps as [|p ps IH]; simpl; [reflexivity|].
  destruct (memcmp _ _ 6 =? 0); simpl; [reflexivity|].
  destruct (update_peer addr now name ps) as [ps' b]. simpl in *. congruence.
Qed.

Lemma upsert_peer_macs_nodup addr now name ps :
  NoDup (map mac ps) -> NoDup (map mac (upsert_peer addr now name ps)).
Proof.
  intros Hnd. unfold upsert_peer.
  pose proof (update_peer_macs addr now name ps) as Hm.
  pose proof (update_peer_found addr now name ps) as Hf.
  destruct (update_peer addr now name ps) as [ps' b]. simpl in *. destruct b.
  - rewrite Hm. exact Hnd.
  - rewrite map_app, Hm. simpl. apply NoDup_app. split; [exact Hnd|]. split.
    + intros a Ha Ha'. apply list_elem_of_singleton in Ha'. subst a.
      destruct (find_peer addr ps) eqn:E.
      * destruct Hf as [_ Hf]. discriminate Hf. eauto.
      * apply find_peer_None in E. contradiction.
    + apply NoDup_singleton.
Qed.

Lemma remove_inactive_macs_nodup now ps :
  NoDup (map mac ps) -> NoDup (map mac (remove_inactive now ps)).
Proof.
  unfold remove_inactive. induction ps as [|p ps IH]; simpl; [auto|].
  intros Hnd. apply NoDup_cons in Hnd. destruct Hnd as [Hp Hnd].
  destruct (negb (removing now p)); simpl; [|auto].
  apply NoDup_cons. split; [|auto].
  intros Hin. apply Hp. apply list_elem_of_fmap in Hin. destruct Hin as (q & -> & Hq).
  apply list_elem_of_fmap. exists q. split; [reflexivity|].
  apply list_elem_of_In. apply list_elem_of_In in Hq. apply filter_In in Hq. tauto.
Qed.

(** What one event does to the registry. *)
Lemma step_peers env s ev :
  peers (step env s ev)
  = match ev with
    | Received addr data len =>
        if len =? sizeof_SharedFile
        then upsert_peer addr (Word.u32 (millis_at env (clock_reads s)))
               (label_read (memory_behind env (clock_reads s)) data) (peers s)
        else peers s
    | SendOutcome _ _ => peers s
    | LoopPass _ => remove_inactive (Word.u32 (millis_at env (clock_reads s))) (peers s)
    end.
Proof.
  destruct ev as [addr data len|mac_addr sendStatus|root]; unfold step, handle.
  - destruct (len =? sizeof_SharedFile) eqn:E.
    + apply Z.eqb_eq in E. subst len. rewrite onDataReceived_exec. reflexivity.
    + apply Z.eqb_neq in E. rewrite onDataReceived_drop by exact E. reflexivity.
  - apply onDataSent_catalog.
  - apply updateNodeLinking_peers.
Qed.

(** The registry holds at most one record per address. *)
Lemma run_macs_nodup env evs : NoDup (map mac (peers (run env evs init_state))).
Proof.
  apply (run_invariant env (fun s => NoDup (map mac (peers s)))).
  - intros s ev Hs. rewrite step_peers. destruct ev as [addr data len| |root].
    + destruct (len =? sizeof_SharedFile); [apply upsert_peer_macs_nodup|]; exact Hs.
    + exact Hs.
    + apply remove_inactive_macs_nodup, Hs.
  - simpl. apply NoDup_nil_2.
Qed.

(** C4. At a pass of [updateNodeLinking] that reads the clock as [now], a peer
    of the registry whose [now - lastSeen] (on [unsigned long]) exceeds
    [PEER_TIMEOUT] is gone after the sweep, record and address, and a peer
    within the timeout is still there; the sweep adds nothing, and while the
    clock has not wrapped since the peer was heard the unsigned difference is
    the plain one. *)
Theorem liveness_eviction env evs root P :
  let s := run env evs init_state in
  let now := Word.u32 (millis_at env (clock_reads s)) in
  let s' := step env s (LoopPass root) in
  In P (peers s) ->
  (PEER_TIMEOUT < Word.usub now (lastSeen P) ->
     ~ In P (peers s') /\ find_peer (mac P) (peers s') = None)
  /\ (Word.usub now (lastSeen P) <= PEER_TIMEOUT -> In P (peers s'))
  /\ (0 <= lastSeen P <= now -> Word.usub now (lastSeen P) = now - lastSeen P)
  /\ (forall Q, In Q (peers s') -> In Q (peers s)).
Proof.
  intros s now s' HP. subst s'. rewrite step_peers. fold now.
  assert (Hgone : PEER_TIMEOUT < Word.usub now (lastSeen P) ->
                  ~ In P (remove_inactive now (peers s))).
  { intros Hstale HIn. apply remove_inactive_In in HIn. destruct HIn as [_ Hr].
    unfold removing in Hr. apply Z.ltb_ge in Hr. lia. }
  split; [|split; [|split]].
  - intros Hstale. split; [apply Hgone, Hstale|].
    destruct (find_peer (mac P) (remove_inactive now (peers s))) as [Q|] eqn:E; [|reflexivity].
    exfalso. apply find_peer_Some in E. destruct E as [HQ Hmac].
    assert (Q = P); [|subst Q; exact (Hgone Hstale HQ)].
    apply remove_inactive_In in HQ. destruct HQ as [HQ _].
    apply list_elem_of_In, list_elem_of_lookup in HQ, HP.
    destruct HQ as [i Hi], HP as [j Hj].
    assert (i = j); [|congruence].
    apply (NoDup_lookup _ i j (mac P) (run_macs_nodup env evs)); rewrite list_lookup_fmap.
    + fold s. rewrite Hi. simpl. congruence.
    + fold s. rewrite Hj. reflexivity.
  - intros Hlive. apply remove_inactive_In. split; [exact HP|].
    unfold removing. apply Z.ltb_ge. exact Hlive.
  - intros Hle. apply WordFacts.usub_exact; [exact Hle|].
    apply WordFacts.u32_range.
  - intros Q HQ. apply remove_inactive_In in HQ. tauto.
Qed.

Lemma updateNodeLinking_idle env root s :
  let now := Word.u32 (millis_at env (clock_reads s)) in
  Word.usub now (lastBroadcast s) < BROADCAST_INTERVAL ->
  step env s (LoopPass root)
  = {| peers := remove_inactive now (peers s);
       remoteFiles := remoteFiles s;
       sendStatuses := sendStatuses s;
       failedTransmissions := failedTransmissions s;
       lastBroadcast := lastBroadcast s;
       clock_reads := S (clock_reads s);
       tx_log := tx_log s |}.
Proof.
  intros now Hidle. unfold step, handle, updateNodeLinking, exec, bind, gets, modify, millis.
  simpl. fold now. apply Z.leb_gt in Hidle. rewrite Hidle. reflexivity.
Qed.

(** C9. A pass of [updateNodeLinking] leaves the catalog exactly as it was,
    whether or not the pass also broadcasts: the entries advertised by a peer
    the sweep evicts are all still there.  A pass at which no broadcast is due
    is the sweep alone, and changes nothing but the registry. *)
Theorem sweep_keeps_catalog env root s :
  let now := Word.u32 (millis_at env (clock_reads s)) in
  let s' := step env s (LoopPass root) in
  remoteFiles s' = remoteFiles s
  /\ (forall P f, In P (peers s) -> removing now P = true ->
        In f (remoteFiles s) -> sourceNode f = mac P ->
        ~ In P (peers s') /\ In f (remoteFiles s'))
  /\ (Word.usub now (lastBroadcast s) < BROADCAST_INTERVAL ->
        sendStatuses s' = sendStatuses s
        /\ failedTransmissions s' = failedTransmissions s
        /\ lastBroadcast s' = lastBroadcast s
        /\ tx_log s' = tx_log s).
Proof.
  intros now s'.
  assert (E : remoteFiles s' = remoteFiles s) by apply updateNodeLinking_remoteFiles.
  split; [exact E|]. split.
  - intros P f HP Hr Hf _. rewrite E. split; [|exact Hf].
    subst s'. rewrite step_peers. fold now.
    intros HIn. apply remove_inactive_In in HIn. destruct HIn as [_ Hr']. congruence.
  - intros Hidle. subst s'. rewrite (updateNodeLinking_idle env root s Hidle).
    repeat split.
Qed.

Lemma sweep_keeps_catalog_witness :
  let s := run radio_down silent_peer_run init_state in
  let s' := step radio_down s (LoopPass None) in
  In peer_A (peers s) /\ removing 13000 peer_A = true
  /\ In (decode_SharedFile notes_datagram) (remoteFiles s)
  /\ sourceNode (decode_SharedFile notes_datagram) = mac peer_A
  /\ ~ In peer_A (peers s') /\ In (decode_SharedFile notes_datagram) (remoteFiles s').
Proof.
  intros s s'.
  assert (HP : In peer_A (peers s)) by (vm_compute; left; reflexivity).
  assert (Hr : removing 13000 peer_A = true) by (vm_compute; reflexivity).
  assert (Hf : In (decode_SharedFile notes_datagram) (remoteFiles s)) by (vm_compute; left; reflexivity).
  assert (Ho : sourceNode (decode_SharedFile notes_datagram) = mac peer_A) by (vm_compute; reflexivity).
  split; [exact HP|]. split; [exact Hr|]. split; [exact Hf|]. split; [exact Ho|].
  destruct (sweep_keeps_catalog radio_down None s) as (_ & H & _).
  exact (H peer_A (decode_SharedFile notes_datagram) HP Hr Hf Ho).
Defined.

Lemma liveness_eviction_witness :
  let s := run radio_down silent_peer_run init_state in
  let s' := step radio_down s (LoopPass None) in
  In peer_A (peers s) /\ PEER_TIMEOUT < Word.usub 13000 (lastSeen peer_A)
  /\ ~ In peer_A (peers s') /\ find_peer node_A (peers s') = None.
Proof.
  intros s s'.
  assert (HP : In peer_A (peers s)) by (vm_compute; left; reflexivity).
  assert (Hs : PEER_TIMEOUT < Word.usub 13000 (lastSeen peer_A)) by (vm_compute; reflexivity).
  split; [exact HP|]. split; [exact Hs|].
  destruct (liveness_eviction radio_down silent_peer_run None peer_A HP) as [H _].
  exact (H Hs).
Defined.

(** ** The registry is not bounded *)

Lemma upsert_peer_new addr now name ps :
  addr ∉ map mac ps -> map mac (upsert_peer addr now name ps) = map mac ps ++ [addr].
Proof.
  intros Hnew. apply find_peer_None in Hnew. unfold upsert_peer.
  pose proof (update_peer_macs addr now name ps) as Hm.
  pose proof (update_peer_found addr now name ps) as Hf.
  destruct (update_peer addr now name ps) as [ps' b]. simpl in *. destruct b.
  - destruct Hf as [Hf _]. rewrite Hnew in Hf. destruct Hf as [? [=]]. reflexivity.
  - rewrite map_app, Hm. reflexivity.
Qed.

(** One datagram from each of any number of distinct addresses leaves as many
    peers in the registry. *)
Lemma registry_grows_with_senders env data addrs :
  NoDup addrs ->
  map mac (peers (run env (map (fun a => Received a data sizeof_SharedFile) addrs) init_state))
  = addrs.
Proof.
  induction addrs as [|a addrs IH] using rev_ind; intros Hnd; [reflexivity|].
  apply NoDup_app in Hnd. destruct Hnd as (Hnd & Hfresh & _).
  rewrite map_app. simpl. rewrite run_snoc, step_peers, Z.eqb_refl.
  rewrite upsert_peer_new; rewrite IH by exact Hnd; [reflexivity|].
  intros Hin. apply (Hfresh a Hin). left.
Qed.

(** C8 fails on the code: [onDataReceived] appends a peer for every address it
    has not stored and never looks at [MAX_PEERS].  After one datagram from
    each of twenty-one addresses, all within a quarter of a second, and the
    sweep that follows, the registry holds twenty-one peers. *)
Theorem registry_exceeds_MAX_PEERS :
  let s := run busy_air crowd_run init_state in
  map mac (peers s) = crowd
  /\ NoDup crowd
  /\ length (peers s) = 21%nat
  /\ MAX_PEERS < Z.of_nat (length (peers s)).
Proof.
  intros s.
  assert (E : map mac (peers s) = crowd) by (vm_compute; reflexivity).
  split; [exact E|]. split; [rewrite <- E; apply run_macs_nodup|].
  split; [vm_compute; reflexivity | vm_compute; reflexivity].
Qed.

(** ** Hoare rules *)

Section Hoare.

Context {A B : Type}.

Lemma hoare_ret (P : State -> Prop) (a : A) (Q : A -> State -> Prop) :
  (forall s, P s -> Q a s) -> hoare P (ret a) Q.
Proof. intros H s Hs. apply H, Hs. Qed.

Lemma hoare_bind (P : State -> Prop) (c : M A) (Q : A -> State -> Prop)
      (k : A -> M B) (R : B -> State -> Prop) :
  hoare P c Q -> (forall a, hoare (Q a) (k a) R) -> hoare P (bind c k) R.
Proof.
  intros Hc Hk s Hs. unfold bind. specialize (Hc s Hs).
  destruct (c s) as [a s']. apply Hk, Hc.
Qed.

Lemma hoare_conseq (P P' : State -> Prop) (c : M A) (Q Q' : A -> State -> Prop) :
  hoare P' c Q' -> (forall s, P s -> P' s) -> (forall a s, Q' a s -> Q a s) ->
  hoare P c Q.
Proof. intros Hc HP HQ s Hs. apply HQ, Hc, HP, Hs. Qed.

Lemma hoare_gets (P : State -> Prop) (f : State -> A) :
  hoare P (gets f) (fun a s => P s /\ a = f s).
Proof. intros s Hs. split; [exact Hs | reflexivity]. Qed.

End Hoare.

Lemma hoare_modify (P : State -> Prop) (f : State -> State) (Q : unit -> State -> Prop) :
  (forall s, P s -> Q tt (f s)) -> hoare P (modify f) Q.
Proof. intros H s Hs. apply H, Hs. Qed.

(** An invariant that looks at [sendStatuses] only survives the clock and the
    radio. *)
Lemma hoare_millis env (P : State -> Prop) :
  (forall s n l, P s ->
     P (mkState (peers s) (remoteFiles s) (sendStatuses s) (failedTransmissions s)
                (lastBroadcast s) n l)) ->
  hoare P (millis env) (fun _ => P).
Proof. intros H s Hs. apply H, Hs. Qed.

Lemma hoare_esp_now_send env f (P : State -> Prop) :
  (forall s n l, P s ->
     P (mkState (peers s) (remoteFiles s) (sendStatuses s) (failedTransmissions s)
                (lastBroadcast s) n l)) ->
  hoare P (esp_now_send env f) (fun _ => P).
Proof. intros H s Hs. apply H, Hs. Qed.

(** ** Invariants of [sendStatuses] under the scheduler *)

Section StatusInvariant.

Variable env : Env.
Variable phi : string -> SendStatus -> Prop.

Lemma all_status_insert key st s :
  all_status phi s -> phi key st -> all_status phi (set_sendStatuses (insert key st) s).
Proof.
  intros Hs Hphi k st' Hk. simpl in Hk. destruct (decide (key = k)) as [<-|Hne].
  - rewrite lookup_insert_eq in Hk. congruence.
  - rewrite lookup_insert_ne in Hk by exact Hne. apply (Hs k st' Hk).
Qed.

Lemma status_at_inv key :
  phi key default_status ->
  hoare (all_status phi) (status_at key)
        (fun st s => all_status phi s /\ sendStatuses s !! key = Some st).
Proof.
  intros Hd s Hs. unfold status_at, bind, gets, modify, ret. simpl.
  destruct (sendStatuses s !! key) as [st|] eqn:E; simpl.
  - split; [exact Hs | exact E].
  - split; [apply all_status_insert; assumption | apply lookup_insert_eq].
Qed.

Lemma set_lastTry_inv key t :
  phi key default_status ->
  (forall st, phi key st ->
     phi key {| success := success st; retryCount := retryCount st; lastTry := t |}) ->
  hoare (all_status phi) (set_lastTry key t) (fun _ => all_status phi).
Proof.
  intros Hd Ht. unfold set_lastTry.
  eapply hoare_bind; [apply status_at_inv, Hd|]. intros st.
  apply hoare_modify. intros s [Hs Hk]. apply all_status_insert; [exact Hs|].
  apply Ht, (Hs key st Hk).
Qed.

Lemma all_status_same s s' :
  sendStatuses s' = sendStatuses s -> all_status phi s -> all_status phi s'.
Proof. intros E Hs key st Hk. rewrite E in Hk. apply (Hs key st Hk). Qed.

Lemma phi_clock s n l :
  all_status phi s ->
  all_status phi (mkState (peers s) (remoteFiles s) (sendStatuses s) (failedTransmissions s)
                          (lastBroadcast s) n l).
Proof. apply all_status_same. reflexivity. Qed.

Lemma retry_loop_inv tickets :
  (forall t, t ∈ tickets ->
     phi (ticket_key t) default_status
     /\ forall st now, phi (ticket_key t) st ->
          phi (ticket_key t)
              {| success := success st; retryCount := retryCount st; lastTry := now |}) ->
  hoare (all_status phi) (retry_loop env tickets) (fun _ => all_status phi).
Proof.
  induction tickets as [|it rest IH]; intros Hts; simpl.
  - apply hoare_ret. auto.
  - assert (IH' : hoare (all_status phi) (retry_loop env rest) (fun _ => all_status phi)).
    { apply IH. intros t Ht. apply Hts. right. exact Ht. }
    destruct (Hts it) as [Hd Hl]; [left|]. fold (ticket_key it).
    assert (Hat : hoare (all_status phi) (status_at (ticket_key it)) (fun _ => all_status phi)).
    { eapply hoare_conseq; [apply status_at_inv, Hd | auto | intros a s [H _]; exact H]. }
    eapply hoare_bind; [exact Hat|]. intros st.
    destruct (retryCount st <? MAX_RETRY); [|exact IH'].
    eapply hoare_bind; [apply hoare_millis, phi_clock|]. intros now.
    eapply hoare_bind; [exact Hat|]. intros st'.
    destruct (100 <=? Word.usub now (lastTry st')).
    + eapply hoare_bind; [apply hoare_esp_now_send, phi_clock|]. intros rc.
      destruct (rc =? 0).
      * eapply hoare_bind; [apply hoare_millis, phi_clock|]. intros now'.
        eapply hoare_bind; [apply set_lastTry_inv; [exact Hd | intros st0; apply Hl]|].
        intros u. exact IH'.
      * eapply hoare_bind; [exact IH'|]. intros kept. apply hoare_ret. auto.
    + eapply hoare_bind; [exact IH'|]. intros kept. apply hoare_ret. auto.
Qed.

Hypothesis phi_fresh : forall now,
  phi (getMacString (WiFi_macAddress env)) {| success := false; retryCount := 0; lastTry := now |}.

Lemma fresh_loop_inv files :
  hoare (all_status phi) (fresh_loop env files) (fun _ => all_status phi).
Proof.
  induction files as [|[file uninit] rest IH]; simpl.
  - apply hoare_ret. auto.
  - eapply hoare_bind; [|intros u; exact IH].
    destruct (isAllowedFile (file_name file)); [|apply hoare_ret; auto].
    eapply hoare_bind; [apply hoare_esp_now_send, phi_clock|]. intros rc.
    destruct (negb (rc =? 0)); [|apply hoare_ret; auto].
    eapply hoare_bind;
      [apply (hoare_modify _ _ (fun _ => all_status phi)); intros s;
       apply all_status_same; reflexivity|].
    intros u. eapply hoare_bind; [apply hoare_millis, phi_clock|]. intros now.
    apply hoare_modify. intros s Hs. apply all_status_insert; [exact Hs | apply phi_fresh].
Qed.

End StatusInvariant.

(** ** Invariants of the retry queue *)

Lemma hoare_conj {A} (P P' : State -> Prop) (c : M A) (Q Q' : A -> State -> Prop) :
  hoare P c Q -> hoare P' c Q' ->
  hoare (fun s => P s /\ P' s) c (fun a s => Q a s /\ Q' a s).
Proof. intros H H' s [Hs Hs']. split; [apply H, Hs | apply H', Hs']. Qed.

Lemma hoare_true {A} (P : State -> Prop) (c : M A) : hoare P c (fun _ _ => True).
Proof. intros s _. exact I. Qed.

(** The retry loop only removes tickets. *)
Lemma retry_loop_kept env tickets :
  hoare (fun _ => True) (retry_loop env tickets)
        (fun kept _ => forall t, t ∈ kept -> t ∈ tickets).
Proof.
  induction tickets as [|it rest IH]; simpl.
  - apply hoare_ret. intros s _ t Ht. exact Ht.
  - assert (Hdrop : hoare (fun _ => True) (retry_loop env rest)
                          (fun kept _ => forall t, t ∈ kept -> t ∈ it :: rest)).
    { eapply hoare_conseq; [exact IH | auto |]. intros kept s H t Ht. right. auto. }
    assert (Hkeep : hoare (fun _ => True)
                          (do kept <- retry_loop env rest; ret (it :: kept))
                          (fun kept _ => forall t, t ∈ kept -> t ∈ it :: rest)).
    { eapply hoare_bind; [exact IH|]. intros kept. apply hoare_ret.
      intros s H t Ht. apply elem_of_cons in Ht. destruct Ht as [->|Ht]; [left | right; auto]. }
    eapply hoare_bind; [apply hoare_true|]. intros st. simpl.
    destruct (retryCount st <? MAX_RETRY); [|exact Hdrop].
    eapply hoare_bind; [apply hoare_true|]. intros now. simpl.
    eapply hoare_bind; [apply hoare_true|]. intros st'. simpl.
    destruct (100 <=? Word.usub now (lastTry st')); [|exact Hkeep].
    eapply hoare_bind; [apply hoare_true|]. intros rc. simpl.
    destruct (rc =? 0); [|exact Hkeep].
    eapply hoare_bind; [apply hoare_true|]. intros now'. simpl.
    eapply hoare_bind; [apply hoare_true|]. intros u. exact Hdrop.
Qed.

Lemma tickets_local_same env s s' :
  failedTransmissions s' = failedTransmissions s -> tickets_local env s -> tickets_local env s'.
Proof. intros E Hs t Ht. rewrite E in Ht. apply (Hs t Ht). Qed.

Lemma fresh_loop_tickets env files :
  hoare (tickets_local env) (fresh_loop env files) (fun _ => tickets_local env).
Proof.
  induction files as [|[file uninit] rest IH]; simpl.
  - apply hoare_ret. auto.
  - eapply hoare_bind; [|intros u; exact IH].
    destruct (isAllowedFile (file_name file)); [|apply hoare_ret; auto].
    eapply hoare_bind;
      [apply hoare_esp_now_send; intros s n l; apply tickets_local_same; reflexivity|].
    intros rc. destruct (negb (rc =? 0)); [|apply hoare_ret; auto].
    eapply hoare_bind.
    { apply (hoare_modify _ _ (fun _ => tickets_local env)). intros s Hs t Ht. simpl in Ht.
      apply elem_of_app in Ht. destruct Ht as [Ht|Ht]; [apply (Hs t Ht)|].
      apply list_elem_of_singleton in Ht. subst t. reflexivity. }
    intros u. eapply hoare_bind;
      [apply hoare_millis; intros s n l; apply tickets_local_same; reflexivity|].
    intros now. apply hoare_modify. intros s. apply tickets_local_same. reflexivity.
Qed.

Section QueueInvariant.

Variable env : Env.
Variable phi : string -> SendStatus -> Prop.

Let self : string := getMacString (WiFi_macAddress env).

Hypothesis phi_default : phi self default_status.
Hypothesis phi_lastTry : forall st now,
  phi self st -> phi self {| success := success st; retryCount := retryCount st; lastTry := now |}.
Hypothesis phi_fresh : forall now,
  phi self {| success := false; retryCount := 0; lastTry := now |}.

Lemma retry_phase_inv : hoare (queue_inv env phi) (retry_phase env) (fun _ => (queue_inv env phi)).
Proof.
  intros s [Ht Hs]. unfold retry_phase, bind, gets, modify. simpl.
  assert (Hinv : all_status phi (retry_loop env (failedTransmissions s) s).2).
  { apply (retry_loop_inv env phi (failedTransmissions s)); [|exact Hs].
    intros t Hin. unfold ticket_key. rewrite (Ht t Hin). split; [exact phi_default|].
    intros st now. apply phi_lastTry. }
  pose proof (retry_loop_kept env (failedTransmissions s) s I) as Hkept.
  destruct (retry_loop env (failedTransmissions s) s) as [kept s']. simpl in *.
  split; [|exact Hinv]. intros t Hin. apply Ht, Hkept, Hin.
Qed.

Lemma broadcastFiles_inv root : hoare (queue_inv env phi) (broadcastFiles env root) (fun _ => (queue_inv env phi)).
Proof.
  unfold broadcastFiles. eapply hoare_bind; [apply retry_phase_inv|]. intros u.
  destruct root as [files|]; simpl; [|apply hoare_ret; auto].
  apply hoare_conj; [apply fresh_loop_tickets | apply fresh_loop_inv, phi_fresh].
Qed.

Lemma updateNodeLinking_inv root :
  hoare (queue_inv env phi) (updateNodeLinking env root) (fun _ => (queue_inv env phi)).
Proof.
  assert (Hsame : forall s s', failedTransmissions s' = failedTransmissions s ->
                    sendStatuses s' = sendStatuses s -> (queue_inv env phi) s -> (queue_inv env phi) s').
  { intros s s' E1 E2 [Ht Hs].
    split; [eapply tickets_local_same | eapply all_status_same]; eassumption. }
  unfold updateNodeLinking.
  eapply hoare_bind; [apply hoare_millis; intros s n l; apply Hsame; reflexivity|].
  intros currentTime. eapply hoare_bind.
  { apply (hoare_modify _ _ (fun _ => (queue_inv env phi))). intros s. apply Hsame; reflexivity. }
  intros u. eapply hoare_bind; [apply hoare_gets|]. intros last.
  destruct (BROADCAST_INTERVAL <=? Word.usub currentTime last).
  - eapply hoare_bind.
    + eapply hoare_conseq; [apply (broadcastFiles_inv root) | intros s [H _]; exact H |].
      intros a s H. exact H.
    + intros u'. apply hoare_modify. intros s. apply Hsame; reflexivity.
  - apply hoare_ret. intros s [H _]. exact H.
Qed.

End QueueInvariant.

(** ** One status record for all tickets *)

Lemma onDataReceived_sched env addr data len s :
  let s' := exec (onDataReceived env addr data len) s in
  failedTransmissions s' = failedTransmissions s /\ sendStatuses s' = sendStatuses s.
Proof.
  destruct (Z.eq_dec len sizeof_SharedFile) as [->|Hne].
  - rewrite onDataReceived_exec. split; reflexivity.
  - rewrite onDataReceived_drop by exact Hne. split; reflexivity.
Qed.

(** What the send callback does to [sendStatuses]. *)
Lemma onDataSent_exec mac_addr sendStatus s :
  exec (onDataSent mac_addr sendStatus) s
  = match sendStatuses s !! getMacString mac_addr with
    | Some st =>
        if sendStatus =? 0 then s
        else set_sendStatuses
               (insert (getMacString mac_addr)
                  {| success := false; retryCount := Word.s32 (retryCount st + 1);
                     lastTry := lastTry st |}) s
    | None => s
    end.
Proof.
  unfold onDataSent, exec, bind, gets, modify, ret.
  destruct (sendStatus =? 0); simpl; destruct (sendStatuses s !! getMacString mac_addr);
    reflexivity.
Qed.

Lemma step_single_status env s ev :
  queue_inv env (fun key _ => key = getMacString (WiFi_macAddress env)) s ->
  queue_inv env (fun key _ => key = getMacString (WiFi_macAddress env)) (step env s ev).
Proof.
  intros Hs. destruct ev as [addr data len|mac_addr sendStatus|root]; unfold step, handle.
  - destruct (onDataReceived_sched env addr data len s) as [E1 E2]. destruct Hs as [Ht Hm].
    split; [eapply tickets_local_same | eapply all_status_same]; eassumption.
  - rewrite onDataSent_exec. destruct Hs as [Ht Hm].
    destruct (sendStatuses s !! getMacString mac_addr) as [st|] eqn:E; [|split; assumption].
    destruct (sendStatus =? 0); [split; assumption|].
    split; [exact Ht|]. apply all_status_insert; [exact Hm|]. apply (Hm _ _ E).
  - apply updateNodeLinking_inv; auto.
Qed.

Lemma run_single_status env evs :
  queue_inv env (fun key _ => key = getMacString (WiFi_macAddress env))
            (run env evs init_state).
Proof.
  apply run_invariant.
  - intros s ev. apply step_single_status.
  - split; [intros t Ht; inversion Ht | intros key st Hk; simpl in Hk].
    rewrite lookup_empty in Hk. discriminate.
Qed.

(** C10. The scheduler files the status of a ticket under the MAC string of the
    ticket's source node; the record it builds for a local file has this node's
    address there, so in every state the node reaches every queued ticket has
    the same key, [sendStatuses] holds no record under any other key, and any
    two tickets read the same record. *)
Theorem single_status_record env evs :
  let s := run env evs init_state in
  let self := getMacString (WiFi_macAddress env) in
  (forall file uninit, ticket_key (local_record env file uninit) = self)
  /\ (forall t, t ∈ failedTransmissions s ->
        sourceNode t = WiFi_macAddress env /\ ticket_key t = self)
  /\ (forall key st, sendStatuses s !! key = Some st -> key = self)
  /\ dom (sendStatuses s) ⊆ {[ self ]}
  /\ (forall t1 t2, t1 ∈ failedTransmissions s -> t2 ∈ failedTransmissions s ->
        sendStatuses s !! ticket_key t1 = sendStatuses s !! ticket_key t2).
Proof.
  intros s self. destruct (run_single_status env evs) as [Ht Hm]. fold s in Ht, Hm.
  assert (Hkey : forall t, t ∈ failedTransmissions s ->
            sourceNode t = WiFi_macAddress env /\ ticket_key t = self).
  { intros t Hin. split; [apply Ht, Hin|]. unfold ticket_key. rewrite (Ht t Hin). reflexivity. }
  split; [reflexivity|]. split; [exact Hkey|]. split; [exact Hm|]. split.
  - intros key Hin. apply elem_of_dom in Hin. destruct Hin as [st Hst].
    apply elem_of_singleton. apply (Hm key st Hst).
  - intros t1 t2 H1 H2. destruct (Hkey t1 H1) as [_ ->], (Hkey t2 H2) as [_ ->]. reflexivity.
Qed.

(** ** The retry budget *)








Lemma hoare_pure {A} (P : State -> Prop) (fact : Prop) (c : M A) (Q : A -> State -> Prop) :
  (forall s, P s -> fact) -> (fact -> hoare P c Q) -> hoare P c Q.
Proof. intros Hf Hc s Hs. apply (Hc (Hf s Hs)), Hs. Qed.







(** ** Failed resends are not counted *)

(** While the radio refuses every send, the retry loop leaves every status
    record it finds exactly as it is: no count, no time of last attempt. *)
Lemma retry_loop_refused env (m0 : gmap string SendStatus) tickets :
  (forall n, esp_now_send_rc env n <> 0) ->
  hoare (fun s => m0 ⊆ sendStatuses s) (retry_loop env tickets)
        (fun _ s => m0 ⊆ sendStatuses s).
Proof.
  intros Hdown.
  assert (Hat : forall key, hoare (fun s => m0 ⊆ sendStatuses s) (status_at key)
                                  (fun _ s => m0 ⊆ sendStatuses s)).
  { intros key s Hs. unfold status_at, bind, gets, modify, ret. simpl.
    destruct (sendStatuses s !! key) as [st|] eqn:E; simpl; [exact Hs|].
    apply insert_subseteq_r; [|exact Hs]. apply (lookup_weaken_None _ _ _ E Hs). }
  induction tickets as [|it rest IH]; simpl.
  - apply hoare_ret. auto.
  - eapply hoare_bind; [apply Hat|]. intros st.
    destruct (retryCount st <? MAX_RETRY); [|exact IH].
    eapply hoare_bind; [apply (hoare_millis env (fun s => m0 ⊆ sendStatuses s)); auto|].
    intros now. eapply hoare_bind; [apply Hat|]. intros st'.
    assert (Hkeep : hoare (fun s => m0 ⊆ sendStatuses s)
                          (do kept <- retry_loop env rest; ret (it :: kept))
                          (fun _ s => m0 ⊆ sendStatuses s)).
    { eapply hoare_bind; [exact IH|]. intros kept. apply hoare_ret. auto. }
    destruct (100 <=? Word.usub now (lastTry st')); [|exact Hkeep].
    intros s Hs. unfold bind at 1. unfold esp_now_send at 1.
    destruct (esp_now_send_rc env (length (tx_log s)) =? 0) eqn:E.
    + apply Z.eqb_eq in E. destruct (Hdown _ E).
    + apply Hkeep. exact Hs.
Qed.

(** C6 fails on the code where a resend fails.  The book of the first tick
    cannot be sent; over the next five ticks the ticket is resent every time
    and refused every time, and the failure callback for the broadcast address
    fires every time: the ticket is still queued, its count is still zero and
    its last attempt is still that of the first tick. *)
Theorem failed_resend_not_counted :
  let s1 := run radio_down [LoopPass one_book] init_state in
  let s2 := run radio_down five_failed_retries s1 in
  failedTransmissions s1 = [book_record]
  /\ tx_log s1 = [book_record]
  /\ sendStatuses s1 !! ticket_key book_record
     = Some {| success := false; retryCount := 0; lastTry := 3000 |}
  /\ tx_log s2 = replicate 6 book_record
  /\ failedTransmissions s2 = [book_record]
  /\ sendStatuses s2 !! ticket_key book_record
     = Some {| success := false; retryCount := 0; lastTry := 3000 |}.
Proof.
  intros s1 s2. repeat split; vm_compute; reflexivity.
Qed.

(** * Further properties of the node-linking core *)

(** ** The directory loop of [broadcastFiles] *)

Lemma exec_bind {A B} (c : M A) (k : A -> M B) s :
  exec (bind c k) s = exec (k (c s).1) (c s).2.
Proof. unfold exec, bind. destruct (c s) as [a s']. reflexivity. Qed.

(** One turn of the directory loop. *)
Lemma fresh_turn_effect env file uninit s :
  let body :=
    (if isAllowedFile (file_name file) then
       let sharedFile := local_record env file uninit in
       do rc <- esp_now_send env sharedFile;
       if negb (rc =? 0) then
         modify (set_failedTransmissions (fun v => v ++ [sharedFile])) ;;
         let macStr := getMacString (sourceNode sharedFile) in
         do now <- millis env;
         modify (set_sendStatuses
           (insert macStr {| success := false; retryCount := 0; lastTry := now |}))
       else ret tt
     else ret tt) in
  let s1 := (body s).2 in
  let r := local_record env file uninit in
  if isAllowedFile (file_name file) then
    tx_log s1 = tx_log s ++ [r]
    /\ if esp_now_send_rc env (length (tx_log s)) =? 0
       then failedTransmissions s1 = failedTransmissions s
            /\ sendStatuses s1 = sendStatuses s
       else failedTransmissions s1 = failedTransmissions s ++ [r]
            /\ exists t, sendStatuses s1
                         = <[getMacString (WiFi_macAddress env) :=
                               {| success := false; retryCount := 0; lastTry := t |}]>
                             (sendStatuses s)
  else s1 = s.
Proof.
  intros body s1 r. subst body s1.
  destruct (isAllowedFile (file_name file)); [|reflexivity].
  unfold bind, esp_now_send, millis, modify, ret. simpl.
  destruct (esp_now_send_rc env (length (tx_log s)) =? 0); simpl.
  - repeat split.
  - repeat split. eexists. reflexivity.
Qed.

Lemma fresh_loop_effect env files s :
  let s' := exec (fresh_loop env files) s in
  let recs := advertised env files in
  tx_log s' = tx_log s ++ recs
  /\ failedTransmissions s' = failedTransmissions s ++ refused env (length (tx_log s)) recs
  /\ match refused env (length (tx_log s)) recs with
     | [] => sendStatuses s' = sendStatuses s
     | _ :: _ =>
         exists t, sendStatuses s'
                   = <[getMacString (WiFi_macAddress env) :=
                         {| success := false; retryCount := 0; lastTry := t |}]> (sendStatuses s)
     end.
Proof.
  revert s. induction files as [|[file uninit] rest IH]; intros s.
  - simpl. rewrite !app_nil_r. repeat split.
  - unfold advertised. cbn [fresh_loop List.filter fst snd map]. rewrite exec_bind.
    pose proof (fresh_turn_effect env file uninit s) as Hturn.
    cbv zeta in Hturn.
    match goal with |- context [exec (fresh_loop env rest) ?s0] =>
      set (s1 := s0) in *; specialize (IH s1) end.
    repeat match type of Hturn with
           | context [(?b s).2] => change ((b s).2) with s1 in Hturn
           end.
    cbv zeta in IH. destruct IH as (H1 & H2 & H3). fold (advertised env rest).
    destruct (isAllowedFile (file_name file)) eqn:Ea.
    + destruct Hturn as [Hlog Hq]. cbn [map refused].
      rewrite Hlog in H1, H2, H3. rewrite length_app in H2, H3. simpl in H2, H3.
      replace (length (tx_log s) + 1)%nat with (S (length (tx_log s))) in H2, H3 by lia.
      rewrite H1, <- app_assoc. split; [reflexivity|].
      destruct (esp_now_send_rc env (length (tx_log s)) =? 0).
      * destruct Hq as [Hq Hm]. rewrite H2, Hq. split; [reflexivity|].
        rewrite Hm in H3. exact H3.
      * destruct Hq as [Hq [t Hm]]. rewrite H2, Hq, <- app_assoc. split; [reflexivity|].
        destruct (refused env (S (length (tx_log s))) (advertised env rest)).
        -- exists t. rewrite H3. exact Hm.
        -- destruct H3 as [t' H3]. exists t'. rewrite H3, Hm, insert_insert_eq. reflexivity.
    + rewrite Hturn in H1, H2, H3. split; [exact H1|]. split; [exact H2 | exact H3].
Qed.

(** X1. The directory loop hands one record to the radio for every entry with
    an allowed name, in directory order and whatever the radio answers, and
    queues exactly the records the radio refuses, in that order. *)
Theorem fresh_phase_sends_every_allowed_file env files s :
  let s' := exec (fresh_phase env (Some files)) s in
  tx_log s' = tx_log s ++ advertised env files
  /\ failedTransmissions s'
     = failedTransmissions s ++ refused env (length (tx_log s)) (advertised env files).
Proof.
  intros s'. destruct (fresh_loop_effect env files s) as (H1 & H2 & _).
  split; [exact H1 | exact H2].
Qed.

(** X2. A refused fresh send starts the count again: if the radio refuses one
    of the records of the directory loop, the status record of this node
    comes out of the loop with [retryCount] zero, whatever it had counted. *)
Theorem fresh_failure_resets_count env files s :
  refused env (length (tx_log s)) (advertised env files) <> [] ->
  exists t,
    sendStatuses (exec (fresh_phase env (Some files)) s)
      !! getMacString (WiFi_macAddress env)
    = Some {| success := false; retryCount := 0; lastTry := t |}.
Proof.
  intros Hne. destruct (fresh_loop_effect env files s) as (_ & _ & H3).
  destruct (refused env (length (tx_log s)) (advertised env files)); [congruence|].
  destruct H3 as [t H3]. exists t. simpl. rewrite H3. apply lookup_insert_eq.
Qed.

Lemma fresh_failure_resets_count_witness :
  let s := run radio_down budget_used_up init_state in
  refused radio_down (length (tx_log s)) (advertised radio_down book_shelf) <> []
  /\ exhausted s (getMacString node_self)
  /\ exists t,
       sendStatuses (exec (fresh_phase radio_down (Some book_shelf)) s)
         !! getMacString node_self
       = Some {| success := false; retryCount := 0; lastTry := t |}.
Proof.
  intros s.
  assert (Hne : refused radio_down (length (tx_log s)) (advertised radio_down book_shelf) <> [])
    by (vm_compute; discriminate).
  split; [exact Hne|]. split.
  - exists {| success := false; retryCount := 3; lastTry := 3000 |}.
    split; [vm_compute; reflexivity | unfold MAX_RETRY; simpl; lia].
  - exact (fresh_failure_resets_count radio_down book_shelf s Hne).
Defined.

(** ** A radio that accepts everything *)

Lemma retry_phase_empty env s :
  failedTransmissions s = [] -> exec (retry_phase env) s = s.
Proof.
  intros E. unfold retry_phase, exec, bind, gets, modify. simpl. rewrite E. simpl.
  destruct s. simpl in *. subst. reflexivity.
Qed.

Lemma refused_radio_up env n recs : radio_up env -> refused env n recs = [].
Proof.
  intros Hup. revert n. induction recs as [|r recs IH]; intros n; simpl; [reflexivity|].
  rewrite Hup. simpl. apply IH.
Qed.

Lemma updateNodeLinking_radio_up env root :
  radio_up env ->
  hoare (fun s => failedTransmissions s = [] /\ sendStatuses s = ∅)
        (updateNodeLinking env root)
        (fun _ s => failedTransmissions s = [] /\ sendStatuses s = ∅).
Proof.
  intros Hup. unfold updateNodeLinking.
  eapply hoare_bind; [apply hoare_millis; intros s n l H; exact H|]. intros currentTime.
  eapply hoare_bind.
  { apply (hoare_modify _ _ (fun _ s => failedTransmissions s = [] /\ sendStatuses s = ∅)).
    intros s H. exact H. }
  intros u. eapply hoare_bind; [apply hoare_gets|]. intros last.
  destruct (BROADCAST_INTERVAL <=? Word.usub currentTime last).
  - eapply hoare_bind with (Q := fun _ s => failedTransmissions s = [] /\ sendStatuses s = ∅).
    + unfold broadcastFiles.
      eapply hoare_bind with (Q := fun _ s => failedTransmissions s = [] /\ sendStatuses s = ∅).
      * intros s [[Hq Hm] _].
        pose proof (retry_phase_empty env s Hq) as Hr. unfold exec in Hr. rewrite Hr. auto.
      * intros u'. destruct root as [files|]; [|apply hoare_ret; auto].
        intros s [Hq Hm]. destruct (fresh_loop_effect env files s) as (_ & H2 & H3).
        rewrite (refused_radio_up env _ _ Hup) in H2, H3. rewrite app_nil_r in H2.
        unfold exec in H2, H3. simpl. rewrite H2, H3. auto.
    + intros u'. apply hoare_modify. intros s H. exact H.
  - apply hoare_ret. intros s [H _]. exact H.
Qed.

Lemma step_radio_up env s ev :
  radio_up env ->
  failedTransmissions s = [] /\ sendStatuses s = ∅ ->
  failedTransmissions (step env s ev) = [] /\ sendStatuses (step env s ev) = ∅.
Proof.
  intros Hup [Hq Hm]. destruct ev as [addr data len|mac_addr sendStatus|root]; unfold step, handle.
  - destruct (onDataReceived_sched env addr data len s) as [E1 E2]. rewrite E1, E2. auto.
  - rewrite onDataSent_exec, Hm, lookup_empty. auto.
  - apply (updateNodeLinking_radio_up env root Hup s). auto.
Qed.

(** X3. While the radio accepts every send, no ticket is ever queued and no
    status record is ever created: in every state the node reaches the retry
    queue and [sendStatuses] are empty, and every scheduler tick sends the
    local files and nothing else. *)
Theorem radio_up_leaves_no_ticket env evs :
  radio_up env ->
  let s := run env evs init_state in
  failedTransmissions s = [] /\ sendStatuses s = ∅
  /\ forall files, tx_log (exec (broadcastFiles env (Some files)) s)
                   = tx_log s ++ advertised env files.
Proof.
  intros Hup s.
  assert (H : failedTransmissions s = [] /\ sendStatuses s = ∅).
  { apply (run_invariant env (fun s => failedTransmissions s = [] /\ sendStatuses s = ∅)).
    - intros s0 ev. apply step_radio_up, Hup.
    - split; reflexivity. }
  destruct H as [Hq Hm]. split; [exact Hq|]. split; [exact Hm|].
  intros files. unfold broadcastFiles. rewrite exec_bind.
  pose proof (retry_phase_empty env s Hq) as Hr. unfold exec in Hr. rewrite Hr.
  destruct (fresh_loop_effect env files s) as (H1 & _ & _). exact H1.
Qed.

Lemma radio_up_leaves_no_ticket_witness :
  radio_up busy_air
  /\ let s := run busy_air [LoopPass one_book; Received node_A notes_datagram 76;
                            LoopPass one_book; LoopPass one_book] init_state in
     failedTransmissions s = [] /\ sendStatuses s = ∅.
Proof.
  assert (Hup : radio_up busy_air) by (intros n; reflexivity).
  split; [exact Hup|]. intros s.
  destruct (radio_up_leaves_no_ticket busy_air
              [LoopPass one_book; Received node_A notes_datagram 76;
               LoopPass one_book; LoopPass one_book] Hup) as (H1 & H2 & _).
  split; [exact H1 | exact H2].
Defined.

(** ** The registry and the catalog over a run *)

(** X4. In every state the node reaches the registry holds at most one record
    for an address: two positions of [peers] never carry the same [mac]. *)
Theorem registry_one_record_per_address env evs :
  let s := run env evs init_state in
  NoDup (map mac (peers s))
  /\ forall i j P Q,
       peers s !! i = Some P -> peers s !! j = Some Q -> mac P = mac Q -> i = j.
Proof.
  intros s. pose proof (run_macs_nodup env evs) as Hnd. fold s in Hnd.
  split; [exact Hnd|]. intros i j P Q Hi Hj E.
  apply (NoDup_lookup _ i j (mac P) Hnd); rewrite list_lookup_fmap.
  - rewrite Hi. reflexivity.
  - rewrite Hj, E. reflexivity.
Qed.

(** X5. Nothing ever leaves the catalog: whatever events follow, a key that is
    stored stays stored and the catalog never gets shorter.  No bound limits
    its length. *)
Theorem catalog_entries_persist env s evs k :
  k ∈ map file_key (remoteFiles s) ->
  k ∈ map file_key (remoteFiles (run env evs s))
  /\ (length (remoteFiles s) <= length (remoteFiles (run env evs s)))%nat.
Proof.
  revert s. induction evs as [|ev evs IH]; intros s Hk; simpl; [split; [exact Hk | lia]|].
  assert (Hstep : k ∈ map file_key (remoteFiles (step env s ev))
                  /\ (length (remoteFiles s) <= length (remoteFiles (step env s ev)))%nat).
  { rewrite step_remoteFiles. destruct ev as [addr data len| |]; try (split; [exact Hk | lia]).
    destruct (len =? sizeof_SharedFile); [|split; [exact Hk | lia]].
    split; [apply merge_file_keeps_keys, Hk | apply merge_file_grows]. }
  destruct Hstep as [Hk' Hlen]. destruct (IH _ Hk') as [H1 H2]. split; [exact H1 | lia].
Qed.

Lemma catalog_entries_persist_witness :
  let s := run radio_down [Received node_A notes_datagram 76] init_state in
  file_key notes_record ∈ map file_key (remoteFiles s)
  /\ file_key notes_record
       ∈ map file_key (remoteFiles (run radio_down (silent_peer_run ++ [LoopPass None]) s)).
Proof.
  intros s.
  assert (Hk : file_key notes_record ∈ map file_key (remoteFiles s)) by (vm_compute; left).
  split; [exact Hk|].
  exact (proj1 (catalog_entries_persist radio_down s (silent_peer_run ++ [LoopPass None]) _ Hk)).
Defined.

(** ** Keys of [sendStatuses] *)

Lemma hex02X_length b rest : String.length (hex02X b rest) = S (S (String.length rest)).
Proof. reflexivity. Qed.

(** X6. [getMacString] writes seventeen characters, which with the terminator
    fill [macStr[18]] exactly, and two addresses get the same string only if
    they are the same address: status records of different addresses never
    share a key. *)
Theorem getMacString_key (a b : MacAddr) :
  String.length (getMacString a) = 17%nat
  /\ (getMacString a = getMacString b <-> a = b).
Proof.
  split; [reflexivity|].
  split; [apply getMacString_inj | intros ->; reflexivity].
Qed.

(** ** The wire format *)

Lemma byteZ_of_N v :
  0 <= v < 256 -> byteZ (default x00 (Byte.of_N (Z.to_N v))) = v.
Proof.
  intros Hv. pose proof (Byte.to_of_N_option_map (Z.to_N v)) as H.
  assert (Hle : (Z.to_N v <=? 255)%N = true) by (apply N.leb_le; lia).
  rewrite Hle in H. destruct (Byte.of_N (Z.to_N v)) as [b|]; [|discriminate].
  simpl in H. injection H as H. unfold byteZ. simpl. rewrite H. lia.
Qed.

Lemma byteZ_range b : 0 <= byteZ b < 256.
Proof. unfold byteZ. pose proof (Byte.to_N_bounded b). lia. Qed.

Lemma of_N_byteZ b : default x00 (Byte.of_N (Z.to_N (byteZ b))) = b.
Proof. unfold byteZ. rewrite N2Z.id, Byte.of_to_N. reflexivity. Qed.

Lemma le_uint_le_bytes4 z : 0 <= z < Word.modulus -> le_uint (le_bytes4 z) = z.
Proof.
  unfold Word.modulus. intros Hz. unfold le_bytes4. simpl.
  rewrite !byteZ_of_N by (apply Z.mod_pos_bound; lia).
  change (256 ^ 0) with 1. change (256 ^ 1) with 256.
  change (256 ^ 2) with 65536. change (256 ^ 3) with 16777216.
  change (2 ^ 32) with 4294967296 in Hz.
  rewrite Z.div_1_r. Z.div_mod_to_equations. lia.
Qed.

Lemma le_bytes4_le_uint bs : length bs = 4%nat -> le_bytes4 (le_uint bs) = bs.
Proof.
  destruct bs as [|b0 [|b1 [|b2 [|b3 [|]]]]]; try discriminate. intros _.
  unfold le_bytes4. simpl.
  change (256 ^ Z.of_nat 0) with 1. change (256 ^ Z.of_nat 1) with 256.
  change (256 ^ Z.of_nat 2) with 65536. change (256 ^ Z.of_nat 3) with 16777216.
  pose proof (byteZ_range b0). pose proof (byteZ_range b1).
  pose proof (byteZ_range b2). pose proof (byteZ_range b3).
  set (z := byteZ b0 + 256 * (byteZ b1 + 256 * (byteZ b2 + 256 * (byteZ b3 + 256 * 0)))).
  assert (E0 : (z / 1) mod 256 = byteZ b0) by (subst z; Z.div_mod_to_equations; lia).
  assert (E1 : (z / 256) mod 256 = byteZ b1) by (subst z; Z.div_mod_to_equations; lia).
  assert (E2 : (z / 65536) mod 256 = byteZ b2) by (subst z; Z.div_mod_to_equations; lia).
  assert (E3 : (z / 16777216) mod 256 = byteZ b3) by (subst z; Z.div_mod_to_equations; lia).
  rewrite E0, E1, E2, E3, !of_N_byteZ. reflexivity.
Qed.

Lemma mac_of_bytes_mac_bytes m : mac_of_bytes (mac_bytes m) = m.
Proof. destruct m. reflexivity. Qed.

Lemma mac_bytes_mac_of_bytes bs : length bs = 6%nat -> mac_bytes (mac_of_bytes bs) = bs.
Proof.
  destruct bs as [|b0 [|b1 [|b2 [|b3 [|b4 [|b5 [|]]]]]]]; try discriminate. reflexivity.
Qed.

Lemma padded_length (l : list byte) :
  length (take 32 (l ++ replicate 32 x00)) = 32%nat.
Proof. rewrite length_take, length_app, length_replicate. lia. Qed.

Lemma encode_length f : length (encode_SharedFile f) = 76%nat.
Proof.
  unfold encode_SharedFile. rewrite !length_app, !padded_length. reflexivity.
Qed.

Lemma decode_encode f : record_wf f -> decode_SharedFile (encode_SharedFile f) = f.
Proof.
  intros (Hf & Hs & Hz). unfold encode_SharedFile, decode_SharedFile, slice.
  rewrite (take_app_length' (filename f)) by (symmetry; exact Hf).
  rewrite (take_app_length' (nodeSSID f)) by (symmetry; exact Hs).
  destruct f as [fn sz src ssid]. cbn [filename filesize sourceNode nodeSSID] in *.
  rewrite drop_0.
  assert (H4 : length (le_bytes4 sz) = 4%nat) by reflexivity.
  assert (H6 : length (mac_bytes src) = 6%nat) by reflexivity.
  f_equal.
  - rewrite take_app_length' by (symmetry; exact Hf). reflexivity.
  - rewrite drop_app_length' by (symmetry; exact Hf).
    rewrite take_app_length' by (symmetry; exact H4). apply le_uint_le_bytes4, Hz.
  - replace 36%nat with (length fn + 4)%nat by lia. rewrite drop_app_add.
    rewrite drop_app_length' by (symmetry; exact H4).
    rewrite take_app_length' by (symmetry; exact H6). apply mac_of_bytes_mac_bytes.
  - replace 42%nat with (length fn + 10)%nat by lia. rewrite drop_app_add.
    replace 10%nat with (length (le_bytes4 sz) + 6)%nat by lia. rewrite drop_app_add.
    rewrite drop_app_length' by (symmetry; exact H6).
    rewrite take_app_length' by (symmetry; exact Hs). reflexivity.
Qed.

Lemma slice_length off n buf :
  (off + n <= length buf)%nat -> length (slice off n buf) = n.
Proof. intros H. unfold slice. rewrite length_take, length_drop. lia. Qed.

Lemma slice_next off n m buf :
  slice off n buf ++ slice (off + n) m buf = slice off (n + m) buf.
Proof. unfold slice. rewrite <- drop_drop. apply take_take_drop. Qed.

Lemma le_uint_range bs : 0 <= le_uint bs < 256 ^ Z.of_nat (length bs).
Proof.
  induction bs as [|b bs IH]; [simpl; lia|].
  cbn [le_uint length]. rewrite Nat2Z.inj_succ, Z.pow_succ_r by lia.
  pose proof (byteZ_range b). lia.
Qed.

Lemma decode_wf data : length data = 76%nat -> record_wf (decode_SharedFile data).
Proof.
  intros Hlen. unfold record_wf, decode_SharedFile. cbn [filename filesize nodeSSID].
  rewrite !slice_length by lia. split; [reflexivity|]. split; [reflexivity|].
  pose proof (le_uint_range (slice 32 4 data)) as H. rewrite slice_length in H by lia.
  exact H.
Qed.

Lemma take_full n (l k : list byte) : length l = n -> take n (l ++ k) = l.
Proof. intros H. apply take_app_length'. symmetry. exact H. Qed.

Lemma encode_decode data :
  length data = 76%nat ->
  take 74 (encode_SharedFile (decode_SharedFile data)) = take 74 data.
Proof.
  intros Hlen. unfold encode_SharedFile, decode_SharedFile.
  cbn [filename filesize sourceNode nodeSSID].
  rewrite !(take_full 32) by (apply slice_length; lia).
  rewrite le_bytes4_le_uint by (apply slice_length; lia).
  rewrite mac_bytes_mac_of_bytes by (apply slice_length; lia).
  pose proof (slice_next 0 32 4 data) as E1.
  pose proof (slice_next 0 36 6 data) as E2.
  pose proof (slice_next 0 42 32 data) as E3.
  cbn [Nat.add] in E1, E2, E3.
  replace (slice 0 32 data ++ slice 32 4 data ++ slice 36 6 data ++ slice 42 32 data
           ++ [x00; x00])
    with (slice 0 74 data ++ [x00; x00])
    by (rewrite <- E3, <- E2, <- E1, <- !app_assoc; reflexivity).
  rewrite (take_full 74) by (apply slice_length; lia).
  unfold slice. rewrite drop_0. reflexivity.
Qed.

(** X7. The record and its datagram determine each other.  The datagram of a
    record has the size of the structure; a record whose arrays are full and
    whose size is a [size_t] is what [memcpy] reads back from its datagram;
    and a datagram of that size decodes to such a record, whose datagram is
    the one received up to the two padding bytes. *)
Theorem wire_round_trip :
  (forall f, Z.of_nat (length (encode_SharedFile f)) = sizeof_SharedFile)
  /\ (forall f, record_wf f -> decode_SharedFile (encode_SharedFile f) = f)
  /\ (forall data, Z.of_nat (length data) = sizeof_SharedFile ->
        record_wf (decode_SharedFile data)
        /\ take 74 (encode_SharedFile (decode_SharedFile data)) = take 74 data).
Proof.
  split; [intros f; rewrite encode_length; reflexivity|].
  split; [exact decode_encode|].
  intros data Hlen. assert (length data = 76%nat) by (unfold sizeof_SharedFile in Hlen; lia).
  split; [apply decode_wf | apply encode_decode]; assumption.
Qed.

Lemma wire_round_trip_witness :
  record_wf (decode_SharedFile notes_datagram)
  /\ decode_SharedFile (encode_SharedFile (decode_SharedFile notes_datagram))
     = decode_SharedFile notes_datagram
  /\ take 74 (encode_SharedFile (decode_SharedFile notes_datagram)) = take 74 notes_datagram.
Proof.
  destruct wire_round_trip as (Hlen & Hde & Hed).
  assert (H76 : Z.of_nat (length notes_datagram) = sizeof_SharedFile) by apply Hlen.
  destruct (Hed notes_datagram H76) as [Hwf Htake].
  split; [exact Hwf|]. split; [apply Hde, Hwf | exact Htake].
Defined.

(** ** What a peer reads of an advertisement *)

Lemma c_str_app_nul l k :
  Forall (fun b => is_nul b = false) l -> c_str (l ++ x00 :: k) = l.
Proof.
  induction 1 as [|b l Hb Hl IH]; simpl; [reflexivity|].
  rewrite Hb, IH. reflexivity.
Qed.

Lemma c_str_no_nul l : Forall (fun b => is_nul b = false) l -> c_str l = l.
Proof.
  induction 1 as [|b l Hb Hl IH]; simpl; [reflexivity|].
  rewrite Hb, IH. reflexivity.
Qed.

Lemma list_byte_of_string_length str :
  length (list_byte_of_string str) = String.length str.
Proof.
  unfold list_byte_of_string. rewrite length_map.
  induction str as [|c str IH]; simpl; [reflexivity | rewrite IH; reflexivity].
Qed.

(** A source shorter than [n] is copied whole and terminated. *)
Lemma strncpy_short dst src n :
  Forall (fun b => is_nul b = false) src -> (length src < n)%nat ->
  c_str (strncpy dst src n) = src.
Proof.
  intros Hsrc Hlen. unfold strncpy. rewrite (c_str_no_nul src Hsrc).
  rewrite take_app_ge by lia.
  destruct (n - length src)%nat as [|m] eqn:E; [lia|].
  rewrite take_replicate. rewrite Nat.min_l by lia.
  cbn [replicate]. rewrite <- app_assoc. cbn [app]. apply c_str_app_nul, Hsrc.
Qed.

(** A source of [n] characters or more fills the [n] bytes and leaves the rest
    of the array alone. *)
Lemma strncpy_long dst src n :
  Forall (fun b => is_nul b = false) src -> (n <= length src)%nat ->
  take n (strncpy dst src n) = take n src /\ drop n (strncpy dst src n) = drop n dst.
Proof.
  intros Hsrc Hlen. unfold strncpy. rewrite (c_str_no_nul src Hsrc).
  rewrite (take_app_le src) by lia.
  assert (Hn : length (take n src) = n) by (rewrite length_take; lia).
  split; [apply take_full, Hn | apply drop_app_length'; symmetry; exact Hn].
Qed.

Lemma strncpy_length dst src n :
  (n <= length dst)%nat -> length (strncpy dst src n) = length dst.
Proof.
  intros H. unfold strncpy.
  rewrite length_app, length_take, length_app, length_replicate, length_drop. lia.
Qed.

Lemma strncpy_tail dst src n : drop n (strncpy dst src n) = drop n dst.
Proof.
  unfold strncpy. apply drop_app_length'.
  rewrite length_take, length_app, length_replicate. lia.
Qed.

(** X8. What [broadcastFiles] writes into the record of a local file.  A name
    of at most 30 characters is in the record whole and terminated, and so is
    the access-point name; of a longer name the record holds the first 31
    characters; the 32nd byte of either array is never written and keeps what
    the stack held.  The source node is this node's address and the size is
    the file size as a [size_t]. *)
Theorem local_record_fields env file uninit :
  let r := local_record env file uninit in
  (no_nul (file_name file) -> (String.length (file_name file) < 31)%nat ->
     String_of_chars (filename r) = file_name file)
  /\ (no_nul (AP_SSID env) -> (String.length (AP_SSID env) < 31)%nat ->
        String_of_chars (nodeSSID r) = AP_SSID env)
  /\ (no_nul (file_name file) -> (31 <= String.length (file_name file))%nat ->
        take 31 (filename r) = take 31 (list_byte_of_string (file_name file)))
  /\ drop 31 (filename r) = drop 31 (filename uninit)
  /\ drop 31 (nodeSSID r) = drop 31 (nodeSSID uninit)
  /\ sourceNode r = WiFi_macAddress env
  /\ filesize r = file_size file mod 2 ^ 32
  /\ (length (filename uninit) = 32%nat -> length (nodeSSID uninit) = 32%nat -> record_wf r).
Proof.
  intros r. subst r. unfold local_record, String_of_chars. cbn [filename nodeSSID sourceNode filesize].
  split.
  { intros Hn Hl. rewrite strncpy_short; [apply string_of_list_byte_of_string | exact Hn |].
    rewrite list_byte_of_string_length. exact Hl. }
  split.
  { intros Hn Hl. rewrite strncpy_short; [apply string_of_list_byte_of_string | exact Hn |].
    rewrite list_byte_of_string_length. exact Hl. }
  split.
  { intros Hn Hl. apply strncpy_long; [exact Hn|].
    rewrite list_byte_of_string_length. exact Hl. }
  split; [apply strncpy_tail|]. split; [apply strncpy_tail|].
  split; [reflexivity|]. split; [reflexivity|].
  intros Hf Hs. unfold record_wf. cbn [filename nodeSSID filesize].
  rewrite !strncpy_length by lia. split; [exact Hf|]. split; [exact Hs|].
  apply WordFacts.u32_range.
Qed.

Lemma local_record_fields_witness :
  no_nul "notes.txt" /\ (String.length "notes.txt" < 31)%nat
  /\ String_of_chars (filename book_record) = "notes.txt"%string
  /\ String_of_chars (nodeSSID book_record) = "PR0J3K7_B00KM4RK_42"%string
  /\ record_wf book_record.
Proof.
  assert (Hn : no_nul "notes.txt") by (unfold no_nul; vm_compute; repeat constructor).
  assert (Hs : no_nul (AP_SSID radio_down)) by (unfold no_nul; vm_compute; repeat constructor).
  assert (Hl : (String.length "notes.txt" < 31)%nat) by (vm_compute; lia).
  assert (Hl' : (String.length (AP_SSID radio_down) < 31)%nat) by (vm_compute; lia).
  destruct (local_record_fields radio_down {| file_name := "notes.txt"; file_size := 1024 |}
              stack_garbage) as (H1 & H2 & _ & _ & _ & _ & _ & H8).
  split; [exact Hn|]. split; [exact Hl|]. split; [exact (H1 Hn Hl)|].
  split; [exact (H2 Hs Hl')|]. apply H8; reflexivity.
Defined.

(** X9. An advertisement arrives as it was meant.  When a node builds the
    record of a local file with a name of at most 30 characters, under an
    access-point name of at most 30 characters, and a peer receives its
    datagram, the peer's catalog has an entry under that key with that name,
    size and source node, and the peer's registry shows the sender under the
    advertiser's access-point name. *)
Theorem advertisement_reaches_peer sender file uninit receiver addr s :
  length (filename uninit) = 32%nat -> length (nodeSSID uninit) = 32%nat ->
  no_nul (file_name file) -> (String.length (file_name file) < 31)%nat ->
  no_nul (AP_SSID sender) -> (String.length (AP_SSID sender) < 31)%nat ->
  let r := local_record sender file uninit in
  let s' := step receiver s (Received addr (encode_SharedFile r) sizeof_SharedFile) in
  exists entry peer,
    find_file r (remoteFiles s') = Some entry
    /\ String_of_chars (filename entry) = file_name file
    /\ filesize entry = file_size file mod 2 ^ 32
    /\ sourceNode entry = WiFi_macAddress sender
    /\ String_of_chars (nodeSSID entry) = AP_SSID sender
    /\ find_peer addr (peers s') = Some peer
    /\ ssid peer = AP_SSID sender
    /\ lastSeen peer = Word.u32 (millis_at receiver (clock_reads s)).
Proof.
  intros Hf Hs Hn Hl Hn' Hl' r s'.
  assert (Hwf : record_wf r).
  { unfold record_wf. subst r. unfold local_record. cbn [filename nodeSSID filesize].
    rewrite !strncpy_length by lia. split; [exact Hf|]. split; [exact Hs|].
    apply WordFacts.u32_range. }
  assert (Hname : String_of_chars (filename r) = file_name file).
  { subst r. unfold local_record, String_of_chars. cbn [filename].
    rewrite strncpy_short; [apply string_of_list_byte_of_string | exact Hn |].
    rewrite list_byte_of_string_length. exact Hl. }
  assert (Hssid : String_of_chars (nodeSSID r) = AP_SSID sender).
  { subst r. unfold local_record, String_of_chars. cbn [nodeSSID].
    rewrite strncpy_short; [apply string_of_list_byte_of_string | exact Hn' |].
    rewrite list_byte_of_string_length. exact Hl'. }
  assert (Htn : terminated (filename r)).
  { apply terminated_short. unfold String_of_chars in Hname.
    apply (f_equal list_byte_of_string) in Hname.
    rewrite list_byte_of_string_of_list_byte in Hname. rewrite Hname.
    rewrite list_byte_of_string_length. lia. }
  assert (Htl : terminated (nodeSSID r)).
  { apply terminated_short. unfold String_of_chars in Hssid.
    apply (f_equal list_byte_of_string) in Hssid.
    rewrite list_byte_of_string_of_list_byte in Hssid. rewrite Hssid.
    rewrite list_byte_of_string_length. lia. }
  subst s'. rewrite step_received.
  rewrite onDataReceived_terminated by (rewrite (decode_encode r Hwf); assumption).
  cbn [peers remoteFiles]. rewrite (decode_encode r Hwf).
  exists r. eexists. split; [apply upsert_file_find|].
  split; [exact Hname|]. split; [reflexivity|]. split; [reflexivity|].
  split; [exact Hssid|]. split; [apply upsert_peer_find|].
  split; [exact Hssid | reflexivity].
Qed.

Lemma advertisement_reaches_peer_witness :
  let s' := step busy_air init_state
                 (Received node_self (encode_SharedFile book_record) sizeof_SharedFile) in
  exists entry peer,
    find_file book_record (remoteFiles s') = Some entry
    /\ String_of_chars (filename entry) = "notes.txt"%string
    /\ filesize entry = 1024
    /\ sourceNode entry = node_self
    /\ find_peer node_self (peers s') = Some peer
    /\ ssid peer = "PR0J3K7_B00KM4RK_42"%string.
Proof.
  intros s'.
  assert (Hn : no_nul "notes.txt") by (unfold no_nul; vm_compute; repeat constructor).
  assert (Hs : no_nul (AP_SSID radio_down)) by (unfold no_nul; vm_compute; repeat constructor).
  assert (Hl : (String.length "notes.txt" < 31)%nat) by (vm_compute; lia).
  assert (Hl' : (String.length (AP_SSID radio_down) < 31)%nat) by (vm_compute; lia).
  destruct (advertisement_reaches_peer radio_down
              {| file_name := "notes.txt"; file_size := 1024 |} stack_garbage
              busy_air node_self init_state eq_refl eq_refl Hn Hl Hs Hl')
    as (entry & peer & H1 & H2 & H3 & H4 & _ & H6 & H7 & _).
  exists entry, peer. split; [exact H1|]. split; [exact H2|]. split; [exact H3|].
  split; [exact H4|]. split; [exact H6 | exact H7].
Defined.

(** ** The name of the access point *)

(** X10. Whatever number below one hundred [random] returns, the access-point
    name is the base followed by two digits: nineteen characters, none of them
    NUL, so it always fits the 31 characters an advertisement can carry; and
    different numbers give different names. *)
Theorem generate_SSID_fits (randomNum : Z) :
  0 <= randomNum < 100 ->
  String.length (generate_SSID randomNum) = 19%nat
  /\ no_nul (generate_SSID randomNum)
  /\ String.prefix AP_SSID_BASE (generate_SSID randomNum) = true
  /\ forall other, 0 <= other < 100 ->
       generate_SSID other = generate_SSID randomNum -> other = randomNum.
Proof.
  intros Hr.
  assert (Hcases : forall z, 0 <= z < 100 ->
            exists n : nat, (n < 100)%nat /\ z = Z.of_nat n).
  { intros z Hz. exists (Z.to_nat z). lia. }
  destruct (Hcases _ Hr) as (n & Hn & ->).
  assert (Hprops : String.length (generate_SSID (Z.of_nat n)) = 19%nat
                   /\ no_nul (generate_SSID (Z.of_nat n))
                   /\ String.prefix AP_SSID_BASE (generate_SSID (Z.of_nat n)) = true
                   /\ Z.of_nat n
                      = Z.of_N (N.of_uint
                          (default Decimal.Nil
                             (NilZero.uint_of_string
                                (substring 17 2 (generate_SSID (Z.of_nat n))))))).
  { unfold no_nul.
    do 100 (destruct n as [|n];
            [vm_compute; repeat split; repeat constructor|]).
    lia. }
  destruct Hprops as (H1 & H2 & H3 & H4).
  split; [exact H1|]. split; [exact H2|]. split; [exact H3|].
  intros other Ho E. destruct (Hcases _ Ho) as (m & Hm & ->).
  assert (H4' : Z.of_nat m
                = Z.of_N (N.of_uint
                    (default Decimal.Nil
                       (NilZero.uint_of_string
                          (substring 17 2 (generate_SSID (Z.of_nat m))))))).
  { clear -Hm. do 100 (destruct m as [|m]; [vm_compute; reflexivity|]). lia. }
  rewrite H4', E, <- H4. reflexivity.
Qed.

Lemma generate_SSID_fits_witness :
  0 <= 7 < 100
  /\ generate_SSID 7 = "PR0J3K7_B00KM4RK_07"%string
  /\ String.length (generate_SSID 7) = 19%nat
  /\ no_nul (generate_SSID 7).
Proof.
  assert (H : 0 <= 7 < 100) by lia.
  destruct (generate_SSID_fits 7 H) as (H1 & H2 & _).
  split; [exact H|]. split; [reflexivity|]. split; [exact H1 | exact H2].
Defined.

(** ** [isAllowedFile] *)

Lemma string_length_app (a b : string) :
  String.length (String.append a b) = (String.length a + String.length b)%nat.
Proof. induction a as [|c a IH]; simpl; [reflexivity | rewrite IH; reflexivity]. Qed.

Lemma substring_whole (b : string) : substring 0 (String.length b) b = b.
Proof. induction b as [|c b IH]; simpl; [reflexivity | rewrite IH; reflexivity]. Qed.

Lemma substring_app_r (a b : string) :
  substring (String.length a) (String.length b) (String.append a b) = b.
Proof. induction a as [|c a IH]; simpl; [apply substring_whole | exact IH]. Qed.

Lemma substring_split (str : string) (m : nat) :
  (m <= String.length str)%nat ->
  String.append (substring 0 m str) (substring m (String.length str - m) str) = str.
Proof.
  revert m. induction str as [|c str IH]; intros m Hm.
  - destruct m; reflexivity.
  - destruct m as [|m]; simpl.
    + rewrite substring_whole. reflexivity.
    + simpl in Hm.
      transitivity (String c (String.append (substring 0 m str)
                                (substring m (String.length str - m) str))); [reflexivity|].
      rewrite IH by lia. reflexivity.
Qed.

Lemma toLowerCase_length (str : string) :
  String.length (toLowerCase str) = String.length str.
Proof. induction str as [|c str IH]; simpl; [reflexivity | rewrite IH; reflexivity]. Qed.

Lemma toLowerCase_app (a b : string) :
  toLowerCase (String.append a b) = String.append (toLowerCase a) (toLowerCase b).
Proof. induction a as [|c a IH]; simpl; [reflexivity | rewrite IH; reflexivity]. Qed.

Lemma toLowerCase_substring (str : string) (n m : nat) :
  substring n m (toLowerCase str) = toLowerCase (substring n m str).
Proof.
  revert n m. induction str as [|c str IH]; intros n m.
  - destruct n, m; reflexivity.
  - destruct n as [|n]; simpl.
    + destruct m as [|m]; simpl; [reflexivity | rewrite IH; reflexivity].
    + apply IH.
Qed.

Lemma endsWith_spec (str suffix : string) :
  endsWith str suffix = true <-> exists base, str = String.append base suffix.
Proof.
  unfold endsWith. split.
  - destruct (String.length str <? String.length suffix)%nat eqn:E; [discriminate|].
    apply Nat.ltb_ge in E. intros H. apply String.eqb_eq in H.
    exists (substring 0 (String.length str - String.length suffix) str).
    pose proof (substring_split str (String.length str - String.length suffix)) as Hs.
    replace (String.length str - (String.length str - String.length suffix))%nat
      with (String.length suffix) in Hs by lia.
    rewrite H in Hs. symmetry. apply Hs. lia.
  - intros [base ->]. rewrite string_length_app.
    replace (String.length base + String.length suffix <? String.length suffix)%nat
      with false by (symmetry; apply Nat.ltb_ge; lia).
    replace (String.length base + String.length suffix - String.length suffix)%nat
      with (String.length base) by lia.
    rewrite substring_app_r. apply String.eqb_refl.
Qed.

Lemma isAllowedFile_some_extension fileName :
  isAllowedFile fileName = true
  <-> exists ext, ext ∈ allowed_extensions /\ endsWith (toLowerCase fileName) ext = true.
Proof.
  unfold isAllowedFile, allowed_extensions. cbv zeta. rewrite !orb_true_iff. split.
  - intros [[[[H|H]|H]|H]|H]; eexists; (split; [|exact H]); set_solver.
  - intros (ext & Hin & H).
    repeat (apply elem_of_cons in Hin; destruct Hin as [->|Hin]); [tauto..|].
    inversion Hin.
Qed.

(** X11. [isAllowedFile] accepts exactly the names that end in one of the five
    extensions, whatever the case of the letters of the extension: a name is
    allowed if and only if it is a base followed by an extension whose lower
    case is .pdf, .epub, .doc, .rtf or .txt.  An allowed name has at least
    four characters, and the case of a name does not matter. *)
Theorem isAllowedFile_spec (fileName : string) :
  (isAllowedFile fileName = true
   <-> exists base ext,
         fileName = String.append base ext /\ toLowerCase ext ∈ allowed_extensions)
  /\ (isAllowedFile fileName = true -> (4 <= String.length fileName)%nat)
  /\ isAllowedFile (toLowerCase fileName) = isAllowedFile fileName.
Proof.
  assert (Hiff : isAllowedFile fileName = true
                 <-> exists base ext,
                       fileName = String.append base ext
                       /\ toLowerCase ext ∈ allowed_extensions).
  { rewrite isAllowedFile_some_extension. split.
    - intros (e & Hin & H). apply endsWith_spec in H. destruct H as [low Hlow].
      assert (Hlen : (String.length e <= String.length fileName)%nat).
      { rewrite <- (toLowerCase_length fileName), Hlow, string_length_app. lia. }
      exists (substring 0 (String.length fileName - String.length e) fileName),
             (substring (String.length fileName - String.length e) (String.length e) fileName).
      split.
      + pose proof (substring_split fileName (String.length fileName - String.length e)) as Hs.
        replace (String.length fileName - (String.length fileName - String.length e))%nat
          with (String.length e) in Hs by lia.
        symmetry. apply Hs. lia.
      + rewrite <- toLowerCase_substring, Hlow.
        replace (String.length fileName - String.length e)%nat with (String.length low).
        * rewrite substring_app_r. exact Hin.
        * rewrite <- (toLowerCase_length fileName), Hlow, string_length_app. lia.
    - intros (base & ext & -> & Hin). exists (toLowerCase ext). split; [exact Hin|].
      rewrite toLowerCase_app. apply endsWith_spec. eauto. }
  split; [exact Hiff|]. split.
  - intros H. apply Hiff in H. destruct H as (base & ext & -> & Hin).
    rewrite string_length_app, <- (toLowerCase_length ext).
    unfold allowed_extensions in Hin.
    repeat (apply elem_of_cons in Hin; destruct Hin as [->|Hin]); simpl; try lia.
    inversion Hin.
  - assert (Hidem : forall str, toLowerCase (toLowerCase str) = toLowerCase str).
    { induction str as [|c str IH]; simpl; [reflexivity|]. rewrite IH. f_equal.
      unfold lower_char. clear.
      destruct c as [[] [] [] [] [] [] [] []]; reflexivity. }
    unfold isAllowedFile. cbv zeta. rewrite Hidem. reflexivity.
Qed.

(** * Further properties of the web side and of start-up *)

(** * The captive portal *)

Lemma string_append_assoc (a b c : string) :
  String.append (String.append a b) c = String.append a (String.append b c).
Proof.
  induction a as [|x a IH]; [reflexivity|].
  transitivity (String x (String.append (String.append a b) c)); [reflexivity|].
  rewrite IH. reflexivity.
Qed.

Lemma isIp_app (a b : string) : isIp (String.append a b) = isIp a && isIp b.
Proof.
  induction a as [|c a IH]; [reflexivity|].
  transitivity (isIp (String c (String.append a b))); [reflexivity|].
  cbn [isIp].
  destruct (negb (Ascii.eqb c ".") && ((nat_of_ascii c <? 48)%nat || (57 <? nat_of_ascii c)%nat));
    [reflexivity | exact IH].
Qed.

Lemma isIp_chars (str : string) :
  isIp str = true <-> Forall ip_char (list_ascii_of_string str).
Proof.
  induction str as [|c str IH]; cbn [isIp list_ascii_of_string].
  - split; [constructor | reflexivity].
  - destruct (Ascii.eqb c ".") eqn:Edot; cbn [negb andb].
    + apply Ascii.eqb_eq in Edot. rewrite IH. split.
      * intros H. constructor; [left; exact Edot | exact H].
      * intros H. inversion H; assumption.
    + apply Ascii.eqb_neq in Edot.
      destruct (nat_of_ascii c <? 48)%nat eqn:E1; cbn [orb].
      * apply Nat.ltb_lt in E1. split; [discriminate|].
        intros H. inversion H as [|? ? [Hc|Hc] _]; [contradiction | lia].
      * apply Nat.ltb_ge in E1.
        destruct (57 <? nat_of_ascii c)%nat eqn:E2.
        -- apply Nat.ltb_lt in E2. split; [discriminate|].
           intros H. inversion H as [|? ? [Hc|Hc] _]; [contradiction | lia].
        -- apply Nat.ltb_ge in E2. rewrite IH. split.
           ++ intros H. constructor; [right; lia | exact H].
           ++ intros H. inversion H; assumption.
Qed.

Lemma isIp_uint (d : Decimal.uint) : isIp (NilEmpty.string_of_uint d) = true.
Proof. induction d; cbn [NilEmpty.string_of_uint isIp]; try exact IHd; reflexivity. Qed.

Lemma isIp_String_of_uint (n : Z) : isIp (String_of_uint n) = true.
Proof.
  unfold String_of_uint, NilZero.string_of_uint.
  destruct (N.to_uint (Z.to_N n)); try apply isIp_uint; reflexivity.
Qed.

Lemma toStringIp_octets (ip : Z) :
  toStringIp ip
  = String.append (String_of_uint (Z.land (Z.shiftr ip 0) 255))
      (String.append "."
         (String.append (String_of_uint (Z.land (Z.shiftr ip 8) 255))
            (String.append "."
               (String.append (String_of_uint (Z.land (Z.shiftr ip 16) 255))
                  (String.append "." (String_of_uint (Z.land (Z.shiftr ip 24) 255))))))).
Proof.
  unfold toStringIp. cbn [fold_left].
  change (8 * 0) with 0. change (8 * 1) with 8. change (8 * 2) with 16. change (8 * 3) with 24.
  change (String.append EmptyString ?x) with x.
  rewrite !string_append_assoc. reflexivity.
Qed.

Lemma octet_0 a b c d :
  0 <= a < 256 -> 0 <= b -> 0 <= c -> 0 <= d ->
  Z.land (Z.shiftr (IPAddress a b c d) 0) 255 = a.
Proof.
  intros. unfold IPAddress. rewrite Z.shiftr_0_r.
  change 255 with (Z.ones 8). rewrite Z.land_ones by lia.
  change (2 ^ 8) with 256. Z.div_mod_to_equations. lia.
Qed.

Lemma octet_1 a b c d :
  0 <= a < 256 -> 0 <= b < 256 -> 0 <= c -> 0 <= d ->
  Z.land (Z.shiftr (IPAddress a b c d) 8) 255 = b.
Proof.
  intros. unfold IPAddress. rewrite Z.shiftr_div_pow2 by lia.
  change 255 with (Z.ones 8). rewrite Z.land_ones by lia.
  change (2 ^ 8) with 256. Z.div_mod_to_equations. lia.
Qed.

Lemma octet_2 a b c d :
  0 <= a < 256 -> 0 <= b < 256 -> 0 <= c < 256 -> 0 <= d ->
  Z.land (Z.shiftr (IPAddress a b c d) 16) 255 = c.
Proof.
  intros. unfold IPAddress. rewrite Z.shiftr_div_pow2 by lia.
  change 255 with (Z.ones 8). rewrite Z.land_ones by lia.
  change (2 ^ 8) with 256. change (2 ^ 16) with 65536. Z.div_mod_to_equations. lia.
Qed.

Lemma octet_3 a b c d :
  0 <= a < 256 -> 0 <= b < 256 -> 0 <= c < 256 -> 0 <= d < 256 ->
  Z.land (Z.shiftr (IPAddress a b c d) 24) 255 = d.
Proof.
  intros. unfold IPAddress. rewrite Z.shiftr_div_pow2 by lia.
  change 255 with (Z.ones 8). rewrite Z.land_ones by lia.
  change (2 ^ 8) with 256. change (2 ^ 24) with 16777216. Z.div_mod_to_equations. lia.
Qed.

Lemma isIp_toStringIp (ip : Z) : isIp (toStringIp ip) = true.
Proof.
  rewrite toStringIp_octets, !isIp_app, !isIp_String_of_uint. reflexivity.
Qed.

(** X12. [toStringIp] prints the four octets of an address in the order they
    were given to [IPAddress], in decimal and separated by dots, and what it
    prints always passes [isIp], whatever the 32-bit value. *)
Theorem toStringIp_dotted_quad (a b c d : Z) :
  0 <= a < 256 -> 0 <= b < 256 -> 0 <= c < 256 -> 0 <= d < 256 ->
  toStringIp (IPAddress a b c d)
  = String.append (String_of_uint a)
      (String.append "."
         (String.append (String_of_uint b)
            (String.append "."
               (String.append (String_of_uint c)
                  (String.append "." (String_of_uint d))))))
  /\ isIp (toStringIp (IPAddress a b c d)) = true.
Proof.
  intros Ha Hb Hc Hd. split; [|apply isIp_toStringIp].
  rewrite toStringIp_octets, octet_0, octet_1, octet_2, octet_3 by lia. reflexivity.
Qed.

Lemma toStringIp_dotted_quad_witness :
  toStringIp (IPAddress 192 168 4 1) = "192.168.4.1"%string
  /\ isIp (toStringIp (IPAddress 192 168 4 1)) = true.
Proof.
  destruct (toStringIp_dotted_quad 192 168 4 1) as [H1 H2]; try lia.
  split; [|exact H2]. rewrite H1. reflexivity.
Defined.

(** X13. [captivePortal] redirects exactly the requests whose [Host] header
    has a character other than a digit or a dot (a host name, or an address
    followed by a port), always to [http://192.168.4.1] with status 302; a
    request whose host is made of digits and dots only (the empty host
    included) is left to the handler and nothing is sent.  In particular a
    client that follows the redirect is never redirected again. *)
Theorem captivePortal_redirects (hostHeader : string) :
  (~ Forall ip_char (list_ascii_of_string hostHeader) ->
   captivePortal hostHeader
   = ([sendHeader "Location" "http://192.168.4.1" true; send 302 "text/plain" ""], true))
  /\ (Forall ip_char (list_ascii_of_string hostHeader) -> captivePortal hostHeader = ([], false))
  /\ (forall ip, captivePortal (toStringIp ip) = ([], false))
  /\ (forall host port,
        fst (captivePortal (String.append host (String ":" port)))
        = [sendHeader "Location" "http://192.168.4.1" true; send 302 "text/plain" ""]).
Proof.
  assert (Hno : forall h, isIp h = false ->
            captivePortal h
            = ([sendHeader "Location" "http://192.168.4.1" true; send 302 "text/plain" ""], true)).
  { intros h Hh. unfold captivePortal. rewrite Hh. reflexivity. }
  assert (Hyes : forall h, isIp h = true -> captivePortal h = ([], false)).
  { intros h Hh. unfold captivePortal. rewrite Hh. reflexivity. }
  split; [|split; [|split]].
  - intros H. apply Hno. destruct (isIp hostHeader) eqn:E; [|reflexivity].
    apply isIp_chars in E. contradiction.
  - intros H. apply Hyes, isIp_chars, H.
  - intros ip. apply Hyes, isIp_toStringIp.
  - intros host port. rewrite Hno; [reflexivity|].
    rewrite isIp_app. cbn [isIp]. 
    change (negb (Ascii.eqb ":" ".") && ((nat_of_ascii ":" <? 48)%nat || (57 <? nat_of_ascii ":")%nat))
      with true. cbv iota. apply andb_false_r.
Qed.

(** * Ages and the clean-up timer *)

(** X14. [formatTimestamp] reads the clock once and prints the age of the
    stamp, rounded down, in the coarsest of seconds, minutes, hours and days
    that gives at least one unit (seconds below a minute): the number is below
    60, 60, 24 and 50 respectively.  The age is the 32-bit difference, so a
    stamp later than the clock reading comes out as the wrapped difference. *)
Theorem formatTimestamp_rounds_down (env : Env) (timestamp : Z) (s : State) :
  let elapsed := Word.usub (Word.u32 (millis_at env (clock_reads s))) timestamp in
  exists q unit ms bound,
    In (unit, ms, bound) time_units
    /\ fst (formatTimestamp env timestamp s) = String.append (String_of_uint q) unit
    /\ ms * q <= elapsed < ms * (q + 1)
    /\ 0 <= q < bound
    /\ (unit <> "s ago"%string -> 1 <= q)
    /\ clock_reads (snd (formatTimestamp env timestamp s)) = S (clock_reads s).
Proof.
  intros elapsed.
  assert (Hr : 0 <= elapsed < 4294967296) by apply WordFacts.u32_range.
  unfold formatTimestamp, bind, ret, millis. cbn [fst snd clock_reads].
  fold elapsed.
  destruct (elapsed <? 60000) eqn:E1; [|destruct (elapsed <? 3600000) eqn:E2;
    [|destruct (elapsed <? 86400000) eqn:E3]].
  - apply Z.ltb_lt in E1.
    exists (elapsed / 1000), "s ago"%string, 1000, 60.
    split; [left; reflexivity|]. split; [reflexivity|].
    split; [Z.div_mod_to_equations; lia|]. split; [Z.div_mod_to_equations; lia|].
    split; [congruence | reflexivity].
  - apply Z.ltb_ge in E1. apply Z.ltb_lt in E2.
    exists (elapsed / 60000), "m ago"%string, 60000, 60.
    split; [right; left; reflexivity|]. split; [reflexivity|].
    split; [Z.div_mod_to_equations; lia|]. split; [Z.div_mod_to_equations; lia|].
    split; [intros _; Z.div_mod_to_equations; lia | reflexivity].
  - apply Z.ltb_ge in E2. apply Z.ltb_lt in E3.
    exists (elapsed / 3600000), "h ago"%string, 3600000, 24.
    split; [right; right; left; reflexivity|]. split; [reflexivity|].
    split; [Z.div_mod_to_equations; lia|]. split; [Z.div_mod_to_equations; lia|].
    split; [intros _; Z.div_mod_to_equations; lia | reflexivity].
  - apply Z.ltb_ge in E3.
    exists (elapsed / 86400000), "d ago"%string, 86400000, 50.
    split; [right; right; right; left; reflexivity|]. split; [reflexivity|].
    split; [Z.div_mod_to_equations; lia|]. split; [Z.div_mod_to_equations; lia|].
    split; [intros _; Z.div_mod_to_equations; lia | reflexivity].
Qed.

Lemma checkAndCleanupForum_later currentTime lastCleanupTime :
  0 <= lastCleanupTime <= currentTime -> currentTime < Word.modulus ->
  checkAndCleanupForum currentTime lastCleanupTime
  = if CLEANUP_INTERVAL <=? currentTime - lastCleanupTime
    then (true, currentTime) else (false, lastCleanupTime).
Proof.
  intros H1 H2. unfold checkAndCleanupForum.
  rewrite WordFacts.usub_exact by lia.
  replace (currentTime <? lastCleanupTime) with false by (symmetry; apply Z.ltb_ge; lia).
  rewrite orb_false_r. reflexivity.
Qed.

Lemma ascending_weaken (a b : Z) (readings : list Z) :
  a <= b -> ascending b readings -> ascending a readings.
Proof. destruct readings as [|t rest]; cbn; [tauto | intros ? [? ?]; split; [lia | assumption]]. Qed.

Lemma cleanup_passes_spaced (readings : list Z) : forall last,
  0 <= last -> ascending last readings -> Forall (fun t => t < Word.modulus) readings ->
  spaced last (cleanup_passes readings last)
  /\ (cleanup_passes readings last = []
      <-> Forall (fun t => t < last + CLEANUP_INTERVAL) readings)
  /\ cleanup_passes readings last ⊆ readings.
Proof.
  induction readings as [|t rest IH]; intros last H0 Hasc Hlt.
  - cbn. split; [exact I|]. split; [split; [constructor | reflexivity] | intros x Hx; exact Hx].
  - destruct Hasc as [Hle Hasc]. inversion Hlt as [|? ? Ht Hrest]; subst.
    cbn [cleanup_passes]. rewrite checkAndCleanupForum_later by lia.
    destruct (CLEANUP_INTERVAL <=? t - last) eqn:E.
    + apply Z.leb_le in E.
      destruct (IH t ltac:(lia) Hasc Hrest) as (IH1 & _ & IH3).
      split; [cbn; split; [lia | exact IH1]|].
      split; [|intros x Hx; apply elem_of_cons in Hx; apply elem_of_cons;
               destruct Hx as [->|Hx]; [left; reflexivity | right; apply IH3, Hx]].
      split; [discriminate|]. intros H. inversion H; subst. lia.
    + apply Z.leb_gt in E.
      destruct (IH last H0 (ascending_weaken _ _ _ Hle Hasc) Hrest) as (IH1 & IH2 & IH3).
      split; [exact IH1|].
      split; [|intros x Hx; apply elem_of_cons; right; apply IH3, Hx].
      rewrite IH2. split.
      * intros H. constructor; [lia | exact H].
      * intros H. inversion H; assumption.
Qed.

(** X15. As long as the clock does not go back, the forum is cleaned at most
    once per [CLEANUP_INTERVAL]: over any run of passes of [loop] the cleaning
    times are readings of the clock, each at least an hour after the one
    before (the first at least an hour after the time recorded by [setup]), and
    no pass cleans as long as every reading is within the hour. *)
Theorem cleanups_an_interval_apart (readings : list Z) (lastCleanupTime : Z) :
  0 <= lastCleanupTime -> ascending lastCleanupTime readings ->
  Forall (fun t => t < Word.modulus) readings ->
  spaced lastCleanupTime (cleanup_passes readings lastCleanupTime)
  /\ (cleanup_passes readings lastCleanupTime = []
      <-> Forall (fun t => t < lastCleanupTime + CLEANUP_INTERVAL) readings)
  /\ cleanup_passes readings lastCleanupTime ⊆ readings.
Proof. intros H0 Hasc Hlt. apply cleanup_passes_spaced; assumption. Qed.

Lemma cleanups_an_interval_apart_witness :
  cleanup_passes [1000; 3599999; 3600000; 3600001; 7200000; 7300000] 0 = [3600000; 7200000]
  /\ spaced 0 (cleanup_passes [1000; 3599999; 3600000; 3600001; 7200000; 7300000] 0).
Proof.
  split; [reflexivity|].
  apply (cleanups_an_interval_apart [1000; 3599999; 3600000; 3600001; 7200000; 7300000] 0).
  - lia.
  - cbn. lia.
  - unfold Word.modulus. repeat constructor.
Defined.

(** X16. When the millisecond clock wraps, the forum is cleaned at the next
    pass however recently it was cleaned: a reading taken [elapsed]
    milliseconds after the last cleaning, on the other side of the wrap, cleans
    the forum even when [elapsed] is far below [CLEANUP_INTERVAL]. *)
Theorem clock_wrap_forces_cleanup (lastCleanupTime elapsed : Z) :
  0 < elapsed < Word.modulus ->
  Word.modulus - elapsed <= lastCleanupTime < Word.modulus ->
  let currentTime := Word.u32 (lastCleanupTime + elapsed) in
  Word.usub currentTime lastCleanupTime = elapsed
  /\ checkAndCleanupForum currentTime lastCleanupTime = (true, currentTime).
Proof.
  intros He Hl currentTime.
  assert (Hc : currentTime = lastCleanupTime + elapsed - Word.modulus).
  { unfold currentTime, Word.u32, Word.modulus in *. Z.div_mod_to_equations. lia. }
  split.
  - unfold Word.usub, Word.u32. rewrite Hc. unfold Word.modulus in *.
    Z.div_mod_to_equations. lia.
  - unfold checkAndCleanupForum.
    replace (currentTime <? lastCleanupTime) with true by (symmetry; apply Z.ltb_lt; lia).
    rewrite orb_true_r. reflexivity.
Qed.

Lemma clock_wrap_forces_cleanup_witness :
  Word.usub 500 4294966296 = 1500
  /\ checkAndCleanupForum 500 4294966296 = (true, 500).
Proof.
  apply (clock_wrap_forces_cleanup 4294966296 1500); unfold Word.modulus; lia.
Defined.

(** X17. The countdown on the forum page: the minutes shown are below 60, and
    the number shown as seconds is the minutes divided by ten, never above 5.
    While less than the interval has gone by since the last cleaning the
    minutes are the whole minutes that remain; right after a cleaning, with the
    whole hour remaining, the page shows 0m 0s. *)
Theorem forum_countdown_fields (now lastCleanupTime : Z) :
  let shown := forum_countdown now lastCleanupTime in
  let minutesLeft := shown.1.1 in
  let secondsLeft := shown.1.2 in
  let elapsed := Word.usub now lastCleanupTime in
  0 <= minutesLeft < 60
  /\ secondsLeft = minutesLeft / 10
  /\ 0 <= secondsLeft <= 5
  /\ (0 < elapsed <= CLEANUP_INTERVAL ->
      minutesLeft = (CLEANUP_INTERVAL - elapsed) / 60000)
  /\ (elapsed = 0 -> shown = (0, 0, "0m 0s ]"%string)).
Proof.
  intros shown minutesLeft secondsLeft elapsed.
  assert (Hr : 0 <= elapsed < 4294967296) by apply WordFacts.u32_range.
  subst minutesLeft secondsLeft shown. unfold forum_countdown. cbv zeta. cbn [fst snd].
  fold elapsed.
  set (timeLeft := Word.usub CLEANUP_INTERVAL elapsed).
  assert (Ht : 0 <= timeLeft < 4294967296) by apply WordFacts.u32_range.
  split; [Z.div_mod_to_equations; lia|].
  split; [Z.div_mod_to_equations; lia|].
  split; [Z.div_mod_to_equations; lia|].
  split.
  - intros He. subst timeLeft. rewrite WordFacts.usub_exact by (unfold CLEANUP_INTERVAL, Word.modulus in *; lia).
    unfold CLEANUP_INTERVAL in *. rewrite Z.mod_small by lia. reflexivity.
  - intros He. subst timeLeft. rewrite He. reflexivity.
Qed.

(** * Downloads *)

(** X18. [handleFileDownload] streams a file only when the request names one,
    the name passes [isAllowedFile], the card has the file and it opens; then
    the answer is the two headers and the stream, and nothing else.  In every
    other case exactly one error is sent and no file content: 400 without a
    name, 400 for a name that is not allowed (whether or not the card has
    such a file), 404 for an allowed name the card does not have, 500 when the
    file does not open. *)
Theorem download_streams_only_allowed (file_arg : option string) (sd_exists : bool)
    (sd_open : option (list byte)) :
  (forall content contentType,
     In (streamFile content contentType) (handleFileDownload file_arg sd_exists sd_open)
     <-> exists fileName,
           file_arg = Some fileName /\ isAllowedFile fileName = true
           /\ sd_exists = true /\ sd_open = Some content
           /\ contentType = download_contentType fileName)
  /\ (file_arg = None ->
      handleFileDownload file_arg sd_exists sd_open
      = [send 400 "text/plain" "File parameter missing"])
  /\ (forall fileName, file_arg = Some fileName -> isAllowedFile fileName = false ->
      exists msg, handleFileDownload file_arg sd_exists sd_open = [send 400 "text/plain" msg])
  /\ (forall fileName, file_arg = Some fileName -> isAllowedFile fileName = true ->
      sd_exists = false ->
      handleFileDownload file_arg sd_exists sd_open = [send 404 "text/plain" "File not found"])
  /\ (forall fileName, file_arg = Some fileName -> isAllowedFile fileName = true ->
      sd_exists = true -> sd_open = None ->
      handleFileDownload file_arg sd_exists sd_open
      = [send 500 "text/plain" "Failed to open file"]).
Proof.
  split; [|split; [|split; [|split]]].
  - intros content contentType. unfold handleFileDownload. split.
    + destruct file_arg as [fileName|]; [|intros [H|[]]; discriminate].
      destruct (isAllowedFile fileName) eqn:Ea; cbn [negb];
        [|intros [H|[]]; discriminate].
      destruct sd_exists; cbn [negb]; [|intros [H|[]]; discriminate].
      destruct sd_open as [file|]; [|intros [H|[]]; discriminate].
      intros [H|[H|[H|[]]]]; try discriminate.
      injection H as <- <-. exists fileName. repeat split; assumption.
    + intros (fileName & -> & Ea & -> & -> & ->). rewrite Ea. cbn [negb].
      right. right. left. reflexivity.
  - intros ->. reflexivity.
  - intros fileName -> Ea. unfold handleFileDownload. rewrite Ea. cbn [negb].
    eexists. reflexivity.
  - intros fileName -> Ea ->. unfold handleFileDownload. rewrite Ea. reflexivity.
  - intros fileName -> Ea -> ->. unfold handleFileDownload. rewrite Ea. reflexivity.
Qed.

Lemma string_suffix_compare (a x : string) : forall b y,
  String.append a x = String.append b y ->
  (String.length x <= String.length y)%nat ->
  exists z, y = String.append z x.
Proof.
  induction a as [|c a IH]; intros b y H Hlen.
  - destruct b as [|d b].
    + exists EmptyString. symmetry. exact H.
    + exfalso. apply (f_equal String.length) in H.
      change (String.append EmptyString x) with x in H.
      rewrite string_length_app in H. cbn [String.length] in H. lia.
  - destruct b as [|d b].
    + exists (String c a). symmetry. exact H.
    + change (String c (String.append a x) = String d (String.append b y)) in H.
      injection H as _ H. exact (IH b y H Hlen).
Qed.

Lemma string_length_zero (z : string) : String.length z = 0%nat -> z = EmptyString.
Proof. destruct z; [reflexivity | discriminate]. Qed.

Lemma allowed_extensions_cases (e : string) :
  e ∈ allowed_extensions
  <-> e = ".pdf"%string \/ e = ".epub"%string \/ e = ".doc"%string
      \/ e = ".rtf"%string \/ e = ".txt"%string.
Proof.
  unfold allowed_extensions. rewrite !elem_of_cons, elem_of_nil. tauto.
Qed.

Lemma allowed_extension_lower (e : string) :
  e ∈ allowed_extensions -> toLowerCase e = e.
Proof.
  intros H. apply allowed_extensions_cases in H.
  destruct H as [->|[->|[->|[->| ->]]]]; reflexivity.
Qed.

Lemma allowed_extension_no_proper_suffix (e e' : string) :
  e ∈ allowed_extensions -> e' ∈ allowed_extensions ->
  endsWith e e' = true -> e = e'.
Proof.
  intros H H'. apply allowed_extensions_cases in H. apply allowed_extensions_cases in H'.
  destruct H as [->|[->|[->|[->| ->]]]]; destruct H' as [->|[->|[->|[->| ->]]]];
    intros E; try reflexivity; vm_compute in E; discriminate E.
Qed.

Lemma allowed_suffix_unique (base ext e : string) :
  toLowerCase ext ∈ allowed_extensions -> e ∈ allowed_extensions ->
  endsWith (String.append base ext) e = true -> ext = e.
Proof.
  intros Hext He E. apply endsWith_spec in E. destruct E as [pre E].
  destruct (le_lt_dec (String.length ext) (String.length e)) as [Hlen|Hlen].
  - destruct (string_suffix_compare _ _ _ _ E Hlen) as [z Hz].
    assert (Hlow : e = String.append (toLowerCase z) (toLowerCase ext)).
    { rewrite <- toLowerCase_app, <- Hz. symmetry. apply allowed_extension_lower, He. }
    assert (Heq : e = toLowerCase ext).
    { apply allowed_extension_no_proper_suffix; [exact He | exact Hext |].
      apply endsWith_spec. eexists. exact Hlow. }
    assert (Hz0 : z = EmptyString).
    { apply string_length_zero. apply (f_equal String.length) in Hz.
      rewrite string_length_app in Hz. rewrite Heq, toLowerCase_length in Hz. lia. }
    subst z. symmetry. exact Hz.
  - symmetry in E.
    destruct (string_suffix_compare _ _ _ _ E ltac:(lia)) as [z Hz].
    assert (Hlow : toLowerCase ext = String.append (toLowerCase z) e).
    { rewrite Hz, toLowerCase_app, (allowed_extension_lower e He). reflexivity. }
    assert (Heq : toLowerCase ext = e).
    { apply allowed_extension_no_proper_suffix; [exact Hext | exact He |].
      apply endsWith_spec. eexists. exact Hlow. }
    exfalso. apply (f_equal String.length) in Heq. rewrite toLowerCase_length in Heq. lia.
Qed.

Lemma endsWith_app_same (base e : string) : endsWith (String.append base e) e = true.
Proof. apply endsWith_spec. exists base. reflexivity. Qed.

Lemma isAllowedFile_app (base ext : string) :
  toLowerCase ext ∈ allowed_extensions -> isAllowedFile (String.append base ext) = true.
Proof.
  intros H. apply isAllowedFile_some_extension. exists (toLowerCase ext).
  split; [exact H|]. rewrite toLowerCase_app. apply endsWith_app_same.
Qed.

Lemma download_contentType_other (base ext : string) (e : string) :
  toLowerCase ext ∈ allowed_extensions -> e ∈ allowed_extensions -> ext <> e ->
  endsWith (String.append base ext) e = false.
Proof.
  intros Hext He Hne. destruct (endsWith (String.append base ext) e) eqn:E; [|reflexivity].
  exfalso. apply Hne. exact (allowed_suffix_unique base ext e Hext He E).
Qed.

(** X19. The content type of a download goes by the extension as it is
    written, while [isAllowedFile] goes by its lower case: a name with one of
    the five extensions in lower case gets that extension's type, and a name
    that is allowed through an extension with a capital letter in it is served
    as [application/octet-stream]. *)
Theorem download_type_by_written_extension (base ext : string) :
  toLowerCase ext ∈ allowed_extensions ->
  isAllowedFile (String.append base ext) = true
  /\ (forall contentType, (ext, contentType) ∈ content_types ->
        download_contentType (String.append base ext) = contentType)
  /\ (ext ∉ allowed_extensions ->
        download_contentType (String.append base ext) = "application/octet-stream"%string).
Proof.
  intros Hext. split; [apply isAllowedFile_app, Hext|].
  assert (Hother : forall e, e ∈ allowed_extensions -> ext <> e ->
            endsWith (String.append base ext) e = false).
  { intros e He Hne. apply download_contentType_other; assumption. }
  assert (Hpdf : ".pdf"%string ∈ allowed_extensions) by (apply allowed_extensions_cases; tauto).
  assert (Hepub : ".epub"%string ∈ allowed_extensions) by (apply allowed_extensions_cases; tauto).
  assert (Hdoc : ".doc"%string ∈ allowed_extensions) by (apply allowed_extensions_cases; tauto).
  assert (Hrtf : ".rtf"%string ∈ allowed_extensions) by (apply allowed_extensions_cases; tauto).
  assert (Htxt : ".txt"%string ∈ allowed_extensions) by (apply allowed_extensions_cases; tauto).
  split.
  - intros contentType Hin. unfold content_types in Hin.
    rewrite !elem_of_cons, elem_of_nil in Hin.
    unfold download_contentType.
    destruct Hin as [Hin|[Hin|[Hin|[Hin|[Hin|[]]]]]]; injection Hin as Hx <-;
      rewrite Hx in Hother; rewrite Hx; clear Hx.
    + rewrite endsWith_app_same. reflexivity.
    + rewrite (Hother ".pdf"%string Hpdf) by discriminate.
      rewrite endsWith_app_same. reflexivity.
    + rewrite (Hother ".pdf"%string Hpdf), (Hother ".epub"%string Hepub) by discriminate.
      rewrite endsWith_app_same. reflexivity.
    + rewrite (Hother ".pdf"%string Hpdf), (Hother ".epub"%string Hepub),
        (Hother ".doc"%string Hdoc) by discriminate.
      rewrite endsWith_app_same. reflexivity.
    + rewrite (Hother ".pdf"%string Hpdf), (Hother ".epub"%string Hepub),
        (Hother ".doc"%string Hdoc), (Hother ".rtf"%string Hrtf) by discriminate.
      rewrite endsWith_app_same. reflexivity.
  - intros Hnot. unfold download_contentType.
    rewrite (Hother ".pdf"%string Hpdf), (Hother ".epub"%string Hepub),
      (Hother ".doc"%string Hdoc), (Hother ".rtf"%string Hrtf), (Hother ".txt"%string Htxt)
      by (intros ->; contradiction).
    reflexivity.
Qed.

Lemma download_type_by_written_extension_witness :
  isAllowedFile "Dune.PDF" = true
  /\ download_contentType "Dune.PDF" = "application/octet-stream"%string.
Proof.
  destruct (download_type_by_written_extension "Dune" ".PDF") as (H1 & _ & H3).
  - apply allowed_extensions_cases. left. reflexivity.
  - split; [exact H1|]. apply H3. intros H. apply allowed_extensions_cases in H.
    destruct H as [H|[H|[H|[H|H]]]]; discriminate H.
Defined.

(** * Uploads *)

Lemma uploads_app (a b : list (string * HTTPUpload * bool)) (st : UploadState) :
  uploads (a ++ b) st = uploads b (uploads a st).
Proof. unfold uploads. apply fold_left_app. Qed.

Lemma upload_inv_snoc (st : UploadState) (call : SdCall) (file : option string) :
  upload_inv st ->
  isAllowedFile (sd_path call) = true ->
  match call with
  | sd_open_write _ _ => True
  | sd_write path _ | sd_close path => uploadFile st = Some path
  end ->
  (forall path, file = Some path ->
     uploadFile st = Some path \/ call = sd_open_write path true) ->
  upload_inv {| uploadFile := file; sd_calls := sd_calls st ++ [call] |}.
Proof.
  intros [Hopen Hcalls] Hallowed Hcall Hfile. split; cbn [uploadFile sd_calls].
  - intros path Hp. destruct (Hfile path Hp) as [H| ->].
    + destruct (Hopen path H) as [j Hj]. exists j.
      apply lookup_app_l_Some. exact Hj.
    + exists (length (sd_calls st)). rewrite lookup_app_r by lia.
      rewrite Nat.sub_diag. reflexivity.
  - intros i c Hi. apply lookup_app_Some in Hi.
    destruct Hi as [Hi|[Hge Hi]].
    + destruct (Hcalls i c Hi) as [Ha Hc]. split; [exact Ha|].
      destruct c as [p o|p d|p]; [exact I| |];
        destruct Hc as (j & Hlt & Hj); exists j;
        (split; [exact Hlt | apply lookup_app_l_Some; exact Hj]).
    + assert (Hc : c = call).
      { destruct (i - length (sd_calls st))%nat; cbn in Hi; [congruence | discriminate]. }
      subst c. split; [exact Hallowed|].
      destruct call as [p o|p d|p]; [exact I| |];
        destruct (Hopen _ Hcall) as [j Hj]; exists j;
        (split; [apply lookup_lt_Some in Hj; lia | apply lookup_app_l_Some; exact Hj]).
Qed.

Lemma upload_inv_file_allowed (st : UploadState) (path : string) :
  upload_inv st -> uploadFile st = Some path -> isAllowedFile path = true.
Proof.
  intros [Hopen Hcalls] Hp. destruct (Hopen path Hp) as [j Hj].
  exact (proj1 (Hcalls j _ Hj)).
Qed.

Lemma handleFileUpload_inv (uri : string) (upload : HTTPUpload) (open_ok : bool)
    (st : UploadState) :
  upload_inv st -> upload_inv (handleFileUpload uri upload open_ok st).
Proof.
  intros Hinv. unfold handleFileUpload.
  destruct (negb (String.eqb uri "/upload")); [exact Hinv|].
  destruct (upload_status upload).
  - destruct (isAllowedFile (upload_filename upload)) eqn:Ea; cbn [negb]; [|exact Hinv].
    apply upload_inv_snoc; [exact Hinv | exact Ea | exact I |].
    intros path Hp. right. destruct open_ok; [|discriminate]. congruence.
  - destruct (uploadFile st) as [path|] eqn:Ef; [|exact Hinv].
    apply upload_inv_snoc; [exact Hinv | | exact Ef | intros p Hp; left; congruence].
    exact (upload_inv_file_allowed st path Hinv Ef).
  - destruct (uploadFile st) as [path|] eqn:Ef; [|exact Hinv].
    apply upload_inv_snoc; [exact Hinv | | exact Ef | intros p Hp; discriminate].
    exact (upload_inv_file_allowed st path Hinv Ef).
  - exact Hinv.
Qed.

Lemma uploads_inv (reqs : list (string * HTTPUpload * bool)) : forall st,
  upload_inv st -> upload_inv (uploads reqs st).
Proof.
  induction reqs as [|req reqs IH]; intros st Hinv; [exact Hinv|].
  apply IH, handleFileUpload_inv, Hinv.
Qed.

Lemma upload_idle_inv : upload_inv upload_idle.
Proof.
  split; cbn [upload_idle uploadFile sd_calls].
  - discriminate.
  - intros i call Hi. rewrite lookup_nil in Hi. discriminate.
Qed.

(** X20. Whatever the web server feeds the upload handler (any URIs, any
    order of start, write, end and abort, any file names), every call it makes
    to the card is on a path that passes [isAllowedFile], and every write and
    every close is on a path that an earlier call opened successfully. *)
Theorem uploads_touch_only_allowed_files (reqs : list (string * HTTPUpload * bool))
    (i : nat) (call : SdCall) :
  sd_calls (uploads reqs upload_idle) !! i = Some call ->
  isAllowedFile (sd_path call) = true
  /\ match call with
     | sd_open_write _ _ => True
     | sd_write path _ | sd_close path =>
         exists j, (j < i)%nat
                   /\ sd_calls (uploads reqs upload_idle) !! j = Some (sd_open_write path true)
     end.
Proof.
  intros Hi. exact (proj2 (uploads_inv reqs upload_idle upload_idle_inv) i call Hi).
Qed.

Lemma uploads_cons (uri : string) (upload : HTTPUpload) (ok : bool)
    (reqs : list (string * HTTPUpload * bool)) (st : UploadState) :
  uploads ((uri, upload, ok) :: reqs) st = uploads reqs (handleFileUpload uri upload ok st).
Proof. reflexivity. Qed.

Lemma write_effect (filename : string) (chunk : list byte) (ok : bool) (st : UploadState) :
  handleFileUpload "/upload" (upload_write filename chunk) ok st
  = match uploadFile st with
    | Some path => {| uploadFile := Some path;
                      sd_calls := sd_calls st ++ [sd_write path chunk] |}
    | None => st
    end.
Proof.
  unfold handleFileUpload. change (String.eqb "/upload" "/upload") with true.
  cbn [negb upload_status upload_write upload_currentSize upload_buf].
  destruct (uploadFile st); [|reflexivity]. rewrite firstn_all. reflexivity.
Qed.

Lemma writes_effect (filename path : string) (chunks : list (list byte)) (ok : bool) :
  forall st, uploadFile st = Some path ->
  uploads (List.map (fun chunk => ("/upload"%string, upload_write filename chunk, ok)) chunks) st
  = {| uploadFile := Some path;
       sd_calls := sd_calls st ++ List.map (sd_write path) chunks |}.
Proof.
  induction chunks as [|chunk chunks IH]; intros st Hst.
  - cbn. rewrite app_nil_r. destruct st. cbn in Hst. subst. reflexivity.
  - cbn [List.map]. rewrite uploads_cons, write_effect, Hst, IH by reflexivity.
    cbn [sd_calls]. rewrite <- app_assoc. reflexivity.
Qed.

Lemma writes_ignored (filename : string) (chunks : list (list byte)) (ok : bool) :
  forall st, uploadFile st = None ->
  uploads (List.map (fun chunk => ("/upload"%string, upload_write filename chunk, ok)) chunks) st
  = st.
Proof.
  induction chunks as [|chunk chunks IH]; intros st Hst; [reflexivity|].
  cbn [List.map]. rewrite uploads_cons, write_effect, Hst. apply IH, Hst.
Qed.

Lemma start_effect (filename : string) (ok : bool) (st : UploadState) :
  handleFileUpload "/upload" (upload_start filename) ok st
  = if isAllowedFile filename
    then {| uploadFile := if ok then Some filename else None;
            sd_calls := sd_calls st ++ [sd_open_write filename ok] |}
    else st.
Proof.
  unfold handleFileUpload. change (String.eqb "/upload" "/upload") with true.
  cbn [negb upload_status upload_start upload_filename].
  destruct (isAllowedFile filename); reflexivity.
Qed.

Lemma end_effect (filename : string) (ok : bool) (st : UploadState) :
  handleFileUpload "/upload" (upload_end filename) ok st
  = match uploadFile st with
    | Some path => {| uploadFile := None; sd_calls := sd_calls st ++ [sd_close path] |}
    | None => st
    end.
Proof. reflexivity. Qed.

Lemma whole_upload_from (filename : string) (chunks : list (list byte)) (ok : bool)
    (st : UploadState) :
  uploads (whole_upload filename chunks ok) st
  = handleFileUpload "/upload" (upload_end filename) ok
      (uploads (List.map (fun chunk => ("/upload"%string, upload_write filename chunk, ok)) chunks)
               (handleFileUpload "/upload" (upload_start filename) ok st)).
Proof.
  unfold whole_upload. rewrite !uploads_app. reflexivity.
Qed.

(** X21. A complete upload under an allowed name, starting with no upload in
    progress: the file is opened once, the chunks are written to it whole and
    in the order they came, it is closed, and no upload is left in progress.
    If the card refuses to open the file nothing is written; under a name that
    is not allowed the card is not touched at all. *)
Theorem whole_upload_stores_chunks (filename : string) (chunks : list (list byte)) :
  (isAllowedFile filename = true ->
   uploads (whole_upload filename chunks true) upload_idle
   = {| uploadFile := None;
        sd_calls := sd_open_write filename true
                    :: List.map (sd_write filename) chunks ++ [sd_close filename] |}
   /\ uploads (whole_upload filename chunks false) upload_idle
      = {| uploadFile := None; sd_calls := [sd_open_write filename false] |})
  /\ (isAllowedFile filename = false ->
      forall open_ok, uploads (whole_upload filename chunks open_ok) upload_idle = upload_idle).
Proof.
  split.
  - intros Ha. split.
    + rewrite whole_upload_from, start_effect, Ha.
      rewrite (writes_effect filename filename) by reflexivity.
      rewrite end_effect. cbn [uploadFile sd_calls upload_idle app]. reflexivity.
    + rewrite whole_upload_from, start_effect, Ha.
      rewrite writes_ignored by reflexivity. reflexivity.
  - intros Ha open_ok. rewrite whole_upload_from, start_effect, Ha.
    rewrite writes_ignored by reflexivity. reflexivity.
Qed.

Lemma aborted_effect (filename : string) (ok : bool) (st : UploadState) :
  handleFileUpload "/upload" (upload_aborted filename) ok st = st.
Proof. reflexivity. Qed.

(** X22. The name check is made when an upload starts and nowhere else: if an
    upload under an allowed name is left open (the client went away before the
    end), the chunks of the next upload are written to that file even when the
    next upload comes under a name that is not allowed, and its end closes
    that file. *)
Theorem refused_upload_lands_in_open_file (kept refused : string)
    (before chunks : list (list byte)) (open_ok : bool) :
  isAllowedFile kept = true -> isAllowedFile refused = false ->
  uploads (("/upload"%string, upload_start kept, true)
           :: List.map (fun chunk => ("/upload"%string, upload_write kept chunk, true)) before
           ++ ("/upload"%string, upload_aborted kept, true)
           :: whole_upload refused chunks open_ok)
          upload_idle
  = {| uploadFile := None;
       sd_calls := sd_open_write kept true
                   :: List.map (sd_write kept) before
                   ++ List.map (sd_write kept) chunks ++ [sd_close kept] |}.
Proof.
  intros Hk Hr.
  rewrite uploads_cons, start_effect, Hk.
  rewrite uploads_app, (writes_effect kept kept) by reflexivity.
  rewrite uploads_cons, aborted_effect.
  rewrite whole_upload_from, start_effect, Hr.
  rewrite (writes_effect refused kept) by reflexivity.
  rewrite end_effect. cbn [uploadFile sd_calls upload_idle app].
  rewrite <- !app_assoc. reflexivity.
Qed.

Lemma refused_upload_lands_in_open_file_witness :
  sd_calls (uploads [("/upload"%string, upload_start "notes.txt", true);
                     ("/upload"%string, upload_aborted "notes.txt", true);
                     ("/upload"%string, upload_start "tool.exe", true);
                     ("/upload"%string, upload_write "tool.exe" [x4d; x5a], true);
                     ("/upload"%string, upload_end "tool.exe", true)]
                    upload_idle)
  = [sd_open_write "notes.txt" true; sd_write "notes.txt" [x4d; x5a]; sd_close "notes.txt"].
Proof.
  pose proof (refused_upload_lands_in_open_file "notes.txt" "tool.exe" [] [[x4d; x5a]] true
                eq_refl eq_refl) as H.
  cbn [List.map app whole_upload] in H. rewrite H. reflexivity.
Defined.

Lemma uploads_touch_only_allowed_files_witness :
  let reqs := [("/upload"%string, upload_start "tool.exe", true);
               ("/upload"%string, upload_write "tool.exe" [x4d; x5a], true);
               ("/upload"%string, upload_start "notes.txt", true);
               ("/upload"%string, upload_write "notes.txt" [x68; x69], true);
               ("/upload"%string, upload_end "notes.txt", true)] in
  isAllowedFile "notes.txt" = true
  /\ exists j, (j < 1)%nat
               /\ sd_calls (uploads reqs upload_idle) !! j
                  = Some (sd_open_write "notes.txt" true).
Proof.
  intros reqs.
  exact (uploads_touch_only_allowed_files reqs 1 (sd_write "notes.txt" [x68; x69]) eq_refl).
Defined.

(** * Bringing ESP-NOW up *)

Lemma esp_now_init_loop_step (rc : nat -> Z) (initRetry calls : nat) :
  esp_now_init_loop rc initRetry calls
  = if rc calls =? 0 then (true, S calls)
    else if le_lt_dec 5 (S initRetry) then (false, S calls)
         else esp_now_init_loop rc (S initRetry) (S calls).
Proof.
  funelim (esp_now_init_loop rc initRetry calls); try rewrite Heq; try rewrite Heq0;
    try reflexivity.
Qed.

Lemma esp_now_init_loop_spec (rc : nat -> Z) (n : nat) : forall initRetry calls,
  (5 - initRetry = S n)%nat ->
  let res := esp_now_init_loop rc initRetry calls in
  (calls < res.2 <= calls + (5 - initRetry))%nat
  /\ (forall i, (calls <= i < res.2 - 1)%nat -> rc i <> 0)
  /\ (res.1 = true -> rc (res.2 - 1)%nat = 0)
  /\ (res.1 = false ->
      res.2 = (calls + (5 - initRetry))%nat /\ rc (res.2 - 1)%nat <> 0).
Proof.
  induction n as [|n IH]; intros initRetry calls Hn res; subst res;
    rewrite esp_now_init_loop_step;
    destruct (rc calls =? 0) eqn:E0.
  - apply Z.eqb_eq in E0. cbn [fst snd]. replace (S calls - 1)%nat with calls by lia.
    split; [lia|]. split; [intros i Hi; lia|]. split; [intros _; exact E0 | discriminate].
  - apply Z.eqb_neq in E0. destruct (le_lt_dec 5 (S initRetry)); [|lia].
    cbn [fst snd]. replace (S calls - 1)%nat with calls by lia.
    split; [lia|]. split; [intros i Hi; lia|]. split; [discriminate|].
    intros _. split; [lia | exact E0].
  - apply Z.eqb_eq in E0. cbn [fst snd]. replace (S calls - 1)%nat with calls by lia.
    split; [lia|]. split; [intros i Hi; lia|]. split; [intros _; exact E0 | discriminate].
  - apply Z.eqb_neq in E0. destruct (le_lt_dec 5 (S initRetry)); [lia|].
    destruct (IH (S initRetry) (S calls) ltac:(lia)) as (H1 & H2 & H3 & H4).
    split; [lia|]. split.
    + intros i Hi. destruct (Nat.eq_dec i calls) as [->|Hne]; [exact E0|].
      apply H2. lia.
    + split; [exact H3|]. intros Hf. destruct (H4 Hf) as [H5 H6].
      split; [lia | exact H6].
Qed.

(** X23. [initializeESPNow] calls [esp_now_init] at least once and at most
    five times, stopping at the first call that returns 0; every call before
    the last one failed.  The role and the two callbacks are set exactly when
    one of the first five calls returns 0, and then the broadcast address is
    the only ESP-NOW peer, unless adding it is refused; when all five calls
    fail nothing is registered and no peer is added. *)
Theorem initializeESPNow_tries_five_times (rc : nat -> Z) (add_rc : Z) :
  let setup := initializeESPNow rc add_rc in
  (1 <= init_calls setup <= 5)%nat
  /\ (forall i, (i < init_calls setup - 1)%nat -> rc i <> 0)
  /\ (recv_cb_registered setup = true <-> exists i, (i < 5)%nat /\ rc i = 0)
  /\ (recv_cb_registered setup = true -> rc (init_calls setup - 1)%nat = 0)
  /\ send_cb_registered setup = recv_cb_registered setup
  /\ self_role_set setup = recv_cb_registered setup
  /\ (recv_cb_registered setup = true ->
      esp_peers setup = if add_rc =? 0 then [broadcastMac] else [])
  /\ (recv_cb_registered setup = false -> init_calls setup = 5%nat /\ esp_peers setup = []).
Proof.
  intros setup. subst setup. unfold initializeESPNow.
  pose proof (esp_now_init_loop_spec rc 4 0 0 eq_refl) as Hspec.
  destruct (esp_now_init_loop rc 0 0) as [ok calls]. cbn [fst snd] in Hspec.
  destruct Hspec as (H1 & H2 & H3 & H4).
  destruct ok; cbn [init_calls recv_cb_registered send_cb_registered self_role_set esp_peers].
  - split; [lia|]. split; [intros i Hi; apply H2; lia|].
    split; [split; [intros _; exists (calls - 1)%nat; split; [lia | apply H3; reflexivity]
                   | reflexivity]|].
    split; [intros _; apply H3; reflexivity|]. split; [reflexivity|]. split; [reflexivity|].
    split; [|discriminate]. intros _. unfold addPeer. cbn [existsb].
    destruct (add_rc =? 0); reflexivity.
  - destruct (H4 eq_refl) as [H5 H6].
    split; [lia|]. split; [intros i Hi; apply H2; lia|].
    split.
    + split; [discriminate|]. intros (i & Hi & Hz). exfalso.
      destruct (Nat.eq_dec i (calls - 1)%nat) as [->|Hne]; [exact (H6 Hz)|].
      apply (H2 i); [lia | exact Hz].
    + split; [discriminate|]. split; [reflexivity|]. split; [reflexivity|].
      split; [discriminate|]. intros _. split; [lia | reflexivity].
Qed.

(** * The file page of a node *)

Lemma file_bucket_push_lookup (k L : ascii) (e : string * Z)
    (files : gmap ascii (list (string * Z))) :
  default [] (file_bucket_push k e files !! L)
  = default [] (files !! L) ++ (if Ascii.eqb k L then [e] else []).
Proof.
  unfold file_bucket_push. destruct (Ascii.eqb k L) eqn:E.
  - apply Ascii.eqb_eq in E. subst L. rewrite lookup_insert_eq. reflexivity.
  - apply Ascii.eqb_neq in E. rewrite lookup_insert_ne by exact E.
    rewrite app_nil_r. reflexivity.
Qed.

Lemma file_bucket_push_inhabited (k : ascii) (e : string * Z)
    (files : gmap ascii (list (string * Z))) :
  buckets_inhabited files -> buckets_inhabited (file_bucket_push k e files).
Proof.
  intros H L l. unfold file_bucket_push. destruct (decide (k = L)) as [->|Hne].
  - rewrite lookup_insert_eq. intros [= <-]. destruct (default [] (files !! L)); discriminate.
  - rewrite lookup_insert_ne by exact Hne. apply H.
Qed.

Section Buckets.

Context {A : Type}.
Variables (sel : A -> bool) (key : A -> ascii) (entry : A -> string * Z).
Variable g : gmap ascii (list (string * Z)) -> A -> gmap ascii (list (string * Z)).
Hypothesis g_step : forall files x,
  g files x = if sel x then file_bucket_push (key x) (entry x) files else files.

Lemma bucket_fold_lookup (l : list A) (L : ascii) : forall files,
  default [] (fold_left g l files !! L)
  = default [] (files !! L)
    ++ List.map entry (List.filter (fun x => sel x && Ascii.eqb (key x) L) l).
Proof.
  induction l as [|x l IH]; intros files; cbn [fold_left List.filter List.map].
  - rewrite app_nil_r. reflexivity.
  - rewrite IH, g_step. destruct (sel x); cbn [andb].
    + rewrite file_bucket_push_lookup. destruct (Ascii.eqb (key x) L).
      * rewrite <- app_assoc. reflexivity.
      * rewrite app_nil_r. reflexivity.
    + reflexivity.
Qed.

Lemma bucket_fold_inhabited (l : list A) : forall files,
  buckets_inhabited files -> buckets_inhabited (fold_left g l files).
Proof.
  induction l as [|x l IH]; intros files H; [exact H|].
  cbn [fold_left]. apply IH. rewrite g_step.
  destruct (sel x); [apply file_bucket_push_inhabited, H | exact H].
Qed.

End Buckets.

Lemma buckets_inhabited_empty : buckets_inhabited ∅.
Proof. intros L l H. rewrite lookup_empty in H. discriminate. Qed.

Lemma toupper_not_lower (c : ascii) :
  ~ (97 <= nat_of_ascii (toupper c) <= 122)%nat.
Proof.
  unfold toupper.
  destruct ((97 <=? nat_of_ascii c)%nat && (nat_of_ascii c <=? 122)%nat) eqn:E.
  - apply andb_true_iff in E. destruct E as [E1 E2].
    apply Nat.leb_le in E1. apply Nat.leb_le in E2.
    rewrite nat_ascii_embedding by lia. lia.
  - intros [H1 H2]. apply andb_false_iff in E.
    destruct E as [E|E]; apply Nat.leb_gt in E; lia.
Qed.

Lemma stored_name_read_terminated behind i f :
  terminated (filename f) -> stored_name_read behind (i, f) = String_of_chars (filename f).
Proof.
  intros H. unfold stored_name_read, String_of_chars, filename_memory. cbn [fst snd].
  rewrite c_str_terminated by exact H. reflexivity.
Qed.

Lemma stored_label_read_terminated behind i f :
  terminated (nodeSSID f) -> stored_label_read behind (i, f) = String_of_chars (nodeSSID f).
Proof.
  intros H. unfold stored_label_read, String_of_chars, nodeSSID_memory. cbn [fst snd].
  rewrite c_str_terminated by exact H. reflexivity.
Qed.

Lemma handleNodeFiles_files_remote (env : Env) (behind : CStringRead -> list byte)
    (node_arg : string) (root : option (list DirEntry)) (catalog : list SharedFile) :
  node_arg <> AP_SSID env ->
  let files := handleNodeFiles_files env behind node_arg root catalog in
  (forall L,
     default [] (files !! L)
     = List.map (fun e => (stored_name_read behind e, filesize e.2))
         (List.filter
            (fun e => (String.eqb (stored_label_read behind e) node_arg
                       && isAllowedFile (stored_name_read behind e))
                      && Ascii.eqb (toupper (charAt0 (stored_name_read behind e))) L)
            (imap pair catalog)))
  /\ buckets_inhabited files.
Proof.
  intros Hne files. subst files. unfold handleNodeFiles_files.
  replace (String.eqb node_arg (AP_SSID env)) with false
    by (symmetry; apply String.eqb_neq; exact Hne).
  split.
  - intros L.
    rewrite (bucket_fold_lookup
               (fun e => String.eqb (stored_label_read behind e) node_arg
                         && isAllowedFile (stored_name_read behind e))
               (fun e => toupper (charAt0 (stored_name_read behind e)))
               (fun e => (stored_name_read behind e, filesize e.2))).
    + rewrite lookup_empty. reflexivity.
    + intros files e. destruct (String.eqb (stored_label_read behind e) node_arg);
        [|reflexivity]. cbn [andb].
      destruct (isAllowedFile (stored_name_read behind e)); reflexivity.
  - apply (bucket_fold_inhabited
             (fun e => String.eqb (stored_label_read behind e) node_arg
                       && isAllowedFile (stored_name_read behind e))
             (fun e => toupper (charAt0 (stored_name_read behind e)))
             (fun e => (stored_name_read behind e, filesize e.2)));
      [|apply buckets_inhabited_empty].
    intros files e. destruct (String.eqb (stored_label_read behind e) node_arg);
      [|reflexivity]. cbn [andb].
    destruct (isAllowedFile (stored_name_read behind e)); reflexivity.
Qed.

Lemma no_lower_case_bucket (files : gmap ascii (list (string * Z))) (A : Type)
    (keep : ascii -> A -> bool) (entry : A -> string * Z) (first : A -> ascii) (l : list A) :
  buckets_inhabited files ->
  (forall L, default [] (files !! L)
             = List.map entry (List.filter (fun x => keep L x && Ascii.eqb (toupper (first x)) L) l)) ->
  forall L, (97 <= nat_of_ascii L <= 122)%nat -> files !! L = None.
Proof.
  intros Hin Hlist L HL. destruct (files !! L) as [b|] eqn:E; [|reflexivity].
  exfalso. apply (Hin L b E). specialize (Hlist L). rewrite E in Hlist.
  change (default [] (Some b)) with b in Hlist. rewrite Hlist. clear Hlist E.
  induction l as [|x l IH]; [reflexivity|]. cbn [List.filter].
  destruct (Ascii.eqb (toupper (first x)) L) eqn:Ex.
  - apply Ascii.eqb_eq in Ex. subst L. exfalso. exact (toupper_not_lower _ HL).
  - rewrite andb_false_r. exact IH.
Qed.

(** X24. The file page of another node shows the catalog entries whose origin
    label, read as a C string, is the requested name and whose file name, read
    as a C string, is allowed, and nothing else: under each letter, in catalog
    order, the names with their sizes that start with that letter once
    upper-cased.  The name and the label of an entry are the characters of its
    arrays when these hold a terminator; when they do not, the read runs on
    through the entry and into the memory behind it.  No letter is shown with
    an empty list and nothing is filed under a lower-case letter.  The card is
    not read. *)
Theorem node_page_lists_catalog (env : Env) (behind : CStringRead -> list byte)
    (node_arg : string) (root : option (list DirEntry)) (catalog : list SharedFile) :
  node_arg <> AP_SSID env ->
  let files := handleNodeFiles_files env behind node_arg root catalog in
  (forall L,
     default [] (files !! L)
     = List.map (fun e => (stored_name_read behind e, filesize e.2))
         (List.filter
            (fun e => (String.eqb (stored_label_read behind e) node_arg
                       && isAllowedFile (stored_name_read behind e))
                      && Ascii.eqb (toupper (charAt0 (stored_name_read behind e))) L)
            (imap pair catalog)))
  /\ (forall i f, terminated (filename f) ->
        stored_name_read behind (i, f) = String_of_chars (filename f))
  /\ (forall i f, terminated (nodeSSID f) ->
        stored_label_read behind (i, f) = String_of_chars (nodeSSID f))
  /\ (forall i f, ~ terminated (filename f) ->
        exists more, stored_name_read behind (i, f)
                     = string_of_list_byte (char32 (filename f) ++ more))
  /\ (forall L l, files !! L = Some l -> l <> [])
  /\ (forall L, (97 <= nat_of_ascii L <= 122)%nat -> files !! L = None)
  /\ files = handleNodeFiles_files env behind node_arg None catalog.
Proof.
  intros Hne files.
  destruct (handleNodeFiles_files_remote env behind node_arg root catalog Hne) as [Hlist Hin].
  fold files in Hlist, Hin.
  split; [exact Hlist|].
  split; [intros i f; apply stored_name_read_terminated|].
  split; [intros i f; apply stored_label_read_terminated|].
  split.
  { intros i f Hnt. unfold stored_name_read, String_of_chars, filename_memory. cbn [fst snd].
    unfold terminated in Hnt. apply not_true_is_false in Hnt.
    rewrite c_str_run_on by exact Hnt. eexists. reflexivity. }
  split; [exact Hin|]. split.
  - exact (no_lower_case_bucket files _
             (fun _ e => String.eqb (stored_label_read behind e) node_arg
                         && isAllowedFile (stored_name_read behind e))
             _ (fun e => charAt0 (stored_name_read behind e)) (imap pair catalog) Hin Hlist).
  - subst files. unfold handleNodeFiles_files.
    replace (String.eqb node_arg (AP_SSID env)) with false
      by (symmetry; apply String.eqb_neq; exact Hne).
    reflexivity.
Qed.

Lemma node_page_lists_catalog_witness :
  handleNodeFiles_files reading_room (fun _ => []) "PR0J3K7_B00KM4RK_42" None
                        [book_record; decode_SharedFile run_on_name_datagram] !! "N"%char
  = Some [("notes.txt"%string, 1024)]
  /\ handleNodeFiles_files reading_room (fun _ => []) "PR0J3K7_B00KM4RK_42" None
                           [book_record; decode_SharedFile run_on_name_datagram] !! "A"%char
     = Some [("AAAAAAAAAAAAAAAAAAAAAAAAAAAAAAAA.txt"%string, 1954051118)]
  /\ handleNodeFiles_files reading_room (fun _ => []) "PR0J3K7_B00KM4RK_42" None
                           [book_record; decode_SharedFile run_on_name_datagram] !! "n"%char
     = None.
Proof.
  assert (Hne : "PR0J3K7_B00KM4RK_42"%string <> AP_SSID reading_room)
    by (vm_compute; discriminate).
  destruct (node_page_lists_catalog reading_room (fun _ => []) "PR0J3K7_B00KM4RK_42" None
              [book_record; decode_SharedFile run_on_name_datagram] Hne)
    as (_ & _ & _ & _ & _ & H3 & _).
  split; [vm_compute; reflexivity|]. split; [vm_compute; reflexivity|].
  apply H3. vm_compute. lia.
Defined.

(** X25. The file page of this node's own name is made from the card alone:
    under each letter, in directory order, the allowed names that start with
    that letter once upper-cased, with their sizes; nothing when the root
    directory does not open.  The catalog and the memory behind its entries
    play no part, so the files of a peer that announces itself under the same
    access-point name are never shown. *)
Theorem own_page_lists_card (env : Env) (behind : CStringRead -> list byte)
    (root : option (list DirEntry)) (catalog : list SharedFile) :
  let files := handleNodeFiles_files env behind (AP_SSID env) root catalog in
  (forall L,
     default [] (files !! L)
     = List.map (fun file => (file_name file, Word.u32 (file_size file)))
         (List.filter
            (fun file => isAllowedFile (file_name file)
                         && Ascii.eqb (toupper (charAt0 (file_name file))) L)
            (default [] root)))
  /\ (forall L l, files !! L = Some l -> l <> [])
  /\ (root = None -> files = ∅)
  /\ (forall behind', files = handleNodeFiles_files env behind' (AP_SSID env) root []).
Proof.
  intros files. subst files. unfold handleNodeFiles_files. rewrite String.eqb_refl.
  split; [|split; [|split]].
  - intros L. destruct root as [dir|]; cbn [default List.filter List.map].
    + rewrite (bucket_fold_lookup (fun file => isAllowedFile (file_name file))
                 (fun file => toupper (charAt0 (file_name file)))
                 (fun file => (file_name file, Word.u32 (file_size file)))).
      * rewrite lookup_empty. reflexivity.
      * intros files file. reflexivity.
    + rewrite lookup_empty. reflexivity.
  - destruct root as [dir|]; [|apply buckets_inhabited_empty].
    apply (bucket_fold_inhabited (fun file => isAllowedFile (file_name file))
             (fun file => toupper (charAt0 (file_name file)))
             (fun file => (file_name file, Word.u32 (file_size file))));
      [|apply buckets_inhabited_empty].
    intros files file. reflexivity.
  - intros ->. reflexivity.
  - intros behind'. reflexivity.
Qed.

Lemma find_file_In (key entry : SharedFile) (fs : list SharedFile) :
  find_file key fs = Some entry -> In entry fs.
Proof. unfold find_file. intros H. apply List.find_some in H. tauto. Qed.

(** X26. From advertisement to page: when a peer has received the record of an
    allowed local file advertised by a node with another access-point name,
    the file page it serves for that node's name lists the file, with its
    size, under the upper-cased first letter of its name, whatever the memory
    holds behind the catalog entries. *)
Theorem advertised_file_is_listed (sender : Env) (file : DirEntry) (uninit : SharedFile)
    (receiver : Env) (addr : MacAddr) (s : State) (root : option (list DirEntry))
    (behind : CStringRead -> list byte) :
  length (filename uninit) = 32%nat -> length (nodeSSID uninit) = 32%nat ->
  no_nul (file_name file) -> (String.length (file_name file) < 31)%nat ->
  no_nul (AP_SSID sender) -> (String.length (AP_SSID sender) < 31)%nat ->
  isAllowedFile (file_name file) = true ->
  AP_SSID sender <> AP_SSID receiver ->
  let r := local_record sender file uninit in
  let s' := step receiver s (Received addr (encode_SharedFile r) sizeof_SharedFile) in
  In (file_name file, Word.u32 (file_size file))
     (default [] (handleNodeFiles_files receiver behind (AP_SSID sender) root (remoteFiles s')
                  !! toupper (charAt0 (file_name file)))).
Proof.
  intros Hf Hs Hn Hl Hn' Hl' Ha Hne r s'.
  assert (Hwf : record_wf r).
  { unfold record_wf. subst r. unfold local_record. cbn [filename nodeSSID filesize].
    rewrite !strncpy_length by lia. split; [exact Hf|]. split; [exact Hs|].
    apply WordFacts.u32_range. }
  assert (Hname : String_of_chars (filename r) = file_name file).
  { subst r. unfold local_record, String_of_chars. cbn [filename].
    rewrite strncpy_short; [apply string_of_list_byte_of_string | exact Hn |].
    rewrite list_byte_of_string_length. exact Hl. }
  assert (Hssid : String_of_chars (nodeSSID r) = AP_SSID sender).
  { subst r. unfold local_record, String_of_chars. cbn [nodeSSID].
    rewrite strncpy_short; [apply string_of_list_byte_of_string | exact Hn' |].
    rewrite list_byte_of_string_length. exact Hl'. }
  assert (Htn : terminated (filename r)).
  { apply terminated_short. unfold String_of_chars in Hname.
    apply (f_equal list_byte_of_string) in Hname.
    rewrite list_byte_of_string_of_list_byte in Hname. rewrite Hname.
    rewrite list_byte_of_string_length. lia. }
  assert (Htl : terminated (nodeSSID r)).
  { apply terminated_short. unfold String_of_chars in Hssid.
    apply (f_equal list_byte_of_string) in Hssid.
    rewrite list_byte_of_string_of_list_byte in Hssid. rewrite Hssid.
    rewrite list_byte_of_string_length. lia. }
  assert (Hin : In r (remoteFiles s')).
  { subst s'. rewrite step_received.
    rewrite onDataReceived_terminated by (rewrite (decode_encode r Hwf); assumption).
    cbn [remoteFiles]. rewrite (decode_encode r Hwf).
    apply (find_file_In r), upsert_file_find. }
  apply list_elem_of_In, list_elem_of_lookup in Hin. destruct Hin as [i Hi].
  destruct (handleNodeFiles_files_remote receiver behind (AP_SSID sender) root
              (remoteFiles s') Hne) as [Hlist _].
  rewrite Hlist. apply in_map_iff. exists (i, r). split.
  - rewrite stored_name_read_terminated by exact Htn. rewrite Hname. reflexivity.
  - apply filter_In. split.
    + apply list_elem_of_In. exact (elem_of_lookup_imap_2 pair _ _ _ Hi).
    + rewrite stored_label_read_terminated by exact Htl.
      rewrite stored_name_read_terminated by exact Htn.
      rewrite Hssid, Hname, Ha, String.eqb_refl, Ascii.eqb_refl. reflexivity.
Qed.

Lemma advertised_file_is_listed_witness :
  In ("notes.txt"%string, 1024)
     (default []
        (handleNodeFiles_files reading_room (fun _ => [x41]) "PR0J3K7_B00KM4RK_42" None
           (remoteFiles (step reading_room init_state
                           (Received node_self (encode_SharedFile book_record)
                                     sizeof_SharedFile)))
         !! "N"%char)).
Proof.
  assert (Hn : no_nul "notes.txt") by (unfold no_nul; vm_compute; repeat constructor).
  assert (Hs : no_nul (AP_SSID radio_down)) by (unfold no_nul; vm_compute; repeat constructor).
  assert (Hl : (String.length "notes.txt" < 31)%nat) by (vm_compute; lia).
  assert (Hl' : (String.length (AP_SSID radio_down) < 31)%nat) by (vm_compute; lia).
  assert (Hne : AP_SSID radio_down <> AP_SSID reading_room) by (vm_compute; discriminate).
  exact (advertised_file_is_listed radio_down
           {| file_name := "notes.txt"; file_size := 1024 |} stack_garbage
           reading_room node_self init_state None (fun _ => [x41])
           eq_refl eq_refl Hn Hl Hs Hl' eq_refl Hne).
Defined.

(** * The retry queue while the radio is down *)

Lemma refused_radio_refuses env n recs : radio_refuses env -> refused env n recs = recs.
Proof.
  intros Hdown. revert n. induction recs as [|r recs IH]; intros n; cbn [refused]; [reflexivity|].
  destruct (esp_now_send_rc env n =? 0) eqn:E.
  - apply Z.eqb_eq in E. destruct (Hdown n E).
  - rewrite IH. reflexivity.
Qed.

(** With no failure counted and the radio down, the retry loop keeps every
    ticket. *)
Lemma retry_loop_radio_refuses env (q : list SharedFile) tickets :
  radio_refuses env ->
  hoare (fun s => nothing_counted s /\ failedTransmissions s = q)
        (retry_loop env tickets)
        (fun kept s => kept = tickets /\ nothing_counted s /\ failedTransmissions s = q).
Proof.
  intros Hdown.
  set (P := fun s : State => nothing_counted s /\ failedTransmissions s = q).
  assert (Hat : forall key, hoare P (status_at key) (fun st s => P s /\ retryCount st = 0)).
  { intros key s [Hs Hq]. unfold status_at, bind, gets, modify, ret. cbn [fst snd].
    destruct (sendStatuses s !! key) as [st|] eqn:E; cbn [fst snd].
    - split; [split; assumption | exact (Hs key st E)].
    - split; [|reflexivity]. split; [|exact Hq].
      apply all_status_insert; [exact Hs | reflexivity]. }
  assert (Hclock : forall s n l, P s ->
            P (mkState (peers s) (remoteFiles s) (sendStatuses s) (failedTransmissions s)
                       (lastBroadcast s) n l)).
  { intros s n l [Hs Hq]. split; [apply phi_clock, Hs | exact Hq]. }
  induction tickets as [|it rest IH]; cbn [retry_loop].
  - apply hoare_ret. intros s [Hs Hq]. auto.
  - eapply hoare_bind; [apply Hat|]. intros st.
    apply (hoare_pure _ (retryCount st = 0)); [intros s [_ H]; exact H|]. intros ->.
    change (0 <? MAX_RETRY) with true. cbv iota.
    eapply hoare_conseq with (P' := P)
      (Q' := fun kept s => kept = it :: rest /\ nothing_counted s /\ failedTransmissions s = q);
      [|intros s [H _]; exact H | auto].
    assert (Hkeep : hoare P (do kept <- retry_loop env rest; ret (it :: kept))
              (fun kept s => kept = it :: rest /\ nothing_counted s /\ failedTransmissions s = q)).
    { eapply hoare_bind; [exact IH|]. intros kept. apply hoare_ret.
      intros s (-> & Hs & Hq). auto. }
    eapply hoare_bind; [apply hoare_millis, Hclock|]. intros now.
    eapply hoare_bind with (Q := fun _ => P);
      [eapply hoare_conseq; [apply Hat | auto | intros a s [H _]; exact H]|].
    intros st'. destruct (100 <=? Word.usub now (lastTry st')); [|exact Hkeep].
    eapply hoare_bind with (Q := fun rc s => P s /\ rc <> 0).
    { intros s Hs. unfold esp_now_send. cbn [fst snd].
      split; [apply Hclock, Hs | apply Hdown]. }
    intros rc. apply (hoare_pure _ (rc <> 0)); [intros s [_ H]; exact H|]. intros Hrc.
    replace (rc =? 0) with false by (symmetry; apply Z.eqb_neq; exact Hrc).
    eapply hoare_conseq; [exact Hkeep | intros s [H _]; exact H | auto].
Qed.

Lemma broadcastFiles_radio_refuses env files s :
  radio_refuses env -> nothing_counted s ->
  failedTransmissions (exec (broadcastFiles env (Some files)) s)
  = failedTransmissions s ++ advertised env files
  /\ nothing_counted (exec (broadcastFiles env (Some files)) s).
Proof.
  intros Hdown Hs. unfold broadcastFiles. rewrite exec_bind. cbn [fresh_phase].
  change ((retry_phase env s).2) with (exec (retry_phase env) s).
  assert (H1 : nothing_counted (exec (retry_phase env) s)
               /\ failedTransmissions (exec (retry_phase env) s) = failedTransmissions s).
  { unfold retry_phase, exec, bind, gets, modify. cbn [fst snd].
    pose proof (retry_loop_radio_refuses env (failedTransmissions s) (failedTransmissions s)
                  Hdown s (conj Hs eq_refl)) as H.
    destruct (retry_loop env (failedTransmissions s) s) as [kept s1].
    cbn [fst snd] in *. destruct H as (-> & Hs1 & Hq). split; [exact Hs1 | reflexivity]. }
  destruct H1 as [Hs1 Hq1].
  pose proof (fresh_loop_effect env files (exec (retry_phase env) s)) as (_ & Hq & _).
  rewrite refused_radio_refuses in Hq by exact Hdown. rewrite Hq, Hq1.
  split; [reflexivity|].
  apply (fresh_loop_inv env (fun _ st => retryCount st = 0)); [reflexivity | exact Hs1].
Qed.

(** X27. While the radio refuses every send and no failure has been counted,
    every round of [broadcastFiles] keeps all the tickets of the retry queue
    and adds one ticket for each allowed file of the card, whether or not the
    file is queued already: after [n] rounds the queue is what it was followed
    by [n] copies of the advertised records, so it grows without bound, and
    still no failure is counted. *)
Theorem queue_grows_while_radio_refuses (env : Env) (files : list (DirEntry * SharedFile))
    (n : nat) (s : State) :
  radio_refuses env -> nothing_counted s ->
  let s' := Nat.iter n (exec (broadcastFiles env (Some files))) s in
  failedTransmissions s'
  = failedTransmissions s ++ concat (replicate n (advertised env files))
  /\ length (failedTransmissions s')
     = (length (failedTransmissions s) + n * length (advertised env files))%nat
  /\ nothing_counted s'.
Proof.
  intros Hdown Hs s'. subst s'.
  assert (H : failedTransmissions (Nat.iter n (exec (broadcastFiles env (Some files))) s)
              = failedTransmissions s ++ concat (replicate n (advertised env files))
              /\ nothing_counted (Nat.iter n (exec (broadcastFiles env (Some files))) s)).
  { induction n as [|n [IH1 IH2]]; [|rewrite Nat.iter_succ]; cbn [replicate concat].
    - rewrite app_nil_r. split; [reflexivity | exact Hs].
    - destruct (broadcastFiles_radio_refuses env files _ Hdown IH2) as [H1 H2].
      split; [|exact H2]. rewrite H1, IH1, <- app_assoc. f_equal.
      clear. induction n as [|n IH]; cbn [replicate concat].
      + rewrite app_nil_r. reflexivity.
      + rewrite <- app_assoc, IH. reflexivity. }
  destruct H as [H1 H2]. split; [exact H1|]. split; [|exact H2].
  rewrite H1, length_app. f_equal.
  clear. induction n as [|n IH]; cbn [replicate concat]; [reflexivity|].
  rewrite length_app, IH. lia.
Qed.

Lemma queue_grows_while_radio_refuses_witness :
  failedTransmissions (Nat.iter 3 (exec (broadcastFiles radio_down one_book)) init_state)
  = [book_record; book_record; book_record].
Proof.
  assert (Hdown : radio_refuses radio_down) by (intros n; discriminate).
  assert (Hs : nothing_counted init_state).
  { intros key st Hk. cbn in Hk. rewrite lookup_empty in Hk. discriminate. }
  destruct (queue_grows_while_radio_refuses radio_down book_shelf 3 init_state Hdown Hs)
    as (H & _ & _).
  exact H.
Defined.

(** * Keys of terminated names *)

Lemma run_keys_nodup env evs :
  names_terminated evs -> NoDup (map file_key (remoteFiles (run env evs init_state))).
Proof.
  intros Hterm.
  apply (run_invariant_on env (fun s => NoDup (map file_key (remoteFiles s))) evs).
  - intros s ev Hin Hs. rewrite step_remoteFiles.
    destruct ev as [addr data len| |]; try exact Hs.
    destruct (len =? sizeof_SharedFile) eqn:E; [|exact Hs].
    apply Z.eqb_eq in E. subst len.
    rewrite merge_file_terminated by (apply (Hterm addr), Hin).
    apply upsert_file_keys_nodup, Hs.
  - simpl. apply NoDup_nil_2.
Qed.

(** X28. As long as every record received carries a terminated filename, no
    two catalog entries have the same filename and source node, and a record
    whose key is stored overwrites that entry where it stands, whatever the
    memory holds behind the objects. *)
Theorem terminated_names_have_unique_keys env evs :
  names_terminated evs ->
  let s := run env evs init_state in
  NoDup (map file_key (remoteFiles s))
  /\ (forall i j f g,
        remoteFiles s !! i = Some f -> remoteFiles s !! j = Some g ->
        same_key f g = true -> i = j)
  /\ (forall addr data i f,
        terminated (filename (decode_SharedFile data)) ->
        remoteFiles s !! i = Some f -> same_key f (decode_SharedFile data) = true ->
        remoteFiles (step env s (Received addr data sizeof_SharedFile))
        = <[i:=decode_SharedFile data]> (remoteFiles s)).
Proof.
  intros Hterm s. pose proof (run_keys_nodup env evs Hterm) as Hnd. fold s in Hnd.
  assert (Huniq : forall i j f g,
            remoteFiles s !! i = Some f -> remoteFiles s !! j = Some g ->
            same_key f g = true -> i = j).
  { intros i j f g Hi Hj Hfg. apply same_key_iff in Hfg.
    apply (NoDup_lookup _ i j (file_key f) Hnd); rewrite list_lookup_fmap.
    - rewrite Hi. reflexivity.
    - rewrite Hj, Hfg. reflexivity. }
  split; [exact Hnd|]. split; [exact Huniq|].
  intros addr data i f Hdata Hi Hf.
  rewrite step_remoteFiles, Z.eqb_refl, merge_file_terminated by exact Hdata.
  unfold upsert_file.
  rewrite (replace_by_key_at _ _ i f Hi Hf); [reflexivity|].
  intros j g Hlt Hj. destruct (same_key g (decode_SharedFile data)) eqn:E; [|reflexivity].
  exfalso. assert (j = i); [|lia].
  apply (Huniq j i g f Hj Hi). apply same_key_iff. apply same_key_iff in E, Hf. congruence.
Qed.

Lemma terminated_names_have_unique_keys_witness :
  let s := run radio_down [Received node_A notes_datagram 76] init_state in
  let s' := step radio_down s (Received node_A notes_grown sizeof_SharedFile) in
  names_terminated [Received node_A notes_datagram 76]
  /\ remoteFiles s !! 0%nat = Some (decode_SharedFile notes_datagram)
  /\ same_key (decode_SharedFile notes_datagram) (decode_SharedFile notes_grown) = true
  /\ remoteFiles s' = <[0%nat:=decode_SharedFile notes_grown]> (remoteFiles s)
  /\ length (remoteFiles s') = 1%nat
  /\ filesize <$> remoteFiles s' = [2048].
Proof.
  intros s s'.
  assert (Hterm : names_terminated [Received node_A notes_datagram 76]).
  { intros addr data Hin. apply list_elem_of_singleton in Hin.
    injection Hin as -> ->. reflexivity. }
  assert (H0 : remoteFiles s !! 0%nat = Some (decode_SharedFile notes_datagram))
    by (vm_compute; reflexivity).
  assert (Hk : same_key (decode_SharedFile notes_datagram) (decode_SharedFile notes_grown) = true)
    by (vm_compute; reflexivity).
  assert (Hg : terminated (filename (decode_SharedFile notes_grown))) by reflexivity.
  split; [exact Hterm|]. split; [exact H0|]. split; [exact Hk|].
  destruct (terminated_names_have_unique_keys radio_down [Received node_A notes_datagram 76]
              Hterm) as (_ & _ & H).
  split; [exact (H node_A notes_grown 0%nat _ Hg H0 Hk)|].
  split; vm_compute; reflexivity.
Defined.
